(** * basic2.go: the numeric transforms of kshedden/ivbss

    A shallow embedding of [cormat], [standardize], [getBrakeProb],
    [standardizeCellMeans] and [heatMap] of [basic2.go], with the
    properties of them that the specification states, and of the filters
    [selectEq] and [selectGt], [fbrake], [getPos], [getCells], the method
    [Z] of [covheat] and the closure [gxy] of [plotlines].

    Conventions of the embedding.
    - A Go [float64] is a real number of [R]: arithmetic is exact, and no
      value is NaN or an infinity.  Rocq's [sqrt] and [/] are total
      ([sqrt x = 0] for [x < 0], [x / 0 = 0]) where Go yields NaN or an
      infinity; a property that depends on the value at such a point says
      so.  A property that holds of the values computed without rounding
      only is stated as one under exact arithmetic.
    - A Go [int] is an integer of [Z].  Where a function does arithmetic on
      an [int] that the caller chooses ([w] in [getBrakeProb], the counts
      summed in [standardizeCellMeans]) the two's complement wrap-around is
      written with [wrap].  Every other computed integer is an index that
      the run-time checks against the length of a slice, the indices of a
      loop growing from one round to the next, or a counter incremented at
      most once per element of a slice: it stays below [2^63].
    - A slice is a list.  A run-time panic is the [Panic] result.  A function
      that writes to an argument returns the argument's new contents; what
      an argument holds when the function panics is modelled for
      [getBrakeProb] only.  Two slice arguments are on arrays of their own,
      except in [getBrakeProb_mem], where they are slices of one memory. *)

From Stdlib Require Import String.
From Stdlib Require Import Reals Lra Lia ZArith Bool List Permutation Sorted Psatz.
Import ListNotations.

Local Open Scope Z_scope.

(** ** Results and panics *)

Inductive panic : Type :=
| IndexOutOfRange
| SliceBounds
| DivideByZero
| NegativeLen
| LengthMismatch.

Inductive result (A : Type) : Type :=
| Ok (a : A)
| Panic (p : panic).

Arguments Ok {A} a.
Arguments Panic {A} p.

Definition bind {A B : Type} (r : result A) (k : A -> result B) : result B :=
  match r with
  | Ok a => k a
  | Panic p => Panic p
  end.

Notation "x <- r ;; k" := (bind r (fun x => k))
  (at level 61, r at next level, right associativity).

(** ** Integers *)

(** The value a 64-bit two's complement register holds for [z]. *)
Definition wrap (z : Z) : Z :=
  (z + 9223372036854775808) mod 18446744073709551616 - 9223372036854775808.

Arguments wrap : simpl never.

(** The values of the type [int]. *)
Definition is_int (z : Z) : Prop :=
  -9223372036854775808 <= z < 9223372036854775808.

(** ** Slices *)

Definition len {A : Type} (l : list A) : Z := Z.of_nat (length l).

(** [l[i]]. *)
Definition index {A : Type} (l : list A) (i : Z) : result A :=
  if i <? 0 then Panic IndexOutOfRange
  else match nth_error l (Z.to_nat i) with
       | Some a => Ok a
       | None => Panic IndexOutOfRange
       end.

Fixpoint update {A : Type} (l : list A) (n : nat) (a : A) : list A :=
  match l, n with
  | [], _ => []
  | _ :: t, O => a :: t
  | h :: t, S n' => h :: update t n' a
  end.

(** [l[i] = a]. *)
Definition store {A : Type} (l : list A) (i : Z) (a : A) : result (list A) :=
  if i <? 0 then Panic IndexOutOfRange
  else if i <? len l then Ok (update l (Z.to_nat i) a)
  else Panic IndexOutOfRange.

(** [l[lo:hi]] for a slice whose capacity is its length. *)
Definition slice {A : Type} (l : list A) (lo hi : Z) : result (list A) :=
  if (0 <=? lo) && (lo <=? hi) && (hi <=? len l)
  then Ok (firstn (Z.to_nat (hi - lo)) (skipn (Z.to_nat lo) l))
  else Panic SliceBounds.

(** ** Loops *)

(** [n] rounds of [body], the loop variable starting at [i]. *)
Fixpoint for_loop {St : Type} (n : nat) (i : Z) (body : Z -> St -> result St)
  (s : St) : result St :=
  match n with
  | O => Ok s
  | S n' => s' <- body i s ;; for_loop n' (i + 1) body s'
  end.

(** [for i := lo; i < hi; i++ { body }]. *)
Definition for_range {St : Type} (lo hi : Z) (body : Z -> St -> result St)
  (s : St) : result St :=
  for_loop (Z.to_nat (hi - lo)) lo body s.

(** [for _, a := range l { ... }] collecting one value per element. *)
Fixpoint mapM {A B : Type} (f : A -> result B) (l : list A) : result (list B) :=
  match l with
  | [] => Ok []
  | a :: t => b <- f a ;; bs <- mapM f t ;; Ok (b :: bs)
  end.

(** ** Floating point *)

Local Open Scope R_scope.

(** [a == b] on [float64]. *)
Definition feq (a b : R) : bool := if Req_dec_T a b then true else false.

(** [a <= b] on [float64]. *)
Definition fle (a b : R) : bool := if Rle_dec a b then true else false.

(** [math.Sqrt]. *)
Definition Sqrt (x : R) : R := sqrt x.

(** [math.Pow x y] for [0 <= x] and [0 <= y]: [Pow 0 y = 0] for [0 < y],
    [Pow x 0 = 1]. *)
Definition Pow (x y : R) : R :=
  if feq y 0 then 1 else if feq x 0 then 0 else Rpower x y.

(** ** gonum/floats *)

(** [floats.Scale c dst]: [dst[i] *= c].  Returns [dst]. *)
Definition Scale (c : R) (dst : list R) : list R := map (fun x => x * c) dst.

Fixpoint zipWith (f : R -> R -> R) (a b : list R) : list R :=
  match a, b with
  | x :: a', y :: b' => f x y :: zipWith f a' b'
  | _, _ => []
  end.

(** [floats.AddScaled dst alpha s]: [dst[i] += alpha * s[i]]; panics when the
    lengths differ.  Returns [dst]. *)
Definition AddScaled (dst : list R) (alpha : R) (s : list R) : result (list R) :=
  if Nat.eqb (length dst) (length s)
  then Ok (zipWith (fun d x => d + alpha * x) dst s)
  else Panic LengthMismatch.

(** [floats.Sub dst s]: [dst[i] -= s[i]]; panics when the lengths differ.
    Returns [dst]. *)
Definition Sub (dst s : list R) : result (list R) :=
  if Nat.eqb (length dst) (length s)
  then Ok (zipWith (fun d x => d - x) dst s)
  else Panic LengthMismatch.

(** Insertion of a keyed index before the first entry whose key is not
    smaller. *)
Fixpoint insert_key (x : R * Z) (l : list (R * Z)) : list (R * Z) :=
  match l with
  | [] => [x]
  | y :: t => if fle (fst x) (fst y) then x :: l else y :: insert_key x t
  end.

Definition sort_keys (l : list (R * Z)) : list (R * Z) :=
  fold_right insert_key [] l.

Fixpoint indices (n : nat) (i : Z) : list Z :=
  match n with
  | O => []
  | S n' => i :: indices n' (i + 1)%Z
  end.

(** [floats.Argsort dst inds] with [len(inds) = len(dst)]: sorts [dst] in
    increasing order in place and sets [inds] to the original positions, so
    that [dst[k] = old dst[inds[k]]].  Returns [(dst, inds)].  gonum leaves
    the order of equal keys open; this model keeps their original order. *)
Definition Argsort (dst : list R) : list R * list Z :=
  let s := sort_keys (combine dst (indices (length dst) 0%Z)) in
  (map fst s, map snd s).

(** ** getBrakeProb *)

(** [for j := i - w; j < i+w; j++ { z[j]++ }]. *)
Definition bump_window (i w : Z) (z : list R) : result (list R) :=
  for_range (wrap (i - w)) (wrap (i + w))
    (fun j z => zj <- index z j ;; store z j (zj + 1)) z.

(** The body of the loop over [i]. *)
Definition brake_step (b : list R) (w : Z) (i : Z) (z : list R)
  : result (list R) :=
  bi <- index b i ;;
  if feq bi 1 then bump_window i w z else Ok z.

(** [getBrakeProb sc br w] for [sc] and [br] on arrays of their own: the
    first component is the contents of the caller's [sc] and [br] when the
    call ends (by return or by panic), the second the returned pair of
    slices.  [getBrakeProb_mem] below is the call on two slices of one
    memory, which may share cells. *)
Definition getBrakeProb (sc br : list R) (w : Z)
  : (list R * list R) * result (list R * list R) :=
  let '(sc', ii) := Argsort sc in
  ((sc', br),
   b <- mapM (index br) ii ;;
   z <- for_range w (wrap (len b - w)) (brake_step b w)
          (repeat 0 (length sc)) ;;
   let z := map (fun x => x / IZR (wrap (2 * w))) z in
   s1 <- slice sc' w (wrap (len sc' - w)) ;;
   s2 <- slice z w (wrap (len z - w)) ;;
   Ok (s1, s2)).

(** ** getBrakeProb on slices of one memory *)

(** A slice of [float64] as the callee holds it: [sp_len] cells of the
    memory, from cell [sp_base] on. *)
Record span : Type := mkSpan { sp_base : nat; sp_len : nat }.

(** The values in the cells of a slice. *)
Definition view (mem : list R) (s : span) : list R :=
  firstn (sp_len s) (skipn (sp_base s) mem).

(** The memory after the cells of [s] are overwritten with [v], a list of
    [sp_len s] values. *)
Definition write (mem : list R) (s : span) (v : list R) : list R :=
  firstn (sp_base s) mem ++ v ++ skipn (sp_base s + sp_len s) mem.

(** [s[lo:hi]]: the cells [lo] to [hi - 1] of [s], shared with [s]. *)
Definition subslice (s : span) (lo hi : Z) : result span :=
  if (0 <=? lo) && (lo <=? hi) && (hi <=? Z.of_nat (sp_len s))
  then Ok (mkSpan (sp_base s + Z.to_nat lo) (Z.to_nat (hi - lo)))
  else Panic SliceBounds.

(** [getBrakeProb sc br w] for the slices [sc] and [br] of the memory [mem]:
    the first component is the memory when the call ends, the second the
    returned pair, a sub-slice of [sc] and the values of the fresh [z].
    [floats.Argsort] sorts the cells of [sc]; [br] is read after it, from
    the memory as the sort left it; [b] and [z] are fresh. *)
Definition getBrakeProb_mem (mem : list R) (sc br : span) (w : Z)
  : list R * result (span * list R) :=
  let '(sc', ii) := Argsort (view mem sc) in
  let mem' := write mem sc sc' in
  (mem',
   b <- mapM (index (view mem' br)) ii ;;
   z <- for_range w (wrap (len b - w)) (brake_step b w)
          (repeat 0 (sp_len sc)) ;;
   let z := map (fun x => x / IZR (wrap (2 * w))) z in
   s1 <- subslice sc w (wrap (Z.of_nat (sp_len sc) - w)) ;;
   s2 <- slice z w (wrap (len z - w)) ;;
   Ok (s1, s2)).


(** A slice of the memory. *)
Definition in_mem (mem : list R) (s : span) : Prop :=
  (sp_base s + sp_len s <= length mem)%nat.

(** ** cormat *)

(** The loop [for i := 0; i < p; i++ { s[i] = math.Sqrt(x[i*p+i]) }]. *)
Definition diag_sqrt (x : list R) (p : Z) : result (list R) :=
  for_range 0 p
    (fun i s => v <- index x (i * p + i)%Z ;; store s i (Sqrt v))
    (repeat 0 (Z.to_nat p)).

(** The body of the loop [for i, v := range x]; [/] and [%] on [int] round
    towards zero and panic on a zero divisor. *)
Definition cormat_step (x s : list R) (p : Z) (i : Z) (y : list R)
  : result (list R) :=
  v <- index x i ;;
  if (p =? 0)%Z then Panic DivideByZero
  else
    s1 <- index s (Z.quot i p) ;;
    s2 <- index s (Z.rem i p) ;;
    store y i (v / (s1 * s2)).

Definition cormat (x : list R) (p : Z) : result (list R) :=
  if (p <? 0)%Z then Panic NegativeLen
  else
    s <- diag_sqrt x p ;;
    for_range 0 (len x) (cormat_step x s p) (repeat 0 (length x)).

(** ** standardize *)

(** The body of the loop over [j]: [u := vec[i] * vec[j] * mat[i*p+j]],
    added twice when [j != i]. *)
Definition quad_step (vec mat : list R) (p i j : Z) (v : R) : result R :=
  vi <- index vec i ;;
  vj <- index vec j ;;
  m <- index mat (i * p + j)%Z ;;
  let u := vi * vj * m in
  Ok (if negb (j =? i)%Z then v + 2 * u else v + u).

(** The value of [v] after the two loops. *)
Definition quad_loop (vec mat : list R) : result R :=
  let p := len vec in
  for_range 0 p
    (fun i v => for_range 0 (i + 1) (quad_step vec mat p i) v) 0.

(** [standardize vec mat]: the contents of [vec] when the call returns. *)
Definition standardize (vec mat : list R) : result (list R) :=
  v <- quad_loop vec mat ;;
  let v := Sqrt v in
  Ok (Scale (1 / v) vec).

(** ** standardizeCellMeans *)

(** [for i, a := range l { body }]. *)
Fixpoint for_each {A St : Type} (l : list A) (i : Z)
  (body : Z -> A -> St -> result St) (s : St) : result St :=
  match l with
  | [] => Ok s
  | a :: t => s' <- body i a s ;; for_each t (i + 1)%Z body s'
  end.

(** The body of the first loop over the cells: [v] and [w] are the two
    components of the state. *)
Definition center_step (cmc : list Z) (i : Z) (u : list R) (vw : list R * Z)
  : result (list R * Z) :=
  c <- index cmc i ;;
  if (0 <? c)%Z then
    v <- AddScaled (fst vw) (IZR c) u ;;
    Ok (v, wrap (snd vw + c))
  else Ok vw.

(** The part of [standardizeCellMeans] under [// Center]: the contents of
    [cmn] and of [v] when it ends. *)
Definition center (cmn : list (list R)) (cmc : list Z)
  : result (list (list R) * list R) :=
  u0 <- index cmn 0 ;;
  vw <- for_each cmn 0 (center_step cmc) (repeat 0 (length u0), 0%Z) ;;
  let v := Scale (1 / IZR (snd vw)) (fst vw) in
  cmn' <- mapM (fun u => Sub u v) cmn ;;
  Ok (cmn', v).

(** [for j, _ := range u { v[j] += c * u[j] * u[j] }]. *)
Definition add_squares (c : R) (u v : list R) : result (list R) :=
  for_each u 0
    (fun j _ v => uj <- index u j ;; vj <- index v j ;;
                  store v j (vj + c * uj * uj)) v.

(** The body of the second loop over the cells. *)
Definition scale_step (cmc : list Z) (i : Z) (u : list R) (vw : list R * Z)
  : result (list R * Z) :=
  c <- index cmc i ;;
  if (0 <? c)%Z then
    v <- add_squares (IZR c) u (fst vw) ;;
    Ok (v, wrap (snd vw + c))
  else Ok vw.

(** [for j, x := range u { u[j] = x / v[j] }]. *)
Definition div_row (v u : list R) : result (list R) :=
  for_each u 0 (fun j x u' => vj <- index v j ;; store u' j (x / vj)) u.

(** The part of [standardizeCellMeans] under [// Scale], from the contents
    of [cmn] and [v] that the first part leaves. *)
Definition rescale (cmn : list (list R)) (v : list R) (cmc : list Z)
  : result (list (list R)) :=
  let v := map (fun _ => 0) v in
  vw <- for_each cmn 0 (scale_step cmc) (v, 0%Z) ;;
  let v := Scale (1 / IZR (snd vw)) (fst vw) in
  let v := map Sqrt v in
  mapM (div_row v) cmn.

(** [standardizeCellMeans cmn cmc]: the contents of [cmn] when the call
    returns.  The rows of [cmn] are distinct slices. *)
Definition standardizeCellMeans (cmn : list (list R)) (cmc : list Z)
  : result (list (list R)) :=
  cv <- center cmn cmc ;;
  rescale (fst cv) (snd cv) cmc.

(** ** heatMap *)

Definition minCount : Z := 100.
Definition nrow : Z := 100.
Definition ncol : Z := 100.

(** The variables of the accumulation loop. *)
Record heat : Type := mkHeat {
  num : list R;
  denom : list Z;
  hit : Z;
  missed : Z
}.

(** [row[i] >= 0 && col[i] >= 0 && row[i] < nrow && col[i] < ncol], read
    from left to right: [col[i]] is read only when [row[i] >= 0]. *)
Definition in_bounds (row col : list Z) (i : Z) : result bool :=
  r <- index row i ;;
  if (0 <=? r)%Z then
    c <- index col i ;;
    Ok ((0 <=? c)%Z && (r <? nrow)%Z && (c <? ncol)%Z)
  else Ok false.

(** The body of the loop over the observations. *)
Definition heat_step (row col : list Z) (y : list R) (i : Z) (s : heat)
  : result heat :=
  ib <- in_bounds row col i ;;
  if ib then
    r <- index row i ;;
    c <- index col i ;;
    d <- index (denom s) (ncol * r + c)%Z ;;
    denom' <- store (denom s) (ncol * r + c)%Z (d + 1)%Z ;;
    yi <- index y i ;;
    num' <- (if feq yi 1 then
               r <- index row i ;;
               c <- index col i ;;
               n <- index (num s) (ncol * r + c)%Z ;;
               store (num s) (ncol * r + c)%Z (n + 1)
             else Ok (num s)) ;;
    Ok (mkHeat num' denom' (hit s + 1)%Z (missed s))
  else Ok (mkHeat (num s) (denom s) (hit s) (missed s + 1)%Z).

(** The loop [for i, _ := range x0] of [heatMap], from the zeroed arrays. *)
Definition heatMap_accum (row col : list Z) (y x0 : list R) : result heat :=
  for_range 0 (len x0) (heat_step row col y)
    (mkHeat (repeat 0 (Z.to_nat (nrow * ncol)))
            (repeat 0%Z (Z.to_nat (nrow * ncol))) 0%Z 0%Z).

(** The value of [rat[i]] from [num[i]] and [denom[i]]. *)
Definition rate (n : R) (d : Z) : R :=
  if (minCount <? d)%Z then Pow (n / IZR d) (1 / 10) else -1.

(** The loop [for i, _ := range num] of [heatMap]; [num] and [denom] have the
    same length. *)
Definition rates (num : list R) (denom : list Z) : list R :=
  map (fun nd => rate (fst nd) (snd nd)) (combine num denom).

(** [heatMap row col y x0 x1]: the first component is what the call prints,
    [missed] and [hit]; the second is the returned pair. *)
Definition heatMap (row col : list Z) (y x0 x1 : list R)
  : result ((Z * Z) * (list R * list Z)) :=
  s <- heatMap_accum row col y x0 ;;
  Ok ((missed s, hit s), (rates (num s) (denom s), denom s)).

(** ** covheat *)

(** The heat map data of a covariance matrix. *)
Record covheat : Type := mkCovheat {
  m : Z;
  data : list R;
  scale : bool
}.

Definition covheat_Dims (h : covheat) : Z * Z := (m h, m h).

(** The method [Z] of [covheat]; the flat indices are computed in [int],
    the quotient in exact arithmetic. *)
Definition covheat_Z (h : covheat) (r c : Z) : result R :=
  if scale h then
    a <- index (data h) (wrap (wrap (r * m h) + c)) ;;
    b <- index (data h) (wrap (wrap (r * m h) + r)) ;;
    d <- index (data h) (wrap (wrap (c * m h) + c)) ;;
    Ok (a / Sqrt (b * d))
  else index (data h) (wrap (wrap (r * m h) + c)).

Definition covheat_X (h : covheat) (c : Z) : R := IZR c.

Definition covheat_Y (h : covheat) (r : Z) : R := IZR (m h) - IZR r.

(** ** selectEq, selectGt *)

(** [a < b] on [float64], for values that are not NaN. *)
Definition flt (a b : R) : bool := if Rlt_dec a b then true else false.

(** The body of the loop of a filter function: the state is the mask [ma]
    and [anydrop]. *)
Definition select_step (drop : R -> bool) (i : Z) (v : R)
  (st : list bool * bool) : result (list bool * bool) :=
  if drop v then
    ma <- store (fst st) i false ;;
    Ok (ma, true)
  else Ok st.

(** The function that [selectEq w] returns, applied to the values [z] and
    the mask [ma]: the contents of [ma] when it returns, and its result. *)
Definition selectEq (w : R) (z : list R) (ma : list bool)
  : result (list bool * bool) :=
  for_each z 0 (select_step (fun v => negb (feq v w))) (ma, false).

(** The function that [selectGt w] returns, in the same way. *)
Definition selectGt (w : R) (z : list R) (ma : list bool)
  : result (list bool * bool) :=
  for_each z 0 (select_step (fun v => flt v w)) (ma, false).

(** ** fbrake *)

(** The body of the loop of [fbrake]: [b[i-1]] is read only when
    [b[i] == 1]. *)
Definition fbrake_step (b : list R) (i : Z) (y : list R) : result (list R) :=
  y <- store y i 0 ;;
  bi <- index b i ;;
  both <- (if feq bi 1 then bp <- index b (i - 1) ;; Ok (feq bp 1)
           else Ok false) ;;
  if both then store y i 1
  else
    bi <- index b i ;;
    if feq bi 1 then store y i 0 else Ok y.

(** [fbrake v z] for a map [v] whose values are slices of [float64]: the
    contents of [z] when the call returns. *)
Definition fbrake (v : string -> list R) (y : list R) : result (list R) :=
  let b := v "Brake"%string in
  y <- store y 0 0 ;;
  for_range 1 (len y) (fbrake_step b) y.

(** ** getPos *)

(** The loop of [getPos] over the names from position [k] on; the left
    injection is the value that [panic] is called with. *)
Fixpoint getPos_from (names : list string) (k : Z) (name : string)
  : string + Z :=
  match names with
  | [] => inl ("cannot find " ++ name)%string
  | v :: t => if String.eqb v name then inr k
              else getPos_from t (k + 1)%Z name
  end.

(** [getPos data name], for the names [data.Names()]. *)
Definition getPos (names : list string) (name : string) : string + Z :=
  getPos_from names 0 name.

(** ** getCells *)

(** [math.Floor]. *)
Definition Floor (x : R) : R := IZR (Int_part x).

(** [int(f)]: the integer part of [f] towards zero.  For a value outside
    [int] Go leaves the result to the implementation; it is the wrapped
    value here. *)
Definition to_int (f : R) : Z :=
  wrap (if Rle_dec 0 f then Int_part f else (- Int_part (- f))%Z).

(** The body of the loop of [getCells]; [70*x0[i] + 50] and
    [15*x1[i] + 50] are the exact values, which Go rounds. *)
Definition cells_step (x0 x1 : list R) (i : Z) (rc : list Z * list Z)
  : result (list Z * list Z) :=
  a <- index x0 i ;;
  row <- store (fst rc) i (to_int (Floor (70 * a + 50))) ;;
  b <- index x1 i ;;
  col <- store (snd rc) i (to_int (Floor (15 * b + 50))) ;;
  Ok (row, col).

Definition getCells (x0 x1 : list R) : result (list Z * list Z) :=
  for_range 0 (len x0) (cells_step x0 x1)
    (repeat 0%Z (length x0), repeat 0%Z (length x1)).

(** ** plotlines *)

(** The function [gxy] of [plotlines], with the flag [scale] of the call:
    the points of one line, in exact arithmetic. *)
Definition gxy (scale : bool) (x : list R) : list (R * R) :=
  let s := if scale
           then Sqrt (fold_left (fun s v => s + v * v) x 0)
           else 1 in
  map (fun iy => (IZR (fst iy), snd iy / s))
      (combine (indices (length x) 0%Z) x).

(** ** The vocabulary of the properties *)

Definition sumZ (l : list Z) : Z := fold_right Z.add 0%Z l.

Definition sumR (l : list R) : R := fold_right Rplus 0 l.

(** The number of [i < n] with [f i]. *)
Fixpoint count_if (f : nat -> bool) (n : nat) : Z :=
  match n with
  | O => 0%Z
  | S n' => (count_if f n' + if f n' then 1 else 0)%Z
  end.

(** The cell [(r, c)] lies in the grid. *)
Definition in_grid (r c : Z) : bool :=
  (0 <=? r)%Z && (r <? nrow)%Z && (0 <=? c)%Z && (c <? ncol)%Z.

(** Observation [i] is in bounds. *)
Definition obs_in (row col : list Z) (i : nat) : bool :=
  in_grid (nth i row 0%Z) (nth i col 0%Z).

(** Observation [i] is in bounds and its outcome is 1. *)
Definition obs_pos (row col : list Z) (y : list R) (i : nat) : bool :=
  obs_in row col i && feq (nth i y 0) 1.

(** The index of the cell of observation [i]. *)
Definition obs_cell (row col : list Z) (i : nat) : Z :=
  (ncol * nth i row 0 + nth i col 0)%Z.

(** The parallel arrays of [heatMap] have one entry per observation. *)
Definition aligned (row col : list Z) (y x0 : list R) : Prop :=
  length row = length x0 /\ length col = length x0 /\ length y = length x0.

(** The number of cells of the grid. *)
Definition ncells : nat := Z.to_nat (nrow * ncol).

(** Observation [i] is in bounds and falls into cell [q]. *)
Definition obs_in_cell (row col : list Z) (q : nat) (i : nat) : bool :=
  obs_in row col i && (obs_cell row col i =? Z.of_nat q)%Z.

(** Observation [i] is in bounds, falls into cell [q] and has outcome 1. *)
Definition obs_pos_cell (row col : list Z) (y : list R) (q : nat) (i : nat)
  : bool :=
  obs_pos row col y i && (obs_cell row col i =? Z.of_nat q)%Z.

(** What the variables of the accumulation loop hold after [j] rounds. *)
Definition heat_inv (row col : list Z) (y : list R) (j : nat) (s : heat)
  : Prop :=
  length (num s) = ncells /\
  length (denom s) = ncells /\
  hit s = count_if (obs_in row col) j /\
  (hit s + missed s = Z.of_nat j)%Z /\
  sumZ (denom s) = hit s /\
  sumR (num s) = IZR (count_if (obs_pos row col y) j) /\
  (forall q, (q < ncells)%nat ->
             nth q (denom s) 0%Z = count_if (obs_in_cell row col q) j) /\
  (forall q, (q < ncells)%nat ->
             nth q (num s) 0 = IZR (count_if (obs_pos_cell row col y q) j)).

(** The sum of [f i] over [i < n]. *)
Fixpoint sum_to (n : nat) (f : nat -> R) : R :=
  match n with
  | O => 0
  | S n' => sum_to n' f + f n'
  end.

(** Entry [(i, j)] of the flattened matrix [m] with [p] columns. *)
Definition entry (m : list R) (p i j : nat) : R := nth (i * p + j) m 0.

Definition symmetric (m : list R) (p : nat) : Prop :=
  forall i j, (i < p)%nat -> (j < p)%nat -> entry m p i j = entry m p j i.

(** The quadratic form of the [p]-by-[p] matrix [m] at the vector [v]: the
    sum over [i, j < p] of [v i * v j * m[i*p+j]]. *)
Definition quad (p : nat) (v : nat -> R) (m : list R) : R :=
  sum_to p (fun i => sum_to p (fun j => v i * v j * entry m p i j)).

(** The quadratic form of [mat] at the slice [vec]. *)
Definition qform (vec mat : list R) : R :=
  quad (length vec) (fun i => nth i vec 0) mat.


(** The sum that [standardize] computes: the lower triangle of [mat], the
    terms below the diagonal counted twice. *)
Definition lform (vec mat : list R) : R :=
  let p := length vec in
  sum_to p (fun i =>
    sum_to i (fun j => 2 * (nth i vec 0 * nth j vec 0 * entry mat p i j))
    + nth i vec 0 * nth i vec 0 * entry mat p i i).

(** Coordinate [k] of the vector of cell [q]. *)
Definition cell (cmn : list (list R)) (q k : nat) : R :=
  nth k (nth q cmn []) 0.

(** The weight of cell [q]: its count when the cell is populated, 0
    otherwise. *)
Definition weight (cmc : list Z) (q : nat) : Z :=
  if (0 <? nth q cmc 0)%Z then nth q cmc 0%Z else 0%Z.

(** The sum of the counts of the populated cells among the first [n]. *)
Fixpoint total_count (cmc : list Z) (n : nat) : Z :=
  match n with
  | O => 0%Z
  | S n' => (total_count cmc n' + weight cmc n')%Z
  end.

(** The count-weighted sum of [f] over the populated cells among the first
    [n]. *)
Definition wsum (cmc : list Z) (n : nat) (f : nat -> R) : R :=
  sum_to n (fun q => IZR (weight cmc q) * f q).

(** The count-weighted mean of coordinate [k] over the populated cells. *)
Definition wmean (cmn : list (list R)) (cmc : list Z) (k : nat) : R :=
  wsum cmc (length cmn) (fun q => cell cmn q k)
  / IZR (total_count cmc (length cmn)).

(** The count-weighted mean of the square of coordinate [k] over the
    populated cells. *)
Definition wvar (cmn : list (list R)) (cmc : list Z) (k : nat) : R :=
  wsum cmc (length cmn) (fun q => cell cmn q k * cell cmn q k)
  / IZR (total_count cmc (length cmn)).

(** The count-weighted variance of coordinate [k] of the centered means. *)
Definition cvar (cmn : list (list R)) (cmc : list Z) (k : nat) : R :=
  wsum cmc (length cmn)
    (fun q => (cell cmn q k - wmean cmn cmc k)
              * (cell cmn q k - wmean cmn cmc k))
  / IZR (total_count cmc (length cmn)).

(** The arguments of [standardizeCellMeans]: at least one cell, vectors of
    one length [K], one count per cell. *)
Definition cells_ok (cmn : list (list R)) (cmc : list Z) (K : nat) : Prop :=
  cmn <> [] /\ Forall (fun u => length u = K) cmn /\ length cmc = length cmn.

(** The outcomes in the order of the sorted scores: [b] of [getBrakeProb]. *)
Definition reordered (sc br : list R) : list R :=
  map (fun i => nth (Z.to_nat i) br 0) (snd (Argsort sc)).

(** The number of rounds [i = w + t], [t < n], of the loop over [i] of
    [getBrakeProb] with [b[i] == 1] whose window [[t, t + 2w)] holds [j]. *)
Definition window_count (b : list R) (w n j : nat) : Z :=
  count_if (fun t => feq (nth (w + t) b 0) 1
                     && (Nat.leb t j && Nat.ltb j (t + 2 * w))) n.

(** The mask [ma] with the first [length z] entries cleared where [keep]
    is false on the value of [z] at that index. *)
Fixpoint masked (keep : R -> bool) (z : list R) (ma : list bool)
  : list bool :=
  match z, ma with
  | v :: z', b :: ma' => (b && keep v) :: masked keep z' ma'
  | _, _ => ma
  end.

(** Entry [i] of [fbrake]'s output for the brake signal [b]: 1 at a sample
    that brakes and whose predecessor brakes. *)
Definition brake_repeat (b : list R) (i : nat) : bool :=
  Nat.ltb 0 i && feq (nth i b 0) 1 && feq (nth (i - 1) b 0) 1.

(** The box of covariate values that [getCells] sends to the grid. *)
Definition in_box (a b : R) : bool :=
  fle (-5 / 7) a && flt a (5 / 7) && fle (-10 / 3) b && flt b (10 / 3).

(** A [float64] whose conversion to [int] is the value Go defines. *)
Definition fits_int (r : R) : Prop :=
  -9223372036854775808 <= r < 9223372036854775808.

(** * Properties *)

(** ** Comparisons of reals *)

Lemma feq_true (a b : R) : a = b -> feq a b = true.
Proof. intros H. unfold feq. destruct (Req_dec_T a b); [reflexivity | contradiction]. Qed.

Lemma feq_false (a b : R) : a <> b -> feq a b = false.
Proof. intros H. unfold feq. destruct (Req_dec_T a b); [contradiction | reflexivity]. Qed.

Lemma fle_true (a b : R) : a <= b -> fle a b = true.
Proof. intros H. unfold fle. destruct (Rle_dec a b); [reflexivity | contradiction]. Qed.

Lemma fle_false (a b : R) : b < a -> fle a b = false.
Proof. intros H. unfold fle. destruct (Rle_dec a b); [lra | reflexivity]. Qed.

(** Decides the comparisons of numerals that stand in the goal. *)
Ltac fcmp :=
  repeat match goal with
  | |- context [feq ?a ?b] =>
      first [ rewrite (feq_true a b) by lra | rewrite (feq_false a b) by lra ]
  | |- context [fle ?a ?b] =>
      first [ rewrite (fle_true a b) by lra | rewrite (fle_false a b) by lra ]
  end.

Lemma wrap_small (z : Z) : is_int z -> wrap z = z.
Proof.
  unfold is_int, wrap. intros H.
  rewrite Z.mod_small by lia. lia.
Qed.

(** Evaluates [wrap] at the numerals that stand in the goal. *)
Ltac wrap_eval :=
  repeat match goal with
  | |- context [wrap ?z] =>
      let v := eval vm_compute in (wrap z) in
      change (wrap z) with v
  end.

(** Runs a model on numerals. *)
Ltac run_go :=
  repeat first [ progress simpl | progress fcmp | progress wrap_eval
               | progress unfold for_range, len, brake_step, bump_window ].

(** ** Slices and loops *)

Lemma bind_Ok {A B : Type} (r : result A) (k : A -> result B) (b : B) :
  bind r k = Ok b -> exists a, r = Ok a /\ k a = Ok b.
Proof. destruct r as [a | e]; simpl; [eauto | discriminate]. Qed.

Lemma index_nth {A : Type} (l : list A) (i : Z) (a : A) :
  index l i = Ok a ->
  (0 <= i)%Z /\ (Z.to_nat i < length l)%nat /\ forall d, nth (Z.to_nat i) l d = a.
Proof.
  unfold index. destruct (Z.ltb_spec i 0); [discriminate |].
  destruct (nth_error l (Z.to_nat i)) eqn:E; [| discriminate].
  intros [= <-]. split; [assumption |]. split.
  - apply nth_error_Some. congruence.
  - intros d. now apply nth_error_nth.
Qed.

Lemma index_of_nat {A : Type} (l : list A) (n : nat) (d : A) :
  (n < length l)%nat -> index l (Z.of_nat n) = Ok (nth n l d).
Proof.
  intros H. unfold index. destruct (Z.ltb_spec (Z.of_nat n) 0); [lia |].
  rewrite Nat2Z.id. destruct (nth_error l n) eqn:E.
  - now rewrite (nth_error_nth _ _ d E).
  - apply nth_error_None in E. lia.
Qed.

Lemma store_Ok {A : Type} (l l' : list A) (i : Z) (a : A) :
  store l i a = Ok l' ->
  (0 <= i)%Z /\ (Z.to_nat i < length l)%nat /\ l' = update l (Z.to_nat i) a.
Proof.
  unfold store, len. destruct (Z.ltb_spec i 0); [discriminate |].
  destruct (Z.ltb_spec i (Z.of_nat (length l))); [| discriminate].
  intros [= <-]. repeat split; [assumption | lia].
Qed.

Lemma store_in_range {A : Type} (l : list A) (i : Z) (a : A) :
  (0 <= i < len l)%Z -> store l i a = Ok (update l (Z.to_nat i) a).
Proof.
  unfold store. intros H.
  destruct (Z.ltb_spec i 0); [lia |].
  destruct (Z.ltb_spec i (len l)); [reflexivity | lia].
Qed.

Lemma update_length {A : Type} (l : list A) (n : nat) (a : A) :
  length (update l n a) = length l.
Proof.
  revert n. induction l as [| h t IH]; intros [| n]; simpl; auto.
Qed.

Lemma nth_update_same {A : Type} (l : list A) (n : nat) (a d : A) :
  (n < length l)%nat -> nth n (update l n a) d = a.
Proof.
  revert n. induction l as [| h t IH]; intros [| n]; simpl; intros H;
    try lia; auto. apply IH. lia.
Qed.

Lemma nth_update_other {A : Type} (l : list A) (n m : nat) (a d : A) :
  n <> m -> nth m (update l n a) d = nth m l d.
Proof.
  revert n m. induction l as [| h t IH]; intros [| n] [| m]; simpl; intros H;
    try congruence; auto.
Qed.

Lemma sumZ_update (l : list Z) (n : nat) (a : Z) :
  (n < length l)%nat -> sumZ (update l n a) = (sumZ l - nth n l 0 + a)%Z.
Proof.
  revert n. induction l as [| h t IH]; intros [| n]; simpl; intros H; try lia.
  rewrite IH by lia. lia.
Qed.

Lemma sumR_update (l : list R) (n : nat) (a : R) :
  (n < length l)%nat -> sumR (update l n a) = sumR l - nth n l 0 + a.
Proof.
  revert n. induction l as [| h t IH]; intros [| n]; simpl; intros H; try lia.
  - lra.
  - rewrite IH by lia. lra.
Qed.

Lemma sumZ_repeat_0 (n : nat) : sumZ (repeat 0%Z n) = 0%Z.
Proof. induction n; simpl; auto. Qed.

Lemma sumR_repeat_0 (n : nat) : sumR (repeat 0 n) = 0.
Proof. induction n; simpl; [reflexivity | lra]. Qed.

Lemma nth_repeat_0 {A : Type} (a : A) (n m : nat) : nth m (repeat a n) a = a.
Proof. revert m. induction n; intros [| m]; simpl; auto. Qed.

(** A property that every round of a loop keeps holds when the loop ends. *)
Lemma for_loop_inv {St : Type} (P : nat -> St -> Prop)
  (body : Z -> St -> result St) (n : nat) :
  forall (j : nat) (s s' : St),
    P j s ->
    (forall k t t', (j <= k < j + n)%nat -> P k t ->
                    body (Z.of_nat k) t = Ok t' -> P (S k) t') ->
    for_loop n (Z.of_nat j) body s = Ok s' -> P (j + n)%nat s'.
Proof.
  induction n as [| n IH]; intros j s s' HP Hstep; simpl.
  - intros [= <-]. now rewrite Nat.add_0_r.
  - intros H. apply bind_Ok in H as [t [Hb Hl]].
    replace (Z.of_nat j + 1)%Z with (Z.of_nat (S j)) in Hl by lia.
    replace (j + S n)%nat with (S j + n)%nat by lia.
    apply (IH (S j) t s'); [| | exact Hl].
    + apply (Hstep j s t); [lia | assumption | assumption].
    + intros k u u' Hk. apply Hstep. lia.
Qed.

(** A loop whose rounds all return returns. *)
Lemma for_loop_total {St : Type} (P : nat -> St -> Prop)
  (body : Z -> St -> result St) (n : nat) :
  forall (j : nat) (s : St),
    P j s ->
    (forall k t, (j <= k < j + n)%nat -> P k t ->
                 exists t', body (Z.of_nat k) t = Ok t' /\ P (S k) t') ->
    exists s', for_loop n (Z.of_nat j) body s = Ok s' /\ P (j + n)%nat s'.
Proof.
  induction n as [| n IH]; intros j s HP Hstep; simpl.
  - exists s. rewrite Nat.add_0_r. auto.
  - destruct (Hstep j s) as [t [Hb Ht]]; [lia | assumption |].
    rewrite Hb. simpl.
    replace (Z.of_nat j + 1)%Z with (Z.of_nat (S j)) by lia.
    replace (j + S n)%nat with (S j + n)%nat by lia.
    apply (IH (S j) t Ht).
    intros k u Hk. apply Hstep. lia.
Qed.

Lemma count_if_nonneg (f : nat -> bool) (n : nat) : (0 <= count_if f n)%Z.
Proof. induction n; simpl; [lia | destruct (f n); lia]. Qed.

Lemma count_if_le (f g : nat -> bool) (n : nat) :
  (forall i, f i = true -> g i = true) -> (count_if f n <= count_if g n)%Z.
Proof.
  intros H. induction n; simpl; [lia |].
  destruct (f n) eqn:E; [rewrite (H n E); lia | destruct (g n); lia].
Qed.

Lemma count_if_ext (f g : nat -> bool) (n : nat) :
  (forall i, (i < n)%nat -> f i = g i) -> count_if f n = count_if g n.
Proof.
  intros H. induction n as [| n IH]; simpl; [reflexivity |].
  rewrite IH by (intros; apply H; lia). rewrite H by lia. reflexivity.
Qed.

Lemma nth_repeat_lt {A : Type} (a d : A) (n i : nat) :
  (i < n)%nat -> nth i (repeat a n) d = a.
Proof.
  revert i. induction n as [| n IH]; intros [| i] H; simpl; try lia; auto.
  apply IH. lia.
Qed.

(** ** Argsort *)

Lemma insert_key_perm (x : R * Z) (l : list (R * Z)) :
  Permutation (insert_key x l) (x :: l).
Proof.
  induction l as [| y t IH]; simpl.
  - apply Permutation_refl.
  - destruct (fle (fst x) (fst y)).
    + apply Permutation_refl.
    + eapply perm_trans; [apply perm_skip, IH | apply perm_swap].
Qed.

Lemma sort_keys_perm (l : list (R * Z)) : Permutation (sort_keys l) l.
Proof.
  induction l as [| x t IH]; simpl.
  - apply perm_nil.
  - eapply perm_trans; [apply insert_key_perm | apply perm_skip, IH].
Qed.

Lemma insert_key_hd (x : R * Z) (l : list (R * Z)) (a : R) :
  a <= fst x -> HdRel Rle a (map fst l) -> HdRel Rle a (map fst (insert_key x l)).
Proof.
  intros Hx Hl. destruct l as [| y t]; simpl.
  - constructor. exact Hx.
  - destruct (fle (fst x) (fst y)); simpl.
    + constructor. exact Hx.
    + inversion Hl; subst. constructor. assumption.
Qed.

Lemma insert_key_sorted (x : R * Z) (l : list (R * Z)) :
  Sorted Rle (map fst l) -> Sorted Rle (map fst (insert_key x l)).
Proof.
  induction l as [| y t IH]; simpl; intros Hs.
  - repeat constructor.
  - unfold fle. destruct (Rle_dec (fst x) (fst y)) as [Hle | Hgt]; simpl.
    + constructor; [exact Hs | constructor; exact Hle].
    + inversion Hs; subst. constructor.
      * apply IH. assumption.
      * apply insert_key_hd; [lra | assumption].
Qed.

Lemma sort_keys_sorted (l : list (R * Z)) : Sorted Rle (map fst (sort_keys l)).
Proof.
  induction l as [| x t IH]; simpl.
  - constructor.
  - apply insert_key_sorted, IH.
Qed.

Lemma combine_indices_fst (l : list R) (i : Z) :
  map fst (combine l (indices (length l) i)) = l.
Proof.
  revert i. induction l as [| x t IH]; intros i; simpl; [reflexivity |].
  now rewrite IH.
Qed.

Lemma combine_indices_snd (l : list R) (i : Z) :
  map snd (combine l (indices (length l) i)) = indices (length l) i.
Proof.
  revert i. induction l as [| x t IH]; intros i; simpl; [reflexivity |].
  now rewrite IH.
Qed.

Lemma indices_range (n : nat) (i : Z) :
  Forall (fun k => (i <= k < i + Z.of_nat n)%Z) (indices n i).
Proof.
  revert i. induction n as [| n IH]; intros i; simpl; constructor.
  - lia.
  - eapply Forall_impl; [| apply IH]. simpl. intros k Hk. lia.
Qed.

Lemma Argsort_perm (dst : list R) : Permutation dst (fst (Argsort dst)).
Proof.
  unfold Argsort; simpl.
  rewrite <- (combine_indices_fst dst 0) at 1.
  apply Permutation_map, Permutation_sym, sort_keys_perm.
Qed.

Lemma Argsort_sorted (dst : list R) : Sorted Rle (fst (Argsort dst)).
Proof. unfold Argsort; simpl. apply sort_keys_sorted. Qed.

Lemma Argsort_length (dst : list R) : length (fst (Argsort dst)) = length dst.
Proof. symmetry. apply Permutation_length, Argsort_perm. Qed.

Lemma Argsort_inds_length (dst : list R) : length (snd (Argsort dst)) = length dst.
Proof.
  unfold Argsort; simpl. rewrite length_map.
  rewrite (Permutation_length (sort_keys_perm _)).
  rewrite <- (length_map snd), combine_indices_snd.
  clear. generalize 0%Z. induction (length dst); intros; simpl; auto.
Qed.

Lemma Argsort_inds_range (dst : list R) :
  Forall (fun k => (0 <= k < len dst)%Z) (snd (Argsort dst)).
Proof.
  unfold Argsort; simpl.
  eapply Permutation_Forall.
  - apply Permutation_map, Permutation_sym, sort_keys_perm.
  - rewrite combine_indices_snd. apply (indices_range (length dst) 0).
Qed.



(** ** getBrakeProb *)

Lemma index_ok {A : Type} (l : list A) (i : Z) :
  (0 <= i < len l)%Z -> exists a, index l i = Ok a.
Proof.
  unfold index, len. intros H.
  destruct (Z.ltb_spec i 0); [lia |].
  destruct (nth_error l (Z.to_nat i)) eqn:E; [eauto |].
  apply nth_error_None in E. lia.
Qed.

Lemma mapM_index_ok {A : Type} (l : list A) (ii : list Z) :
  Forall (fun k => (0 <= k < len l)%Z) ii ->
  exists b, mapM (index l) ii = Ok b /\ length b = length ii.
Proof.
  induction 1 as [| k t Hk _ IH]; simpl.
  - exists []. split; reflexivity.
  - destruct (index_ok l k Hk) as [a ->]. destruct IH as [b [-> Hb]]. simpl.
    exists (a :: b). split; [reflexivity | simpl; now rewrite Hb].
Qed.

(** The reordered outcomes [b] exist and have the length of [sc] when [br]
    is as long as [sc]. *)
Lemma reorder_ok (sc br : list R) :
  length br = length sc ->
  exists b, mapM (index br) (snd (Argsort sc)) = Ok b /\ length b = length sc.
Proof.
  intros Hlen.
  destruct (mapM_index_ok br (snd (Argsort sc))) as [b [Hb Hl]].
  - unfold len. rewrite Hlen. apply Argsort_inds_range.
  - exists b. split; [exact Hb |]. now rewrite Hl, Argsort_inds_length.
Qed.

(** The reordered outcomes are outcomes. *)
Lemma mapM_index_Forall {A : Type} (P : A -> Prop) (l : list A) (ii : list Z) :
  Forall P l -> forall b, mapM (index l) ii = Ok b -> Forall P b.
Proof.
  intros Hl. induction ii as [| i t IH]; simpl; intros b H.
  - injection H as <-. constructor.
  - apply bind_Ok in H as [a [Ha H]].
    apply bind_Ok in H as [bs [Hbs H]]. injection H as <-.
    constructor; [| now apply IH].
    unfold index in Ha. destruct (i <? 0)%Z; [discriminate |].
    destruct (nth_error l (Z.to_nat i)) eqn:E; [| discriminate].
    injection Ha as <-.
    apply (proj1 (Forall_forall P l) Hl), (nth_error_In _ _ E).
Qed.

(** The loop over [j] adds 1 to the [2w] entries of [z] from [t] on. *)
Lemma bump_window_spec (t w : nat) (z : list R) :
  (t + 2 * w <= length z)%nat -> is_int (len z) ->
  exists z', bump_window (Z.of_nat t + Z.of_nat w) (Z.of_nat w) z = Ok z' /\
             length z' = length z /\
             forall j, nth j z' 0
                       = nth j z 0
                         + (if Nat.leb t j && Nat.ltb j (t + 2 * w) then 1 else 0).
Proof.
  intros Hlen Hint. unfold bump_window, for_range.
  unfold is_int, len in Hint.
  rewrite !wrap_small by (unfold is_int; lia).
  replace (Z.of_nat t + Z.of_nat w - Z.of_nat w)%Z with (Z.of_nat t) by lia.
  replace (Z.to_nat (Z.of_nat t + Z.of_nat w + Z.of_nat w - Z.of_nat t))
    with (2 * w)%nat by lia.
  destruct (for_loop_total
              (fun k z' => length z' = length z /\
                 forall j, nth j z' 0
                           = nth j z 0
                             + (if Nat.leb t j && Nat.ltb j k then 1 else 0))
              (fun j z => zj <- index z j ;; store z j (zj + 1))
              (2 * w) t z) as [z' [Hz' [Hl Hn]]].
  - split; [reflexivity |]. intros j.
    destruct (Nat.leb_spec t j), (Nat.ltb_spec j t); simpl; try lra; lia.
  - intros k u Hk [Hl Hn].
    rewrite (index_of_nat u k 0) by lia. cbn [bind].
    rewrite store_in_range by (unfold len; lia).
    rewrite Nat2Z.id. eexists. split; [reflexivity |].
    split; [now rewrite update_length |].
    intros j. destruct (Nat.eq_dec k j) as [<- | Hne].
    + rewrite nth_update_same by lia. rewrite Hn.
      destruct (Nat.leb_spec t k), (Nat.ltb_spec k k), (Nat.ltb_spec k (S k));
        simpl; try lra; lia.
    + rewrite nth_update_other by assumption. rewrite Hn.
      destruct (Nat.leb_spec t j), (Nat.ltb_spec j k), (Nat.ltb_spec j (S k));
        simpl; try lra; lia.
  - exists z'. split; [exact Hz' |]. split; [exact Hl | exact Hn].
Qed.

(** With every outcome 1, after the loop over [i] entry [j] of [z] is the
    number of rounds [i = w + t], [t < n], whose window [[t, t + 2w)] holds
    [j]. *)
Lemma brake_loop_ones (b : list R) (w n : nat) :
  Forall (fun x => x = 1) b -> (n + 2 * w <= length b)%nat ->
  is_int (len b) ->
  exists z, for_loop n (Z.of_nat w) (brake_step b (Z.of_nat w))
              (repeat 0 (length b)) = Ok z /\
            length z = length b /\
            forall j, nth j z 0
                      = IZR (count_if (fun t => Nat.leb t j
                                                && Nat.ltb j (t + 2 * w)) n).
Proof.
  intros Hb Hn Hint.
  destruct (for_loop_total
              (fun k z => length z = length b /\
                 forall j, nth j z 0
                   = IZR (count_if (fun t => Nat.leb t j
                                             && Nat.ltb j (t + 2 * w)) (k - w)))
              (brake_step b (Z.of_nat w)) n w (repeat 0 (length b)))
    as [z [Hz [Hl Hc]]].
  - split; [apply repeat_length |]. intros j.
    rewrite Nat.sub_diag. simpl. apply nth_repeat_0.
  - intros k z Hk [Hl Hc]. unfold brake_step.
    rewrite (index_of_nat b k 0) by lia. cbn [bind].
    assert (Hbk : nth k b 0 = 1).
    { apply (proj1 (Forall_nth _ b) Hb k 0). lia. }
    rewrite Hbk, (feq_true 1 1 eq_refl).
    destruct (bump_window_spec (k - w) w z) as [z' [Hz' [Hl' Hn']]];
      [lia | unfold len in *; now rewrite Hl |].
    replace (Z.of_nat (k - w) + Z.of_nat w)%Z with (Z.of_nat k) in Hz' by lia.
    exists z'. split; [exact Hz' |]. split; [congruence |].
    intros j. rewrite Hn', Hc.
    replace (S k - w)%nat with (S (k - w)) by lia.
    cbn [count_if]. rewrite plus_IZR.
    destruct (Nat.leb (k - w) j && Nat.ltb j (k - w + 2 * w)); reflexivity.
  - exists z. split; [exact Hz |]. split; [exact Hl |].
    intros j. rewrite Hc.
    replace (w + n - w)%nat with n by lia. reflexivity.
Qed.

Lemma slice_ok {A : Type} (l : list A) (lo hi : nat) :
  (lo <= hi)%nat -> (hi <= length l)%nat ->
  slice l (Z.of_nat lo) (Z.of_nat hi) = Ok (firstn (hi - lo) (skipn lo l)).
Proof.
  intros H1 H2. unfold slice, len.
  destruct (Z.leb_spec 0 (Z.of_nat lo)); [| lia].
  destruct (Z.leb_spec (Z.of_nat lo) (Z.of_nat hi)); [| lia].
  destruct (Z.leb_spec (Z.of_nat hi) (Z.of_nat (length l))); [| lia].
  cbn [andb]. rewrite Nat2Z.id.
  replace (Z.to_nat (Z.of_nat hi - Z.of_nat lo)) with (hi - lo)%nat by lia.
  reflexivity.
Qed.

Lemma count_if_from (f : nat -> bool) (a n : nat) :
  (forall t, f t = true -> (a <= t)%nat) ->
  (count_if f n <= Z.of_nat (n - a))%Z.
Proof.
  intros H. induction n as [| n IH]; cbn [count_if]; [lia |].
  destruct (f n) eqn:E; [apply H in E |]; lia.
Qed.

(** What [getBrakeProb] returns when every outcome is 1, for a valid [w]:
    entry [k] of the accumulator slice is the number of rounds [t < N - 2w]
    whose window [[t, t + 2w)] holds position [w + k], divided by [2w]. *)
Lemma getBrakeProb_ones (sc br : list R) (w : nat) :
  length br = length sc -> Forall (fun x => x = 1) br -> is_int (len sc) ->
  (1 <= w)%nat -> (2 * w < length sc)%nat ->
  exists s1 s2,
    snd (getBrakeProb sc br (Z.of_nat w)) = Ok (s1, s2) /\
    length s2 = (length sc - 2 * w)%nat /\
    forall k, (k < length sc - 2 * w)%nat ->
      nth k s2 0
      = IZR (count_if (fun t => Nat.leb t (w + k)
                                && Nat.ltb (w + k) (t + 2 * w))
               (length sc - 2 * w))
        / IZR (2 * Z.of_nat w).
Proof.
  intros Hbr Hones Hint Hw H2w. unfold getBrakeProb.
  destruct (Argsort sc) as [sc' ii] eqn:EA.
  assert (Hsc' : length sc' = length sc).
  { change sc' with (fst (sc', ii)). rewrite <- EA. apply Argsort_length. }
  destruct (reorder_ok sc br Hbr) as [b [Hb Hlb]].
  rewrite EA in Hb. cbn [snd fst] in Hb. cbn [snd fst]. rewrite Hb.
  cbn [bind].
  pose proof (mapM_index_Forall _ br ii Hones b Hb) as Hb1.
  unfold is_int, len in Hint.
  unfold len. rewrite Hlb, Hsc'.
  rewrite !wrap_small by (unfold is_int; lia).
  unfold for_range.
  replace (Z.to_nat (Z.of_nat (length sc) - Z.of_nat w - Z.of_nat w))
    with (length sc - 2 * w)%nat by lia.
  destruct (brake_loop_ones b w (length sc - 2 * w) Hb1) as [z [Hz [Hlz Hnz]]];
    [lia | unfold is_int, len; lia |].
  rewrite Hlb in Hz. rewrite Hz. cbn [bind].
  rewrite length_map, Hlz, Hlb.
  rewrite wrap_small by (unfold is_int; lia).
  replace (Z.of_nat (length sc) - Z.of_nat w)%Z
    with (Z.of_nat (length sc - w)) by lia.
  rewrite !slice_ok by (rewrite ?length_map; lia). cbn [bind].
  replace (length sc - w - w)%nat with (length sc - 2 * w)%nat by lia.
  eexists. eexists. split; [reflexivity |].
  split.
  - rewrite length_firstn, length_skipn, length_map. lia.
  - intros k Hk. rewrite nth_firstn.
    destruct (Nat.ltb_spec k (length sc - 2 * w)); [| lia].
    rewrite nth_skipn.
    rewrite (nth_indep _ 0 ((fun x => x / IZR (2 * Z.of_nat w)) 0))
      by (rewrite length_map; lia).
    rewrite (map_nth (fun x => x / IZR (2 * Z.of_nat w))), Hnz.
    reflexivity.
Qed.

(** X5: with every outcome 1 and a valid [w], the last entry of the returned
    accumulator slice is at most 1/2: its window reaches [w] positions past
    the last round of the loop over [i]. *)
Lemma getBrakeProb_ones_last (sc br : list R) (w : nat) :
  length br = length sc -> Forall (fun x => x = 1) br -> is_int (len sc) ->
  (1 <= w)%nat -> (2 * w < length sc)%nat ->
  exists s1 s2,
    snd (getBrakeProb sc br (Z.of_nat w)) = Ok (s1, s2) /\
    length s2 = (length sc - 2 * w)%nat /\
    nth (length s2 - 1) s2 0 <= 1 / 2.
Proof.
  intros Hbr Hones Hint Hw H2w.
  destruct (getBrakeProb_ones sc br w Hbr Hones Hint Hw H2w)
    as (s1 & s2 & Hs & Hl & Hn).
  exists s1, s2. split; [exact Hs |]. split; [exact Hl |].
  rewrite Hl, Hn by lia.
  set (c := count_if _ _).
  assert (Hc : (c <= Z.of_nat w)%Z).
  { unfold c.
    eapply Z.le_trans;
      [apply (count_if_from _ (length sc - 3 * w)) | lia].
    intros t Ht. apply andb_prop in Ht as [_ Ht].
    apply Nat.ltb_lt in Ht. lia. }
  assert (Hwpos : 0 < IZR (Z.of_nat w)) by (apply IZR_lt; lia).
  rewrite mult_IZR.
  apply (Rmult_le_reg_r (2 * IZR (Z.of_nat w))); [simpl; lra |].
  unfold Rdiv. rewrite Rmult_assoc, Rinv_l by (simpl; lra).
  apply IZR_le in Hc. simpl. lra.
Qed.

(** C1, at the input [sc = [0,1,2]], [br = [1,1,1]], [w = 1]: every outcome
    is 1 and [w] is valid, and the one entry of the returned accumulator
    slice is 1/2, not 1: the only round of the loop over [i] is [i = 1],
    which adds to [z[0]] and [z[1]], so that [z[1]] counts one observation
    where its window holds two. *)
Theorem getBrakeProb_ones_edge :
  snd (getBrakeProb [0; 1; 2] [1; 1; 1] 1) = Ok ([1], [1 / 2]).
Proof.
  unfold getBrakeProb, Argsort. run_go.
  repeat f_equal. lra.
Qed.

(** C3, as stated, fails: with [N = 2] and [w = 1] the trimmed range is
    empty, and the call returns two empty slices and no error. *)
Lemma getBrakeProb_empty_range_returns :
  snd (getBrakeProb [1; 2] [1; 1] 1) = Ok ([], []).
Proof. unfold getBrakeProb, Argsort. run_go. reflexivity. Qed.

(** C3, amended: [getBrakeProb] does not check [w] against the length [N].
    For [0 <= w] and [br] as long as [sc]: when [2w = N] it returns two empty
    slices, and when [2w > N] the loop over [i] does not run and the call
    panics at the slice expression [sc[w : len(sc)-w]] with the run-time's
    slice bounds error. *)
Theorem getBrakeProb_window_too_large (sc br : list R) (w : Z) :
  length br = length sc -> is_int (len sc) -> is_int w -> (0 <= w)%Z ->
  ((2 * w = len sc)%Z -> snd (getBrakeProb sc br w) = Ok ([], [])) /\
  ((2 * w > len sc)%Z -> snd (getBrakeProb sc br w) = Panic SliceBounds).
Proof.
  intros Hbr HN Hw H0.
  unfold getBrakeProb.
  destruct (Argsort sc) as [sc' ii] eqn:EA.
  assert (Hsc' : len sc' = len sc).
  { unfold len. f_equal. change sc' with (fst (sc', ii)). rewrite <- EA.
    apply Argsort_length. }
  destruct (reorder_ok sc br Hbr) as [b [Hb Hlb]].
  rewrite EA in Hb. cbn [snd fst] in Hb. cbn [snd fst]. rewrite Hb. cbn [bind].
  assert (Hb' : len b = len sc) by (unfold len; now rewrite Hlb).
  unfold is_int in HN, Hw.
  assert (Hwr : wrap (len sc - w) = (len sc - w)%Z)
    by (apply wrap_small; unfold is_int, len in *; lia).
  rewrite Hb', Hsc', Hwr.
  assert (Hloop : forall l0 : list R,
            (2 * w >= len sc)%Z ->
            for_range w (len sc - w) (brake_step b w) l0 = Ok l0).
  { intros l0 H2. unfold for_range.
    replace (Z.to_nat (len sc - w - w)) with O by lia. reflexivity. }
  split; intros H2; rewrite Hloop by lia; cbn [bind].
  - unfold slice. rewrite Hsc'.
    replace (len (map _ _)) with (len sc)
      by (unfold len; now rewrite length_map, repeat_length).
    rewrite Hwr.
    replace (len sc - w - w)%Z with 0%Z by lia.
    destruct (Z.leb_spec 0 w); [| lia].
    destruct (Z.leb_spec w (len sc - w)); [| lia].
    destruct (Z.leb_spec (len sc - w) (len sc)); [| lia].
    reflexivity.
  - unfold slice at 1.
    destruct (Z.leb_spec 0 w); [| lia].
    destruct (Z.leb_spec w (len sc - w)); [lia |].
    reflexivity.
Qed.

Lemma getBrakeProb_window_too_large_witness :
  ((2 * 1 = len [1; 2])%Z -> snd (getBrakeProb [1; 2] [1; 1] 1) = Ok ([], [])) /\
  ((2 * 1 > len [1; 2])%Z ->
   snd (getBrakeProb [1; 2] [1; 1] 1) = Panic SliceBounds).
Proof.
  apply (getBrakeProb_window_too_large [1; 2] [1; 1] 1).
  - reflexivity.
  - unfold is_int, len; simpl; lia.
  - unfold is_int; lia.
  - lia.
Defined.


(** ** heatMap *)

Lemma in_bounds_spec (row col : list Z) (j : nat) (ib : bool) :
  in_bounds row col (Z.of_nat j) = Ok ib ->
  ib = obs_in row col j /\ (j < length row)%nat /\
  (ib = true -> (j < length col)%nat).
Proof.
  unfold in_bounds, obs_in, in_grid. intros H.
  apply bind_Ok in H as [r [Hr H]].
  apply index_nth in Hr as [_ [Hlr Hr]]. rewrite Nat2Z.id in Hlr, Hr.
  rewrite (Hr 0%Z).
  destruct (Z.leb_spec 0 r).
  - apply bind_Ok in H as [c [Hc H]].
    apply index_nth in Hc as [_ [Hlc Hc]]. rewrite Nat2Z.id in Hlc, Hc.
    rewrite (Hc 0%Z). injection H as <-.
    split; [| auto].
    destruct (0 <=? c)%Z, (r <? nrow)%Z, (c <? ncol)%Z; reflexivity.
  - injection H as <-. simpl. split; [reflexivity |]. split; [assumption |].
    discriminate.
Qed.

Lemma in_bounds_total (row col : list Z) (j : nat) :
  (j < length row)%nat -> (j < length col)%nat ->
  exists ib, in_bounds row col (Z.of_nat j) = Ok ib.
Proof.
  intros Hr Hc. unfold in_bounds.
  rewrite (index_of_nat row j 0%Z Hr). simpl.
  destruct (0 <=? nth j row 0%Z)%Z; [| eauto].
  rewrite (index_of_nat col j 0%Z Hc). simpl. eauto.
Qed.

Lemma obs_in_cell_range (row col : list Z) (j : nat) :
  obs_in row col j = true ->
  (0 <= obs_cell row col j < Z.of_nat ncells)%Z.
Proof.
  unfold obs_in, in_grid, obs_cell, ncells, nrow, ncol.
  intros H. repeat (apply andb_prop in H as [H ?]).
  change (Z.of_nat (Z.to_nat (100 * 100))) with 10000%Z. lia.
Qed.

Lemma heat_inv_init (row col : list Z) (y : list R) :
  heat_inv row col y 0
    (mkHeat (repeat 0 (Z.to_nat (nrow * ncol)))
            (repeat 0%Z (Z.to_nat (nrow * ncol))) 0%Z 0%Z).
Proof.
  unfold heat_inv, ncells. cbn [num denom hit missed count_if].
  rewrite !repeat_length, sumZ_repeat_0, sumR_repeat_0.
  repeat split; try reflexivity.
  - intros q _. apply nth_repeat_0.
  - intros q _. apply nth_repeat_0.
Qed.

Lemma heat_step_inv (row col : list Z) (y : list R) (j : nat) (s s' : heat) :
  heat_inv row col y j s ->
  heat_step row col y (Z.of_nat j) s = Ok s' ->
  heat_inv row col y (S j) s'.
Proof.
  intros (Hln & Hld & Hhit & Hsum & Hsd & Hsn & Hd & Hn) H.
  unfold heat_step in H.
  apply bind_Ok in H as [ib [Hib H]].
  apply in_bounds_spec in Hib as [Eib [Hlr Hlc]].
  destruct ib.
  - (* in bounds *)
    symmetry in Eib.
    pose proof (obs_in_cell_range row col j Eib) as HQ.
    apply bind_Ok in H as [r [Hr H]].
    apply index_nth in Hr as [_ [_ Hr]]. rewrite Nat2Z.id in Hr.
    specialize (Hr 0%Z). subst r.
    apply bind_Ok in H as [c [Hc H]].
    apply index_nth in Hc as [_ [_ Hc]]. rewrite Nat2Z.id in Hc.
    specialize (Hc 0%Z). subst c.
    fold (obs_cell row col j) in H.
    set (Q := obs_cell row col j) in *.
    apply bind_Ok in H as [d [Ed H]].
    apply index_nth in Ed as [_ [HQd Ed]]. specialize (Ed 0%Z).
    apply bind_Ok in H as [denom' [Edenom H]].
    apply store_Ok in Edenom as [_ [_ Edenom]].
    apply bind_Ok in H as [yi [Ey H]].
    apply index_nth in Ey as [_ [_ Ey]]. rewrite Nat2Z.id in Ey.
    specialize (Ey 0).
    apply bind_Ok in H as [num' [Enum H]].
    injection H as <-.
    assert (Hqn : (Z.to_nat Q < ncells)%nat) by lia.
    assert (Hcell : forall q, (obs_cell row col j =? Z.of_nat q)%Z
                              = Nat.eqb (Z.to_nat Q) q).
    { intros q. fold Q.
      destruct (Z.eqb_spec Q (Z.of_nat q)), (Nat.eqb_spec (Z.to_nat Q) q);
        try reflexivity; lia. }
    assert (Hnum : length num' = ncells /\
                   sumR num' = IZR (count_if (obs_pos row col y) (S j)) /\
                   forall q, (q < ncells)%nat ->
                     nth q num' 0 = IZR (count_if (obs_pos_cell row col y q) (S j))).
    { assert (Epos : obs_pos row col y j = feq yi 1)
        by (unfold obs_pos; now rewrite Eib, Ey).
      assert (Eposc : forall q, obs_pos_cell row col y q j
                                = feq yi 1 && Nat.eqb (Z.to_nat Q) q)
        by (intros q; unfold obs_pos_cell; now rewrite Epos, Hcell).
      cbn [count_if]. rewrite Epos. setoid_rewrite Eposc. clear Epos Eposc.
      destruct (feq yi 1); cbn [andb].
      - apply bind_Ok in Enum as [r [Hr Enum]].
        apply bind_Ok in Enum as [c [Hc Enum]].
        apply index_nth in Hr as [_ [_ Hr]]. rewrite Nat2Z.id in Hr.
        apply index_nth in Hc as [_ [_ Hc]]. rewrite Nat2Z.id in Hc.
        rewrite <- (Hr 0%Z), <- (Hc 0%Z) in Enum.
        fold (obs_cell row col j) in Enum. fold Q in Enum.
        apply bind_Ok in Enum as [n [En Enum]].
        apply index_nth in En as [_ [HQn En]]. specialize (En 0).
        apply store_Ok in Enum as [_ [_ ->]].
        rewrite update_length, sumR_update, En, Hsn by assumption.
        split; [assumption |]. split; [rewrite plus_IZR; lra |].
        intros q Hq.
        destruct (Nat.eqb_spec (Z.to_nat Q) q) as [<- | Hne].
        + rewrite nth_update_same by assumption.
          rewrite <- En, (Hn _ Hqn), plus_IZR. reflexivity.
        + rewrite nth_update_other by assumption.
          rewrite (Hn _ Hq), Z.add_0_r. reflexivity.
      - injection Enum as <-. rewrite Z.add_0_r.
        split; [assumption |]. split; [assumption |].
        intros q Hq. rewrite Z.add_0_r. auto. }
    destruct Hnum as (Hn1 & Hn2 & Hn3).
    assert (Ein : forall q, obs_in_cell row col q j = Nat.eqb (Z.to_nat Q) q)
      by (intros q; unfold obs_in_cell; now rewrite Eib, Hcell).
    unfold heat_inv. cbn [num denom hit missed count_if].
    rewrite Eib. setoid_rewrite Ein. subst denom'.
    rewrite update_length, sumZ_update, Ed by assumption.
    repeat split; try assumption; try lia.
    intros q Hq.
    destruct (Nat.eqb_spec (Z.to_nat Q) q) as [<- | Hne].
    + rewrite nth_update_same by assumption. rewrite <- Ed, (Hd _ Hqn). reflexivity.
    + rewrite nth_update_other by assumption. rewrite (Hd _ Hq). lia.
  - (* out of bounds *)
    injection H as <-. symmetry in Eib.
    assert (Epos : obs_pos row col y j = false)
      by (unfold obs_pos; now rewrite Eib).
    assert (Ein : forall q, obs_in_cell row col q j = false)
      by (intros q; unfold obs_in_cell; now rewrite Eib).
    assert (Eposc : forall q, obs_pos_cell row col y q j = false)
      by (intros q; unfold obs_pos_cell; now rewrite Epos).
    unfold heat_inv. cbn [num denom hit missed count_if].
    rewrite Eib, Epos. setoid_rewrite Ein. setoid_rewrite Eposc.
    repeat split; try assumption; try lia.
    + rewrite Z.add_0_r. assumption.
    + intros q Hq. rewrite Z.add_0_r. auto.
    + intros q Hq. rewrite Z.add_0_r. auto.
Qed.

Lemma heat_step_total (row col : list Z) (y : list R) (j : nat) (s : heat) :
  heat_inv row col y j s ->
  (j < length row)%nat -> (j < length col)%nat -> (j < length y)%nat ->
  exists s', heat_step row col y (Z.of_nat j) s = Ok s'.
Proof.
  intros (Hln & Hld & _) Hr Hc Hy.
  destruct (in_bounds_total row col j Hr Hc) as [ib Hib].
  unfold heat_step. rewrite Hib. cbn [bind].
  apply in_bounds_spec in Hib as [Eib _].
  destruct ib; [| eauto]. symmetry in Eib.
  pose proof (obs_in_cell_range row col j Eib) as HQ.
  rewrite (index_of_nat row j 0%Z Hr), (index_of_nat col j 0%Z Hc).
  cbn [bind]. fold (obs_cell row col j).
  set (Q := obs_cell row col j) in *.
  assert (HQd : (0 <= Q < len (denom s))%Z) by (unfold len; lia).
  assert (HQn : (0 <= Q < len (num s))%Z) by (unfold len; lia).
  destruct (index_ok _ _ HQd) as [d ->]. cbn [bind].
  rewrite (store_in_range _ _ _ HQd). cbn [bind].
  rewrite (index_of_nat y j 0 Hy). cbn [bind].
  destruct (feq (nth j y 0) 1).
  - destruct (index_ok _ _ HQn) as [n ->]. cbn [bind].
    rewrite (store_in_range _ _ _ HQn). cbn [bind]. eauto.
  - cbn [bind]. eauto.
Qed.

(** The state in which the accumulation loop ends. *)
Lemma heatMap_accum_inv (row col : list Z) (y x0 : list R) (s : heat) :
  heatMap_accum row col y x0 = Ok s -> heat_inv row col y (length x0) s.
Proof.
  unfold heatMap_accum, for_range, len. rewrite Z.sub_0_r, Nat2Z.id.
  intros H.
  apply (for_loop_inv (heat_inv row col y) (heat_step row col y)
           (length x0) 0 _ s (heat_inv_init row col y)); [| exact H].
  intros k t t' _ Ht Hstep. now apply (heat_step_inv row col y k t t').
Qed.

(** The accumulation loop returns on aligned arrays. *)
Lemma heatMap_accum_total (row col : list Z) (y x0 : list R) :
  aligned row col y x0 -> exists s, heatMap_accum row col y x0 = Ok s.
Proof.
  intros (Hr & Hc & Hy).
  unfold heatMap_accum, for_range, len. rewrite Z.sub_0_r, Nat2Z.id.
  destruct (for_loop_total (heat_inv row col y) (heat_step row col y)
              (length x0) 0 _ (heat_inv_init row col y)) as [s [Hs _]];
    [| exists s; exact Hs].
  intros k t Hk Ht.
  destruct (heat_step_total row col y k t Ht) as [t' Ht']; try lia.
  exists t'. split; [exact Ht' |]. now apply (heat_step_inv row col y k t t').
Qed.

Lemma rates_length (n : list R) (d : list Z) :
  length n = length d -> length (rates n d) = length n.
Proof.
  intros H. unfold rates. rewrite length_map, length_combine. lia.
Qed.

Lemma rates_nth (n : list R) (d : list Z) (q : nat) :
  (q < length n)%nat -> (q < length d)%nat ->
  nth q (rates n d) 0 = rate (nth q n 0) (nth q d 0%Z).
Proof.
  revert d q. induction n as [| x n IH]; intros [| z d] [| q]; simpl;
    intros Hn Hd; try lia; [reflexivity |].
  apply IH; lia.
Qed.

(** ** The power transform *)

Lemma Pow_tenth_0 : Pow 0 (1 / 10) = 0.
Proof. unfold Pow. fcmp. reflexivity. Qed.

Lemma Pow_tenth_pos (x : R) : 0 < x -> Pow x (1 / 10) = Rpower x (1 / 10).
Proof. intros H. unfold Pow. fcmp. reflexivity. Qed.

(** [Pow x 0.1] is the non-negative tenth root of [x]. *)
Lemma Pow_tenth_root (x : R) :
  0 <= x -> 0 <= Pow x (1 / 10) /\ Pow x (1 / 10) ^ 10 = x.
Proof.
  intros [Hx | <-].
  - rewrite Pow_tenth_pos by assumption. split.
    + left. apply exp_pos.
    + rewrite <- Rpower_pow by apply exp_pos.
      rewrite Rpower_mult.
      replace (1 / 10 * INR 10) with 1 by (simpl; lra).
      now apply Rpower_1.
  - rewrite Pow_tenth_0. split; [lra | simpl; lra].
Qed.

Lemma Pow_tenth_unit (x : R) : 0 <= x <= 1 -> 0 <= Pow x (1 / 10) <= 1.
Proof.
  intros [[Hx | <-] H1].
  - rewrite Pow_tenth_pos by assumption. split.
    + left. apply exp_pos.
    + unfold Rpower.
      destruct H1 as [H1 | ->].
      * assert (Hln : ln x < 0) by (rewrite <- ln_1; now apply ln_increasing).
        assert (Hexp : exp (1 / 10 * ln x) < exp 0)
          by (apply exp_increasing; lra).
        rewrite exp_0 in Hexp. lra.
      * rewrite ln_1, Rmult_0_r, exp_0. lra.
  - rewrite Pow_tenth_0. lra.
Qed.

Lemma heatMap_returns (row col : list Z) (y x0 x1 : list R) (s : heat) :
  heatMap_accum row col y x0 = Ok s ->
  heatMap row col y x0 x1
  = Ok ((missed s, hit s), (rates (num s) (denom s), denom s)).
Proof. intros H. unfold heatMap. now rewrite H. Qed.

(** [heatMap] returns on aligned arrays. *)
Lemma heatMap_total (row col : list Z) (y x0 x1 : list R) :
  aligned row col y x0 -> exists out, heatMap row col y x0 x1 = Ok out.
Proof.
  intros Ha. destruct (heatMap_accum_total row col y x0 Ha) as [s Hs].
  rewrite (heatMap_returns row col y x0 x1 s Hs). eauto.
Qed.

(** C5: on aligned arrays [heatMap] returns, and whenever its accumulation
    loop ends with the arrays [num] and [denom], the returned [rate] array
    has one entry per cell, equal to [(num[q]/denom[q])^0.1] (the
    non-negative tenth root of the ratio) where [denom[q] > minCount] and to
    [-1] in every other cell, the cells with [denom[q] = minCount] among
    them. *)
Theorem heatMap_rate_threshold (row col : list Z) (y x0 x1 : list R) :
  (aligned row col y x0 -> exists out, heatMap row col y x0 x1 = Ok out) /\
  (forall s pr rat den,
     heatMap_accum row col y x0 = Ok s ->
     heatMap row col y x0 x1 = Ok (pr, (rat, den)) ->
     den = denom s /\ length rat = ncells /\ length den = ncells /\
     forall q, (q < ncells)%nat ->
       ((minCount < nth q den 0)%Z ->
        nth q rat 0 = Pow (nth q (num s) 0 / IZR (nth q den 0%Z)) (1 / 10) /\
        0 <= nth q rat 0 /\
        nth q rat 0 ^ 10 = nth q (num s) 0 / IZR (nth q den 0%Z)) /\
       ((nth q den 0 <= minCount)%Z -> nth q rat 0 = -1) /\
       (nth q den 0%Z = minCount -> nth q rat 0 = -1)).
Proof.
  split; [apply heatMap_total |].
  intros s pr rat den Hs Hout.
  rewrite (heatMap_returns row col y x0 x1 s Hs) in Hout.
  injection Hout as _ <- <-.
  destruct (heatMap_accum_inv row col y x0 s Hs)
    as (Hln & Hld & _ & _ & _ & _ & _ & Hn).
  split; [reflexivity |]. split; [rewrite rates_length; congruence |].
  split; [assumption |].
  intros q Hq.
  rewrite rates_nth by congruence. unfold rate.
  split; [| split]; intros H.
  - destruct (Z.ltb_spec minCount (nth q (denom s) 0%Z)); [| lia].
    split; [reflexivity |].
    apply Pow_tenth_root. apply Rmult_le_pos.
    + rewrite (Hn q Hq). apply IZR_le, count_if_nonneg.
    + left. apply Rinv_0_lt_compat, IZR_lt. unfold minCount in H. lia.
  - destruct (Z.ltb_spec minCount (nth q (denom s) 0%Z)); [lia | reflexivity].
  - rewrite H. reflexivity.
Qed.

Lemma heatMap_rate_threshold_witness :
  exists pr rat den,
    heatMap (repeat 3%Z 101) (repeat 4%Z 101) (repeat 1 101)
            (repeat 0 101) (repeat 0 101) = Ok (pr, (rat, den)) /\
    nth 304 den 0%Z = 101%Z /\ nth 304 rat 0 = Pow (101 / 101) (1 / 10) /\
    nth 305 den 0%Z = 0%Z /\ nth 305 rat 0 = -1.
Proof.
  set (row := repeat 3%Z 101). set (col := repeat 4%Z 101).
  set (y := repeat 1 101). set (x0 := repeat 0 101).
  destruct (heatMap_rate_threshold row col y x0 x0) as [_ Hp].
  destruct (heatMap_accum_total row col y x0) as [s Hs];
    [unfold aligned, row, col, y, x0; rewrite !repeat_length; auto |].
  pose proof (heatMap_returns row col y x0 x0 s Hs) as Hr.
  destruct (Hp s _ _ _ Hs Hr) as (_ & _ & _ & Hq).
  destruct (heatMap_accum_inv row col y x0 s Hs)
    as (_ & _ & _ & _ & _ & _ & Hd & Hn).
  assert (H304 : (304 < ncells)%nat) by (apply Nat.ltb_lt; reflexivity).
  assert (H305 : (305 < ncells)%nat) by (apply Nat.ltb_lt; reflexivity).
  assert (Hlen : length x0 = 101%nat) by apply repeat_length.
  assert (Hd304 : nth 304 (denom s) 0%Z = 101%Z)
    by (rewrite (Hd 304%nat H304), Hlen; reflexivity).
  assert (Hd305 : nth 305 (denom s) 0%Z = 0%Z)
    by (rewrite (Hd 305%nat H305), Hlen; reflexivity).
  assert (Hn304 : nth 304 (num s) 0 = 101).
  { rewrite (Hn 304%nat H304), Hlen.
    rewrite (count_if_ext _ (obs_in_cell row col 304)); [reflexivity |].
    intros i Hi. unfold obs_pos_cell, obs_in_cell, obs_pos, y.
    rewrite nth_repeat_lt by assumption. rewrite (feq_true 1 1 eq_refl).
    now rewrite andb_true_r. }
  exists (missed s, hit s), (rates (num s) (denom s)), (denom s).
  split; [exact Hr |]. split; [exact Hd304 |].
  destruct (Hq 304%nat H304) as (Hgt & _ & _).
  destruct (Hq 305%nat H305) as (_ & Hle & _).
  destruct Hgt as (Hgt & _); [rewrite Hd304; reflexivity |].
  split; [rewrite Hgt, Hn304, Hd304; reflexivity |].
  split; [exact Hd305 |].
  apply Hle. rewrite Hd305. discriminate.
Defined.

(** C9: on aligned arrays the accumulation loop of [heatMap] ends, and
    whenever it ends: every cell's count is the number of in-bounds
    observations whose cell it is, the counts add up to [hit], [hit] is the
    number of in-bounds observations, [hit + missed] is the input length,
    and the entries of [num] add up to the number of in-bounds observations
    with outcome 1; [missed] and [hit] are what the call prints. *)
Theorem heatMap_counts (row col : list Z) (y x0 x1 : list R) :
  (aligned row col y x0 -> exists s, heatMap_accum row col y x0 = Ok s) /\
  (forall s,
     heatMap_accum row col y x0 = Ok s ->
     (exists ret, heatMap row col y x0 x1 = Ok ((missed s, hit s), ret)) /\
     sumZ (denom s) = hit s /\
     (hit s + missed s = len x0)%Z /\
     hit s = count_if (obs_in row col) (length x0) /\
     sumR (num s) = IZR (count_if (obs_pos row col y) (length x0)) /\
     (forall q, (q < ncells)%nat ->
        nth q (denom s) 0%Z = count_if (obs_in_cell row col q) (length x0)) /\
     (forall i, (i < length x0)%nat -> obs_in row col i = true ->
        exists q, (q < ncells)%nat /\
          forall q', obs_in_cell row col q' i = true <-> q' = q)).
Proof.
  split; [apply heatMap_accum_total |].
  intros s Hs.
  destruct (heatMap_accum_inv row col y x0 s Hs)
    as (Hln & Hld & Hhit & Hsum & Hsd & Hsn & Hd & Hn).
  split; [rewrite (heatMap_returns row col y x0 x1 s Hs); eauto |].
  repeat (split; [assumption |]).
  intros i _ Hi.
  pose proof (obs_in_cell_range row col i Hi) as HQ.
  exists (Z.to_nat (obs_cell row col i)). split; [lia |].
  intros q'. unfold obs_in_cell. rewrite Hi. cbn [andb].
  destruct (Z.eqb_spec (obs_cell row col i) (Z.of_nat q')); split;
    intros; try lia; try discriminate; reflexivity.
Qed.

Lemma heatMap_counts_witness :
  exists s, heatMap_accum [3; 120]%Z [4; 7]%Z [1; 0] [0; 0] = Ok s /\
            hit s = 1%Z /\ missed s = 1%Z /\ sumZ (denom s) = 1%Z /\
            nth 304 (denom s) 0%Z = 1%Z /\ sumR (num s) = 1.
Proof.
  destruct (heatMap_counts [3; 120]%Z [4; 7]%Z [1; 0] [0; 0] [0; 0])
    as [Ht Hp].
  destruct (Ht ltac:(repeat split)) as [s Hs].
  destruct (Hp s Hs) as (_ & Hsd & Hsum & Hhit & Hsn & Hd & _).
  assert (Hh : hit s = 1%Z) by (rewrite Hhit; reflexivity).
  exists s. split; [exact Hs |]. split; [exact Hh |].
  change (len [0; 0]) with 2%Z in Hsum.
  split; [lia |].
  split; [now rewrite Hsd |].
  split; [rewrite Hd; [reflexivity | apply Nat.ltb_lt; reflexivity] |].
  rewrite Hsn. cbn [length count_if]. unfold obs_pos. simpl nth.
  change (obs_in [3; 120]%Z [4; 7]%Z 0) with true.
  change (obs_in [3; 120]%Z [4; 7]%Z 1) with false.
  fcmp. reflexivity.
Defined.

(** C10: whenever the accumulation loop of [heatMap] ends, [num[q]] lies
    between 0 and [denom[q]] in every cell, and every entry of the returned
    [rate] array is [-1] or lies in [[0, 1]]; on aligned arrays the call
    returns. *)
Theorem heatMap_rate_range (row col : list Z) (y x0 x1 : list R) :
  (aligned row col y x0 -> exists out, heatMap row col y x0 x1 = Ok out) /\
  (forall s,
     heatMap_accum row col y x0 = Ok s ->
     (forall q, (q < ncells)%nat ->
        0 <= nth q (num s) 0 <= IZR (nth q (denom s) 0%Z)) /\
     (forall pr rat den,
        heatMap row col y x0 x1 = Ok (pr, (rat, den)) ->
        Forall (fun r => r = -1 \/ 0 <= r <= 1) rat)).
Proof.
  split; [apply heatMap_total |].
  intros s Hs.
  destruct (heatMap_accum_inv row col y x0 s Hs)
    as (Hln & Hld & _ & _ & _ & _ & Hd & Hn).
  assert (Hle : forall q, (q < ncells)%nat ->
                  0 <= nth q (num s) 0 <= IZR (nth q (denom s) 0%Z)).
  { intros q Hq. rewrite (Hn q Hq), (Hd q Hq). split.
    - apply IZR_le, count_if_nonneg.
    - apply IZR_le, count_if_le. intros i.
      unfold obs_pos_cell, obs_in_cell, obs_pos.
      destruct (obs_in row col i); [| discriminate].
      destruct (obs_cell row col i =? Z.of_nat q)%Z;
        [reflexivity | rewrite andb_false_r; discriminate]. }
  split; [exact Hle |].
  intros pr rat den Hout.
  rewrite (heatMap_returns row col y x0 x1 s Hs) in Hout.
  injection Hout as _ <- _.
  apply Forall_nth. intros q d Hq.
  rewrite rates_length in Hq by congruence.
  rewrite (nth_indep _ d 0) by (rewrite rates_length; congruence).
  rewrite rates_nth by congruence. unfold rate.
  destruct (Z.ltb_spec minCount (nth q (denom s) 0%Z)) as [Hgt | _];
    [right | left; reflexivity].
  apply Pow_tenth_unit.
  destruct (Hle q) as [H0 H1]; [congruence |].
  assert (Hpos : 0 < IZR (nth q (denom s) 0%Z))
    by (apply IZR_lt; unfold minCount in Hgt; lia).
  split.
  - apply Rmult_le_pos; [assumption | left; now apply Rinv_0_lt_compat].
  - apply (Rmult_le_reg_r (IZR (nth q (denom s) 0%Z))); [assumption |].
    unfold Rdiv. rewrite Rmult_assoc, Rinv_l by lra. lra.
Qed.

Lemma heatMap_rate_range_witness :
  exists out, heatMap [3; 120]%Z [4; 7]%Z [1; 0] [0; 0] [0; 0] = Ok out.
Proof.
  apply (proj1 (heatMap_rate_range [3; 120]%Z [4; 7]%Z [1; 0] [0; 0] [0; 0])).
  repeat split.
Defined.

(** ** Finite sums *)

Lemma sum_to_ext (n : nat) (f g : nat -> R) :
  (forall i, (i < n)%nat -> f i = g i) -> sum_to n f = sum_to n g.
Proof.
  induction n as [| n IH]; intros H; simpl; [reflexivity |].
  rewrite IH by (intros; apply H; lia). rewrite H by lia. reflexivity.
Qed.


Lemma sum_to_plus (n : nat) (f g : nat -> R) :
  sum_to n (fun i => f i + g i) = sum_to n f + sum_to n g.
Proof. induction n as [| n IH]; simpl; [lra | rewrite IH; lra]. Qed.

Lemma sum_to_scal (n : nat) (c : R) (f : nat -> R) :
  sum_to n (fun i => c * f i) = c * sum_to n f.
Proof. induction n as [| n IH]; simpl; [lra | rewrite IH; lra]. Qed.



(** The sum over a square is the sum over its lower triangle, its diagonal
    and the transposed lower triangle. *)
Lemma sum_square_triangle (a : nat -> nat -> R) (n : nat) :
  sum_to n (fun i => sum_to n (fun j => a i j))
  = sum_to n (fun i => sum_to i (fun j => a i j + a j i) + a i i).
Proof.
  induction n as [| n IH]; [reflexivity |].
  cbn [sum_to].
  rewrite (sum_to_plus n (fun i => sum_to n (fun j => a i j)) (fun i => a i n)).
  rewrite (sum_to_plus n (fun j => a n j) (fun j => a j n)).
  rewrite IH. lra.
Qed.

(** ** cormat *)

Lemma flat_index_lt (p i j : nat) :
  (i < p)%nat -> (j < p)%nat -> (i * p + j < p * p)%nat.
Proof. intros Hi Hj. nia. Qed.

Lemma flat_index_div (p i j : nat) :
  (j < p)%nat -> ((i * p + j) / p = i)%nat.
Proof.
  intros Hj. rewrite Nat.add_comm, Nat.div_add by lia.
  rewrite Nat.div_small by lia. reflexivity.
Qed.

Lemma flat_index_mod (p i j : nat) :
  (j < p)%nat -> ((i * p + j) mod p = j)%nat.
Proof.
  intros Hj. rewrite Nat.add_comm, Nat.Div0.mod_add.
  apply Nat.mod_small. lia.
Qed.

(** What [s] holds after the first loop of [cormat]. *)
Lemma diag_sqrt_spec (x : list R) (p : nat) :
  length x = (p * p)%nat ->
  exists s, diag_sqrt x (Z.of_nat p) = Ok s /\ length s = p /\
            forall k, (k < p)%nat -> nth k s 0 = sqrt (entry x p k k).
Proof.
  intros Hx. unfold diag_sqrt, for_range.
  rewrite Z.sub_0_r, Nat2Z.id.
  destruct (for_loop_total
              (fun j s => length s = p /\
                 forall k, (k < j)%nat -> nth k s 0 = sqrt (entry x p k k))
              (fun i s => v <- index x (i * Z.of_nat p + i)%Z ;;
                          store s i (Sqrt v))
              p 0 (repeat 0 p)) as [s [Hs [Hl Hn]]].
  - split; [apply repeat_length | intros; lia].
  - intros k t Hk [Hl Hn].
    replace (Z.of_nat k * Z.of_nat p + Z.of_nat k)%Z
      with (Z.of_nat (k * p + k)) by lia.
    rewrite (index_of_nat x _ 0) by (rewrite Hx; apply flat_index_lt; lia).
    cbn [bind]. rewrite store_in_range by (unfold len; lia).
    rewrite Nat2Z.id. eexists. split; [reflexivity |].
    split; [now rewrite update_length |].
    intros k' Hk'. destruct (Nat.eq_dec k k') as [<- | Hne].
    + rewrite nth_update_same by lia. reflexivity.
    + rewrite nth_update_other by assumption. apply Hn. lia.
  - exists s. auto.
Qed.

(** What [cormat] returns for a [p]-by-[p] matrix. *)
Lemma cormat_entries (x : list R) (p : nat) :
  length x = (p * p)%nat ->
  exists y, cormat x (Z.of_nat p) = Ok y /\ length y = length x /\
    forall i j, (i < p)%nat -> (j < p)%nat ->
      entry y p i j
      = entry x p i j / (sqrt (entry x p i i) * sqrt (entry x p j j)).
Proof.
  intros Hx. unfold cormat.
  destruct (Z.ltb_spec (Z.of_nat p) 0); [lia |].
  destruct (diag_sqrt_spec x p Hx) as [s [-> [Hls Hs]]]. cbn [bind].
  unfold for_range, len. rewrite Z.sub_0_r, Nat2Z.id.
  destruct (for_loop_total
              (fun j y => length y = length x /\
                 forall i, (i < j)%nat ->
                   nth i y 0 = nth i x 0 / (nth (i / p) s 0 * nth (i mod p) s 0))
              (cormat_step x s (Z.of_nat p))
              (length x) 0 (repeat 0 (length x))) as [y [Hy [Hl Hn]]].
  - split; [apply repeat_length | intros; lia].
  - intros k t Hk [Hl Hn].
    assert (Hp : (0 < p)%nat) by nia.
    unfold cormat_step.
    rewrite (index_of_nat x k 0) by lia. cbn [bind].
    destruct (Z.eqb_spec (Z.of_nat p) 0); [lia |].
    rewrite Z.quot_div_nonneg, Z.rem_mod_nonneg by lia.
    rewrite <- Nat2Z.inj_div, <- Nat2Z.inj_mod.
    assert (Hd : (k / p < p)%nat) by (apply Nat.Div0.div_lt_upper_bound; lia).
    assert (Hm : (k mod p < p)%nat) by (apply Nat.mod_upper_bound; lia).
    rewrite (index_of_nat s _ 0), (index_of_nat s _ 0) by lia. cbn [bind].
    rewrite store_in_range by (unfold len; lia).
    rewrite Nat2Z.id. eexists. split; [reflexivity |].
    split; [now rewrite update_length |].
    intros k' Hk'. destruct (Nat.eq_dec k k') as [<- | Hne].
    + rewrite nth_update_same by lia. reflexivity.
    + rewrite nth_update_other by assumption. apply Hn. lia.
  - exists y. split; [exact Hy |]. split; [exact Hl |].
    intros i j Hi Hj. unfold entry at 1.
    rewrite Hn by (rewrite Hx; apply flat_index_lt; assumption).
    rewrite flat_index_div, flat_index_mod by assumption.
    rewrite !Hs by assumption. reflexivity.
Qed.






(** ** standardize *)

Lemma Scale_length (c : R) (l : list R) : length (Scale c l) = length l.
Proof. apply length_map. Qed.

Lemma Scale_nth (c : R) (l : list R) (i : nat) :
  nth i (Scale c l) 0 = nth i l 0 * c.
Proof.
  revert i. induction l as [| x t IH]; intros [| i]; simpl; try lra.
  apply IH.
Qed.

Lemma Scale_one (l : list R) : Scale (1 / 1) l = l.
Proof.
  unfold Scale. induction l as [| x t IH]; simpl; [reflexivity |].
  rewrite IH. f_equal. lra.
Qed.

(** The loop over [j] adds row [i] of the lower triangle to [v]. *)
Lemma quad_row (vec mat : list R) (i : nat) (v0 : R) :
  length mat = (length vec * length vec)%nat -> (i < length vec)%nat ->
  for_range 0 (Z.of_nat i + 1) (quad_step vec mat (len vec) (Z.of_nat i)) v0
  = Ok (v0
        + (sum_to i (fun j => 2 * (nth i vec 0 * nth j vec 0
                                   * entry mat (length vec) i j))
           + nth i vec 0 * nth i vec 0 * entry mat (length vec) i i)).
Proof.
  intros Hm Hi. unfold for_range.
  replace (Z.to_nat (Z.of_nat i + 1 - 0)) with (S i) by lia.
  set (t := fun j => if Nat.eqb j i
                     then nth i vec 0 * nth i vec 0 * entry mat (length vec) i i
                     else 2 * (nth i vec 0 * nth j vec 0
                               * entry mat (length vec) i j)).
  destruct (for_loop_total (fun k v => v = v0 + sum_to k t)
              (quad_step vec mat (len vec) (Z.of_nat i)) (S i) 0 v0)
    as [v [Hv Hsum]].
  - simpl. lra.
  - intros k v Hk ->. unfold quad_step, len.
    rewrite (index_of_nat vec i 0), (index_of_nat vec k 0) by lia.
    cbn [bind].
    replace (Z.of_nat i * Z.of_nat (length vec) + Z.of_nat k)%Z
      with (Z.of_nat (i * length vec + k)) by lia.
    rewrite (index_of_nat mat _ 0) by (rewrite Hm; apply flat_index_lt; lia).
    cbn [bind]. fold (entry mat (length vec) i k).
    eexists. split; [reflexivity |]. cbn [sum_to]. unfold t.
    destruct (Z.eqb_spec (Z.of_nat k) (Z.of_nat i)) as [E | E];
      destruct (Nat.eqb_spec k i) as [E' | E']; try lia; cbn [negb].
    + subst k. lra.
    + lra.
  - change (for_loop (S i) 0 (quad_step vec mat (len vec) (Z.of_nat i)) v0)
      with (for_loop (S i) (Z.of_nat 0)
              (quad_step vec mat (len vec) (Z.of_nat i)) v0).
    rewrite Hv, Hsum. f_equal. f_equal. cbn [sum_to Nat.add].
    assert (Et : t i = nth i vec 0 * nth i vec 0 * entry mat (length vec) i i)
      by (unfold t; now rewrite Nat.eqb_refl).
    rewrite Et. f_equal.
    apply sum_to_ext. intros j Hj. unfold t.
    destruct (Nat.eqb_spec j i); [lia | reflexivity].
Qed.

(** The value that [standardize] takes the square root of. *)
Lemma quad_loop_spec (vec mat : list R) :
  length mat = (length vec * length vec)%nat ->
  quad_loop vec mat = Ok (lform vec mat).
Proof.
  intros Hm. unfold quad_loop, for_range, len at 1.
  rewrite Z.sub_0_r, Nat2Z.id.
  destruct (for_loop_total
              (fun k v => v = sum_to k (fun i =>
                 sum_to i (fun j => 2 * (nth i vec 0 * nth j vec 0
                                         * entry mat (length vec) i j))
                 + nth i vec 0 * nth i vec 0 * entry mat (length vec) i i))
              (fun i v => for_range 0 (i + 1)
                            (quad_step vec mat (len vec) i) v)
              (length vec) 0 0) as [v [Hv Hsum]].
  - reflexivity.
  - intros k v Hk ->. rewrite quad_row by (try assumption; lia).
    eexists. split; reflexivity.
  - subst v. exact Hv.
Qed.

Lemma lform_scale (c : R) (vec mat : list R) :
  lform (Scale c vec) mat = c * c * lform vec mat.
Proof.
  unfold lform. rewrite Scale_length, <- sum_to_scal.
  apply sum_to_ext. intros i _.
  rewrite Rmult_plus_distr_l, <- sum_to_scal, !Scale_nth. f_equal.
  - apply sum_to_ext. intros j _. rewrite Scale_nth. lra.
  - lra.
Qed.

(** On a symmetric matrix the sum of [standardize] is the quadratic form. *)
Lemma qform_lform (vec mat : list R) :
  symmetric mat (length vec) -> qform vec mat = lform vec mat.
Proof.
  intros Hsym. unfold qform, quad, lform.
  rewrite (sum_square_triangle
             (fun i j => nth i vec 0 * nth j vec 0 * entry mat (length vec) i j)).
  apply sum_to_ext. intros i Hi. f_equal.
  apply sum_to_ext. intros j Hj.
  rewrite (Hsym j i) by lia. lra.
Qed.

Lemma symmetric_scale (c : R) (vec mat : list R) :
  symmetric mat (length vec) -> symmetric mat (length (Scale c vec)).
Proof. now rewrite Scale_length. Qed.

(** [standardize] scales [vec] by the inverse square root of its sum, which
    makes the sum 1, and leaves a vector whose sum is 1 as it is. *)
Lemma standardize_lform (vec mat : list R) :
  length mat = (length vec * length vec)%nat ->
  0 < lform vec mat ->
  exists vec', standardize vec mat = Ok vec' /\
               vec' = Scale (1 / sqrt (lform vec mat)) vec /\
               lform vec' mat = 1 /\
               standardize vec' mat = Ok vec'.
Proof.
  intros Hm Hpos.
  pose proof (sqrt_lt_R0 _ Hpos) as Hs.
  pose proof (sqrt_sqrt _ (Rlt_le _ _ Hpos)) as Hss.
  set (vec' := Scale (1 / sqrt (lform vec mat)) vec).
  assert (H1 : lform vec' mat = 1).
  { unfold vec'. rewrite lform_scale.
    set (r := sqrt (lform vec mat)) in *. rewrite <- Hss. field. lra. }
  exists vec'. unfold standardize.
  rewrite (quad_loop_spec vec mat Hm). cbn [bind]. unfold Sqrt.
  repeat split; [assumption |].
  rewrite quad_loop_spec by (unfold vec'; now rewrite Scale_length).
  cbn [bind]. rewrite H1, sqrt_1, Scale_one. reflexivity.
Qed.

(** C8, as stated, fails on a matrix that is not symmetric: [standardize]
    reads the lower triangle only, so the quadratic form of the scaled vector
    is 3/4 here, not 1. *)
Lemma standardize_asymmetric :
  0 < qform [1; 1] [1; 0; 1; 1] /\
  exists vec', standardize [1; 1] [1; 0; 1; 1] = Ok vec' /\
               qform vec' [1; 0; 1; 1] <> 1.
Proof.
  split; [unfold qform, quad, entry; simpl; lra |].
  assert (HL : lform [1; 1] [1; 0; 1; 1] = 4)
    by (unfold lform, entry; simpl; lra).
  destruct (standardize_lform [1; 1] [1; 0; 1; 1] eq_refl)
    as [vec' [Hs [Hv _]]]; [rewrite HL; lra |].
  exists vec'. split; [exact Hs |].
  rewrite Hv, HL. unfold qform, quad, entry, Scale. simpl.
  assert (H4 : 0 <= 4) by lra.
  pose proof (sqrt_sqrt 4 H4) as Hss.
  assert (Hpos : 0 < sqrt 4) by (apply sqrt_lt_R0; lra).
  set (s := sqrt 4) in *.
  assert (Hinv : 1 / s * (1 / s) = / 4).
  { rewrite <- Hss. field. lra. }
  intros E.
  replace (0 +
           (0 + 1 * (1 / s) * (1 * (1 / s)) * 1 + 1 * (1 / s) * (1 * (1 / s)) * 0) +
           (0 + 1 * (1 / s) * (1 * (1 / s)) * 1 + 1 * (1 / s) * (1 * (1 / s)) * 1))
    with (3 * (1 / s * (1 / s))) in E by ring.
  rewrite Hinv in E. lra.
Qed.

(** C8, amended: for every vector [vec] and every symmetric matrix [mat]
    whose quadratic form at [vec] is positive, one call of [standardize]
    makes the quadratic form of the scaled vector 1, and a second call
    leaves the scaled vector as it is. *)
Theorem standardize_idempotent (vec mat : list R) :
  length mat = (length vec * length vec)%nat ->
  symmetric mat (length vec) ->
  0 < qform vec mat ->
  exists vec', standardize vec mat = Ok vec' /\
               qform vec' mat = 1 /\
               standardize vec' mat = Ok vec'.
Proof.
  intros Hm Hsym Hpos.
  rewrite (qform_lform vec mat Hsym) in Hpos.
  destruct (standardize_lform vec mat Hm Hpos) as [vec' [Hs [Hv [H1 H2]]]].
  exists vec'. split; [exact Hs |]. split; [| exact H2].
  rewrite qform_lform; [exact H1 |].
  subst vec'. now apply symmetric_scale.
Qed.

Lemma standardize_idempotent_witness :
  exists vec', standardize [3; 4] [1; 0; 0; 1] = Ok vec' /\
               qform vec' [1; 0; 0; 1] = 1 /\
               standardize vec' [1; 0; 0; 1] = Ok vec'.
Proof.
  apply (standardize_idempotent [3; 4] [1; 0; 0; 1]).
  - reflexivity.
  - intros i j Hi Hj. unfold entry.
    destruct i as [| [| i]], j as [| [| j]]; simpl in *; try lia; reflexivity.
  - unfold qform, quad, entry. simpl. lra.
Defined.

(** ** standardizeCellMeans *)

(** A range loop whose rounds all return returns. *)
Lemma for_each_total {A St : Type} (P : nat -> St -> Prop)
  (body : Z -> A -> St -> result St) (d : A) (l : list A) :
  forall (j : nat) (s : St),
    P j s ->
    (forall k t, (k < length l)%nat -> P (j + k)%nat t ->
       exists t', body (Z.of_nat (j + k)) (nth k l d) t = Ok t' /\
                  P (S (j + k)) t') ->
    exists s', for_each l (Z.of_nat j) body s = Ok s' /\
               P (j + length l)%nat s'.
Proof.
  induction l as [| a l IH]; intros j s HP Hstep; simpl.
  - exists s. rewrite Nat.add_0_r. auto.
  - destruct (Hstep 0%nat s) as [t [Hb Ht]];
      [simpl; lia | now rewrite Nat.add_0_r |].
    rewrite Nat.add_0_r in Hb, Ht. simpl in Hb. rewrite Hb. simpl.
    replace (Z.of_nat j + 1)%Z with (Z.of_nat (S j)) by lia.
    replace (j + S (length l))%nat with (S j + length l)%nat by lia.
    apply (IH (S j) t Ht).
    intros k u Hk Hu.
    replace (S j + k)%nat with (j + S k)%nat in * by lia.
    apply (Hstep (S k) u); [simpl; lia | assumption].
Qed.

Lemma zipWith_length (f : R -> R -> R) (a b : list R) :
  length a = length b -> length (zipWith f a b) = length a.
Proof.
  revert b. induction a as [| x a IH]; intros [| y b]; simpl; intros H;
    try discriminate; auto.
Qed.

Lemma zipWith_nth (f : R -> R -> R) (a b : list R) (k : nat) :
  length a = length b -> (k < length a)%nat ->
  nth k (zipWith f a b) 0 = f (nth k a 0) (nth k b 0).
Proof.
  revert b k. induction a as [| x a IH]; intros [| y b] [| k]; simpl;
    intros H Hk; try discriminate; try lia; auto.
  apply IH; lia.
Qed.

Lemma mapM_map {A B : Type} (f : A -> result B) (g : A -> B) (l : list A) :
  Forall (fun a => f a = Ok (g a)) l -> mapM f l = Ok (map g l).
Proof.
  induction 1 as [| a l Ha _ IH]; simpl; [reflexivity |].
  rewrite Ha, IH. reflexivity.
Qed.

Lemma weight_nonneg (cmc : list Z) (q : nat) : (0 <= weight cmc q)%Z.
Proof. unfold weight. destruct (Z.ltb_spec 0 (nth q cmc 0%Z)); lia. Qed.

Lemma total_count_mono (cmc : list Z) (n m : nat) :
  (n <= m)%nat -> (0 <= total_count cmc n <= total_count cmc m)%Z.
Proof.
  intros H. induction H as [| m H IH].
  - split; [| lia]. induction n; simpl; [lia |].
    pose proof (weight_nonneg cmc n). lia.
  - simpl. pose proof (weight_nonneg cmc m). lia.
Qed.

Lemma total_count_IZR (cmc : list Z) (n : nat) :
  IZR (total_count cmc n) = sum_to n (fun q => IZR (weight cmc q)).
Proof.
  induction n as [| n IH]; simpl; [reflexivity |].
  rewrite plus_IZR, IH. reflexivity.
Qed.

Lemma cells_ok_row (cmn : list (list R)) (cmc : list Z) (K q : nat) :
  cells_ok cmn cmc K -> (q < length cmn)%nat -> length (nth q cmn []) = K.
Proof.
  intros (_ & Hrows & _) Hq.
  apply (proj1 (Forall_nth _ cmn) Hrows q [] Hq).
Qed.

Lemma wrap_total_count (cmc : list Z) (n q : nat) :
  is_int (total_count cmc n) -> (q < n)%nat ->
  wrap (total_count cmc q + weight cmc q) = total_count cmc (S q).
Proof.
  intros Hint Hq. apply wrap_small.
  pose proof (total_count_mono cmc (S q) n ltac:(lia)) as H.
  cbn [total_count] in *. unfold is_int in *. lia.
Qed.

(** What [v] and [w] hold after the first loop over the cells. *)
Lemma center_loop (cmn : list (list R)) (cmc : list Z) (K : nat) :
  cells_ok cmn cmc K -> is_int (total_count cmc (length cmn)) ->
  exists v, for_each cmn 0 (center_step cmc) (repeat 0 K, 0%Z)
            = Ok (v, total_count cmc (length cmn)) /\
            length v = K /\
            forall k, (k < K)%nat ->
              nth k v 0 = wsum cmc (length cmn) (fun q => cell cmn q k).
Proof.
  intros Hok Hint.
  destruct (for_each_total
              (fun q (st : list R * Z) =>
                 length (fst st) = K /\ snd st = total_count cmc q /\
                 forall k, (k < K)%nat ->
                   nth k (fst st) 0 = wsum cmc q (fun q' => cell cmn q' k))
              (center_step cmc) [] cmn 0 (repeat 0 K, 0%Z))
    as [[v w] [Hv (Hl & Hw & Hn)]].
  - cbn [fst snd]. split; [apply repeat_length |]. split; [reflexivity |].
    intros k _. apply nth_repeat_0.
  - intros q [v w] Hq (Hl & Hw & Hn). cbn [fst snd Nat.add] in *.
    destruct Hok as (Hne & Hrows & Hlen).
    unfold center_step.
    rewrite (index_of_nat cmc q 0%Z) by lia. cbn [bind fst snd].
    assert (Hu : length (nth q cmn []) = K)
      by (apply (proj1 (Forall_nth _ cmn) Hrows q [] Hq)).
    assert (Hwt : weight cmc q
                  = if (0 <? nth q cmc 0)%Z then nth q cmc 0%Z else 0%Z)
      by reflexivity.
    destruct (Z.ltb_spec 0 (nth q cmc 0%Z)) as [Hc | Hc].
    + unfold AddScaled. rewrite Hl, Hu, Nat.eqb_refl. cbn [bind].
      eexists. split; [reflexivity |]. cbn [fst snd].
      split; [rewrite zipWith_length; congruence |].
      split; [rewrite Hw, <- Hwt; now apply (wrap_total_count cmc (length cmn)) |].
      intros k Hk. rewrite zipWith_nth by congruence.
      rewrite (Hn k Hk). unfold wsum. cbn [sum_to]. rewrite Hwt. reflexivity.
    + eexists. split; [reflexivity |]. cbn [fst snd].
      split; [assumption |]. split; [cbn [total_count]; rewrite Hwt; lia |].
      intros k Hk. rewrite (Hn k Hk). unfold wsum. cbn [sum_to].
      rewrite Hwt. lra.
  - exists v. cbn [fst snd Nat.add] in *. subst w. auto.
Qed.

Lemma nth_map_row {A : Type} (g : list A -> list A) (l : list (list A)) (q : nat) :
  (q < length l)%nat -> nth q (map g l) [] = g (nth q l []).
Proof.
  intros H. rewrite (nth_indep _ [] (g [])) by (rewrite length_map; lia).
  apply map_nth.
Qed.

(** The first part of [standardizeCellMeans]: [v] is the weighted mean, and
    it is subtracted from the vector of every cell. *)
Lemma center_spec (cmn : list (list R)) (cmc : list Z) (K : nat) :
  cells_ok cmn cmc K -> is_int (total_count cmc (length cmn)) ->
  exists cmn' v,
    center cmn cmc = Ok (cmn', v) /\
    length v = K /\ cells_ok cmn' cmc K /\ length cmn' = length cmn /\
    (forall k, (k < K)%nat -> nth k v 0 = wmean cmn cmc k) /\
    (forall q k, (q < length cmn)%nat -> (k < K)%nat ->
       cell cmn' q k = cell cmn q k - wmean cmn cmc k).
Proof.
  intros Hok Hint.
  destruct (center_loop cmn cmc K Hok Hint) as [V [HV [HlV HnV]]].
  pose proof Hok as (Hne & Hrows & Hlen).
  assert (Hpos : (0 < length cmn)%nat)
    by (destruct cmn; [contradiction | simpl; lia]).
  unfold center.
  change (index cmn 0) with (index cmn (Z.of_nat 0)).
  rewrite (index_of_nat cmn 0 []) by assumption. cbn [bind].
  rewrite (cells_ok_row cmn cmc K 0 Hok Hpos), HV. cbn [bind fst snd].
  set (v := Scale (1 / IZR (total_count cmc (length cmn))) V).
  assert (Hlv : length v = K) by (unfold v; now rewrite Scale_length).
  assert (Hnv : forall k, (k < K)%nat -> nth k v 0 = wmean cmn cmc k).
  { intros k Hk. unfold v. rewrite Scale_nth, (HnV k Hk).
    unfold wmean, Rdiv. ring. }
  set (g := fun u => zipWith (fun d x => d - x) u v).
  rewrite (mapM_map (fun u => Sub u v) g).
  - cbn [bind]. exists (map g cmn), v.
    split; [reflexivity |]. split; [assumption |].
    split; [| split; [apply length_map | split; [assumption |]]].
    + split; [destruct cmn; [contradiction | discriminate] |].
      split; [| now rewrite length_map].
      apply Forall_map. eapply Forall_impl; [| exact Hrows].
      intros u Hu. unfold g. cbn beta. rewrite zipWith_length; congruence.
    + intros q k Hq Hk. unfold cell. rewrite nth_map_row by assumption.
      unfold g. rewrite zipWith_nth, (Hnv k Hk);
        rewrite ?(cells_ok_row cmn cmc K q Hok Hq); [reflexivity | | ]; lia.
  - eapply Forall_impl; [| exact Hrows].
    intros u Hu. cbn beta. unfold Sub. rewrite Hu, Hlv, Nat.eqb_refl.
    reflexivity.
Qed.

(** C2, as stated, fails: cell 1 has count 0 and its vector [[5]] becomes
    [[4]] when the mean [[1]] of the populated cell 0 is subtracted. *)
Lemma center_changes_empty_cell :
  nth 1 [1; 0]%Z 0%Z = 0%Z /\
  exists cmn' v, center [[1]; [5]] [1; 0]%Z = Ok (cmn', v) /\
                 nth 1 cmn' [] <> nth 1 [[1]; [5]] [].
Proof.
  split; [reflexivity |].
  assert (Hok : cells_ok [[1]; [5]] [1; 0]%Z 1).
  { split; [discriminate |]. split; [| reflexivity].
    repeat constructor. }
  assert (Hint : is_int (total_count [1; 0]%Z (length [[1]; [5]])))
    by (vm_compute; split; [discriminate | reflexivity]).
  destruct (center_spec _ _ _ Hok Hint) as (cmn' & v & Hc & _ & _ & _ & _ & Hcell).
  exists cmn', v. split; [exact Hc |].
  intros E. specialize (Hcell 1%nat 0%nat ltac:(simpl; lia) ltac:(lia)).
  unfold cell at 1 in Hcell. rewrite E in Hcell.
  unfold wmean, wsum, cell in Hcell. simpl in Hcell.
  change (weight [1; 0]%Z 0) with 1%Z in Hcell.
  change (weight [1; 0]%Z 1) with 0%Z in Hcell.
  lra.
Qed.

(** C2, amended: the centering step computes the count-weighted mean [v]
    over the populated cells only, and subtracts it from the vector of every
    cell, whatever its count: the cells with count 0 are not left out. *)
Theorem center_subtracts_from_every_cell
  (cmn : list (list R)) (cmc : list Z) (K : nat) :
  cells_ok cmn cmc K -> is_int (total_count cmc (length cmn)) ->
  exists cmn' v,
    center cmn cmc = Ok (cmn', v) /\
    length cmn' = length cmn /\
    (forall k, (k < K)%nat -> nth k v 0 = wmean cmn cmc k) /\
    (forall q k, (q < length cmn)%nat -> (k < K)%nat ->
       cell cmn' q k = cell cmn q k - nth k v 0).
Proof.
  intros Hok Hint.
  destruct (center_spec cmn cmc K Hok Hint)
    as (cmn' & v & Hc & _ & _ & Hl & Hv & Hcell).
  exists cmn', v. repeat (split; [assumption |]).
  intros q k Hq Hk. rewrite (Hv k Hk). now apply Hcell.
Qed.

Lemma center_subtracts_from_every_cell_witness :
  exists cmn' v,
    center [[1; 2]; [5; 6]; [3; 4]] [1; 0; 3]%Z = Ok (cmn', v) /\
    length cmn' = 3%nat /\
    (forall k, (k < 2)%nat ->
       nth k v 0 = wmean [[1; 2]; [5; 6]; [3; 4]] [1; 0; 3]%Z k) /\
    (forall q k, (q < 3)%nat -> (k < 2)%nat ->
       cell cmn' q k = cell [[1; 2]; [5; 6]; [3; 4]] q k - nth k v 0).
Proof.
  apply (center_subtracts_from_every_cell
           [[1; 2]; [5; 6]; [3; 4]] [1; 0; 3]%Z 2).
  - split; [discriminate |]. split; [| reflexivity].
    repeat constructor.
  - vm_compute. split; [discriminate | reflexivity].
Defined.

Lemma add_squares_spec (c : R) (u v : list R) :
  length u = length v ->
  add_squares c u v = Ok (zipWith (fun vj uj => vj + c * uj * uj) v u).
Proof.
  intros Hlen. unfold add_squares.
  destruct (for_each_total
              (fun j v' => length v' = length v /\
                 (forall k, (k < j)%nat ->
                    nth k v' 0 = nth k v 0 + c * nth k u 0 * nth k u 0) /\
                 (forall k, (j <= k)%nat -> nth k v' 0 = nth k v 0))
              (fun j (_ : R) v' => uj <- index u j ;; vj <- index v' j ;;
                                   store v' j (vj + c * uj * uj))
              0 u 0 v) as [v' [Hv' (Hl & Hlt & _)]].
  - repeat split; intros; lia || reflexivity.
  - intros k t Hk (Hl & Hlt & Hge). cbn [Nat.add] in *.
    rewrite (index_of_nat u k 0), (index_of_nat t k 0) by lia. cbn [bind].
    rewrite store_in_range by (unfold len; lia).
    rewrite Nat2Z.id. eexists. split; [reflexivity |].
    split; [now rewrite update_length |]. split.
    + intros k' Hk'. destruct (Nat.eq_dec k k') as [<- | Hne].
      * rewrite nth_update_same by lia. rewrite (Hge k) by lia. reflexivity.
      * rewrite nth_update_other by assumption. apply Hlt. lia.
    + intros k' Hk'. rewrite nth_update_other by lia. apply Hge. lia.
  - change (Z.of_nat 0) with 0%Z in Hv'. rewrite Hv'. f_equal.
    apply (nth_ext _ _ 0 0).
    + rewrite zipWith_length; congruence.
    + intros k Hk. rewrite zipWith_nth by lia. apply Hlt.
      cbn [Nat.add]. lia.
Qed.

Lemma div_row_spec (v u : list R) :
  length u = length v ->
  div_row v u = Ok (zipWith (fun x vj => x / vj) u v).
Proof.
  intros Hlen. unfold div_row.
  destruct (for_each_total
              (fun j u' => length u' = length u /\
                 forall k, (k < j)%nat -> nth k u' 0 = nth k u 0 / nth k v 0)
              (fun j x u' => vj <- index v j ;; store u' j (x / vj))
              0 u 0 u) as [u' [Hu' (Hl & Hlt)]].
  - split; [reflexivity | intros; lia].
  - intros k t Hk (Hl & Hlt). cbn [Nat.add] in *.
    rewrite (index_of_nat v k 0) by lia. cbn [bind].
    rewrite store_in_range by (unfold len; lia).
    rewrite Nat2Z.id. eexists. split; [reflexivity |].
    split; [now rewrite update_length |].
    intros k' Hk'. destruct (Nat.eq_dec k k') as [<- | Hne].
    + rewrite nth_update_same by lia. reflexivity.
    + rewrite nth_update_other by assumption. apply Hlt. lia.
  - change (Z.of_nat 0) with 0%Z in Hu'. rewrite Hu'. f_equal.
    apply (nth_ext _ _ 0 0).
    + rewrite zipWith_length; congruence.
    + intros k Hk. rewrite zipWith_nth by lia. apply Hlt.
      cbn [Nat.add]. lia.
Qed.

Lemma nth_map_zero (v : list R) (k : nat) : nth k (map (fun _ => 0) v) 0 = 0.
Proof. revert k. induction v; intros [| k]; simpl; auto. Qed.

(** What [v] and [w] hold after the second loop over the cells. *)
Lemma scale_loop (cmn : list (list R)) (cmc : list Z) (K : nat) (v0 : list R) :
  cells_ok cmn cmc K -> is_int (total_count cmc (length cmn)) ->
  length v0 = K ->
  exists v, for_each cmn 0 (scale_step cmc) (map (fun _ => 0) v0, 0%Z)
            = Ok (v, total_count cmc (length cmn)) /\
            length v = K /\
            forall k, (k < K)%nat ->
              nth k v 0
              = wsum cmc (length cmn) (fun q => cell cmn q k * cell cmn q k).
Proof.
  intros Hok Hint Hv0.
  destruct (for_each_total
              (fun q (st : list R * Z) =>
                 length (fst st) = K /\ snd st = total_count cmc q /\
                 forall k, (k < K)%nat ->
                   nth k (fst st) 0
                   = wsum cmc q (fun q' => cell cmn q' k * cell cmn q' k))
              (scale_step cmc) [] cmn 0 (map (fun _ => 0) v0, 0%Z))
    as [[v w] [Hv (Hl & Hw & Hn)]].
  - cbn [fst snd]. split; [now rewrite length_map |]. split; [reflexivity |].
    intros k _. apply nth_map_zero.
  - intros q [v w] Hq (Hl & Hw & Hn). cbn [fst snd Nat.add] in *.
    pose proof Hok as (Hne & Hrows & Hlen).
    unfold scale_step.
    rewrite (index_of_nat cmc q 0%Z) by lia. cbn [bind fst snd].
    pose proof (cells_ok_row cmn cmc K q Hok Hq) as Hu.
    assert (Hwt : weight cmc q
                  = if (0 <? nth q cmc 0)%Z then nth q cmc 0%Z else 0%Z)
      by reflexivity.
    destruct (Z.ltb_spec 0 (nth q cmc 0%Z)) as [Hc | Hc].
    + rewrite add_squares_spec by congruence. cbn [bind].
      eexists. split; [reflexivity |]. cbn [fst snd].
      split; [rewrite zipWith_length; congruence |].
      split; [rewrite Hw, <- Hwt; now apply (wrap_total_count cmc (length cmn)) |].
      intros k Hk. rewrite zipWith_nth by congruence.
      rewrite (Hn k Hk). unfold wsum, cell. cbn [sum_to]. rewrite Hwt. ring.
    + eexists. split; [reflexivity |]. cbn [fst snd].
      split; [assumption |]. split; [cbn [total_count]; rewrite Hwt; lia |].
      intros k Hk. rewrite (Hn k Hk). unfold wsum. cbn [sum_to].
      rewrite Hwt. lra.
  - exists v. cbn [fst snd Nat.add] in *. subst w. auto.
Qed.

(** The second part of [standardizeCellMeans]: every coordinate of every
    cell is divided by the square root of the weighted mean square of that
    coordinate. *)
Lemma rescale_spec (cmn : list (list R)) (cmc : list Z) (K : nat) (v0 : list R) :
  cells_ok cmn cmc K -> is_int (total_count cmc (length cmn)) ->
  length v0 = K ->
  exists out,
    rescale cmn v0 cmc = Ok out /\ length out = length cmn /\
    (forall q k, (q < length cmn)%nat -> (k < K)%nat ->
       cell out q k = cell cmn q k / sqrt (wvar cmn cmc k)).
Proof.
  intros Hok Hint Hv0.
  destruct (scale_loop cmn cmc K v0 Hok Hint Hv0) as [V [HV [HlV HnV]]].
  pose proof Hok as (Hne & Hrows & Hlen).
  unfold rescale. rewrite HV. cbn [bind fst snd].
  set (sd := map Sqrt (Scale (1 / IZR (total_count cmc (length cmn))) V)).
  assert (Hlsd : length sd = K)
    by (unfold sd; now rewrite length_map, Scale_length).
  assert (Hnsd : forall k, (k < K)%nat -> nth k sd 0 = sqrt (wvar cmn cmc k)).
  { intros k Hk. unfold sd.
    rewrite (nth_indep _ 0 (Sqrt 0))
      by (rewrite length_map, Scale_length; lia).
    rewrite map_nth, Scale_nth, (HnV k Hk). unfold Sqrt. f_equal.
    unfold wvar, Rdiv. ring. }
  set (g := fun u => zipWith (fun x vj => x / vj) u sd).
  rewrite (mapM_map (div_row sd) g).
  - exists (map g cmn). split; [reflexivity |].
    split; [apply length_map |].
    intros q k Hq Hk. unfold cell. rewrite nth_map_row by assumption.
    pose proof (cells_ok_row cmn cmc K q Hok Hq) as Hu.
    unfold g. rewrite zipWith_nth, (Hnsd k Hk) by lia. reflexivity.
  - eapply Forall_impl; [| exact Hrows].
    intros u Hu. cbn beta. apply div_row_spec. congruence.
Qed.

Lemma wsum_ext (cmc : list Z) (n : nat) (f g : nat -> R) :
  (forall q, (q < n)%nat -> f q = g q) -> wsum cmc n f = wsum cmc n g.
Proof.
  intros H. unfold wsum. apply sum_to_ext. intros q Hq. now rewrite H.
Qed.

Lemma wsum_affine (cmc : list Z) (n : nat) (a b : R) (f : nat -> R) :
  wsum cmc n (fun q => a * f q + b)
  = a * wsum cmc n f + b * IZR (total_count cmc n).
Proof.
  unfold wsum. induction n as [| n IH]; simpl; [lra |].
  rewrite IH, plus_IZR. ring.
Qed.

(** What [standardizeCellMeans] leaves in every cell. *)
Lemma standardizeCellMeans_cells (cmn : list (list R)) (cmc : list Z) (K : nat) :
  cells_ok cmn cmc K -> is_int (total_count cmc (length cmn)) ->
  exists out,
    standardizeCellMeans cmn cmc = Ok out /\ length out = length cmn /\
    (forall q k, (q < length cmn)%nat -> (k < K)%nat ->
       cell out q k
       = (cell cmn q k - wmean cmn cmc k) / sqrt (cvar cmn cmc k)).
Proof.
  intros Hok Hint.
  destruct (center_spec cmn cmc K Hok Hint)
    as (cmn' & v & Hc & Hlv & Hok' & Hl' & _ & Hcell).
  destruct (rescale_spec cmn' cmc K v Hok') as (out & Hr & Hlo & Hout);
    [now rewrite Hl' | assumption |].
  exists out. unfold standardizeCellMeans. rewrite Hc. cbn [bind fst snd].
  split; [exact Hr |]. split; [congruence |].
  intros q k Hq Hk. rewrite Hout by (try rewrite Hl'; assumption).
  rewrite (Hcell q k Hq Hk). f_equal. f_equal.
  unfold wvar, cvar. rewrite Hl'. f_equal.
  apply wsum_ext. intros q' Hq'. now rewrite (Hcell q' k Hq' Hk).
Qed.

(** C6: for cell vectors of one length with one count per cell, a total
    count within the range of [int], and a positive weighted variance of the
    centered means in every dimension, [standardizeCellMeans] returns, and
    over the populated cells the count-weighted mean of the result is 0 and
    its count-weighted mean square is 1 in every dimension. *)
Theorem standardizeCellMeans_standardized
  (cmn : list (list R)) (cmc : list Z) (K : nat) :
  cells_ok cmn cmc K -> is_int (total_count cmc (length cmn)) ->
  (forall k, (k < K)%nat -> 0 < cvar cmn cmc k) ->
  exists out,
    standardizeCellMeans cmn cmc = Ok out /\ length out = length cmn /\
    forall k, (k < K)%nat -> wmean out cmc k = 0 /\ wvar out cmc k = 1.
Proof.
  intros Hok Hint Hvar.
  destruct (standardizeCellMeans_cells cmn cmc K Hok Hint)
    as (out & Hs & Hl & Hout).
  exists out. split; [exact Hs |]. split; [exact Hl |].
  intros k Hk. specialize (Hvar k Hk).
  set (W := IZR (total_count cmc (length cmn))) in *.
  assert (HW : 0 < W).
  { assert (H0 : 0 <= W)
      by (apply IZR_le, (total_count_mono cmc 0 (length cmn)); lia).
    destruct H0 as [H0 | H0]; [assumption |].
    unfold cvar in Hvar. fold W in Hvar. rewrite <- H0 in Hvar.
    unfold Rdiv in Hvar. rewrite Rinv_0, Rmult_0_r in Hvar. lra. }
  pose proof (sqrt_lt_R0 _ Hvar) as Hsd.
  pose proof (sqrt_sqrt _ (Rlt_le _ _ Hvar)) as Hsq.
  set (s := sqrt (cvar cmn cmc k)) in *.
  set (m := wmean cmn cmc k) in *.
  assert (Hm : wsum cmc (length cmn) (fun q => cell cmn q k) = m * W).
  { unfold m, wmean. fold W. field. lra. }
  split.
  - unfold wmean. rewrite Hl. fold W.
    rewrite (wsum_ext cmc (length cmn) _
               (fun q => / s * cell cmn q k + - m / s)).
    + rewrite wsum_affine, Hm. fold W. field. lra.
    + intros q Hq. rewrite (Hout q k Hq Hk). fold m s. field. lra.
  - unfold wvar. rewrite Hl. fold W.
    rewrite (wsum_ext cmc (length cmn) _
               (fun q => / (s * s) * ((cell cmn q k - m) * (cell cmn q k - m)) + 0)).
    + rewrite wsum_affine, Hsq.
      assert (Hc : wsum cmc (length cmn)
                     (fun q => (cell cmn q k - m) * (cell cmn q k - m))
                   = cvar cmn cmc k * W).
      { unfold cvar. fold m W. field. lra. }
      rewrite Hc. field. lra.
    + intros q Hq. rewrite !(Hout q k Hq Hk). fold m s. field. lra.
Qed.

Lemma standardizeCellMeans_standardized_witness :
  exists out,
    standardizeCellMeans [[1]; [7]; [3]] [1; 0; 1]%Z = Ok out /\
    length out = 3%nat /\
    forall k, (k < 1)%nat ->
      wmean out [1; 0; 1]%Z k = 0 /\ wvar out [1; 0; 1]%Z k = 1.
Proof.
  apply (standardizeCellMeans_standardized [[1]; [7]; [3]] [1; 0; 1]%Z 1).
  - split; [discriminate |]. split; [| reflexivity].
    repeat constructor.
  - vm_compute. split; [discriminate | reflexivity].
  - intros k Hk. assert (k = 0%nat) as -> by lia.
    assert (HM : wmean [[1]; [7]; [3]] [1; 0; 1]%Z 0 = 2).
    { unfold wmean, wsum, cell. simpl.
      change (weight [1; 0; 1]%Z 0) with 1%Z.
      change (weight [1; 0; 1]%Z 1) with 0%Z.
      change (weight [1; 0; 1]%Z 2) with 1%Z. simpl. lra. }
    unfold cvar. rewrite HM. unfold wsum, cell. simpl.
    change (weight [1; 0; 1]%Z 0) with 1%Z.
    change (weight [1; 0; 1]%Z 1) with 0%Z.
    change (weight [1; 0; 1]%Z 2) with 1%Z. simpl. lra.
Defined.

(** * Further properties *)

(** ** getBrakeProb: what it returns *)

Lemma mapM_index_nth (l : list R) (ii : list Z) :
  Forall (fun k => (0 <= k < len l)%Z) ii ->
  mapM (index l) ii = Ok (map (fun i => nth (Z.to_nat i) l 0) ii).
Proof.
  intros H. apply mapM_map. eapply Forall_impl; [| exact H].
  intros k Hk. cbn beta in *. unfold len in Hk.
  replace k with (Z.of_nat (Z.to_nat k)) at 1 by lia.
  apply index_of_nat. lia.
Qed.

Lemma reordered_ok (sc br : list R) :
  (length sc <= length br)%nat ->
  mapM (index br) (snd (Argsort sc)) = Ok (reordered sc br).
Proof.
  intros H. apply mapM_index_nth.
  eapply Forall_impl; [| apply Argsort_inds_range].
  intros k Hk. cbn beta in *. unfold len in *. lia.
Qed.

Lemma reordered_length (sc br : list R) :
  length (reordered sc br) = length sc.
Proof. unfold reordered. now rewrite length_map, Argsort_inds_length. Qed.

(** After [n] rounds of the loop over [i], entry [j] of [z] is the number of
    rounds with outcome 1 whose window holds [j]. *)
Lemma brake_loop_spec (b : list R) (w n : nat) :
  (n + 2 * w <= length b)%nat -> is_int (len b) ->
  exists z, for_loop n (Z.of_nat w) (brake_step b (Z.of_nat w))
              (repeat 0 (length b)) = Ok z /\
            length z = length b /\
            forall j, nth j z 0 = IZR (window_count b w n j).
Proof.
  intros Hn Hint.
  destruct (for_loop_total
              (fun k z => length z = length b /\
                 forall j, nth j z 0 = IZR (window_count b w (k - w) j))
              (brake_step b (Z.of_nat w)) n w (repeat 0 (length b)))
    as [z [Hz [Hl Hc]]].
  - split; [apply repeat_length |]. intros j.
    rewrite Nat.sub_diag. apply nth_repeat_0.
  - intros k z Hk [Hl Hc]. unfold brake_step.
    rewrite (index_of_nat b k 0) by lia. cbn [bind].
    assert (Hstep : forall j,
              window_count b w (S k - w) j
              = (window_count b w (k - w) j
                 + if feq (nth k b 0%R) 1%R
                      && (Nat.leb (k - w) j && Nat.ltb j (k - w + 2 * w)%nat)
                   then 1 else 0)%Z).
    { intros j. replace (S k - w)%nat with (S (k - w)) by lia.
      unfold window_count. cbn [count_if].
      replace (w + (k - w))%nat with k by lia. reflexivity. }
    destruct (feq (nth k b 0) 1).
    + destruct (bump_window_spec (k - w) w z) as [z' [Hz' [Hl' Hn']]];
        [lia | unfold len in *; now rewrite Hl |].
      replace (Z.of_nat (k - w) + Z.of_nat w)%Z with (Z.of_nat k) in Hz' by lia.
      exists z'. split; [exact Hz' |]. split; [congruence |].
      intros j. rewrite Hn', Hc, Hstep. cbn [andb]. rewrite plus_IZR.
      destruct (Nat.leb (k - w) j && Nat.ltb j (k - w + 2 * w)); reflexivity.
    + exists z. split; [reflexivity |]. split; [assumption |].
      intros j. rewrite Hc, Hstep. cbn [andb]. now rewrite Z.add_0_r.
  - exists z. split; [exact Hz |]. split; [exact Hl |].
    intros j. rewrite Hc. replace (w + n - w)%nat with n by lia. reflexivity.
Qed.

Lemma Sorted_skipn (l : list R) (n : nat) : Sorted Rle l -> Sorted Rle (skipn n l).
Proof.
  revert l. induction n as [| n IH]; intros l Hs; [exact Hs |].
  destruct l as [| x t]; [constructor |]. simpl. apply IH.
  now inversion Hs.
Qed.

Lemma Sorted_firstn (l : list R) (n : nat) : Sorted Rle l -> Sorted Rle (firstn n l).
Proof.
  revert l. induction n as [| n IH]; intros l Hs; [constructor |].
  destruct l as [| x t]; [constructor |]. simpl.
  inversion Hs as [| ? ? Hs' Hhd]; subst. constructor; [now apply IH |].
  destruct t as [| y t']; destruct n; simpl; constructor.
  now inversion Hhd.
Qed.

(** The common part of the properties below: the call returns, and what the
    two slices hold. *)
Lemma getBrakeProb_spec (sc br : list R) (w : nat) :
  (length sc <= length br)%nat -> is_int (len sc) ->
  (2 * w <= length sc)%nat ->
  snd (getBrakeProb sc br (Z.of_nat w))
  = Ok (firstn (length sc - 2 * w) (skipn w (fst (Argsort sc))),
        firstn (length sc - 2 * w)
          (skipn w
             (map (fun j => IZR (window_count (reordered sc br) w
                                   (length sc - 2 * w) j)
                            / IZR (wrap (2 * Z.of_nat w)))
                (seq 0 (length sc))))).
Proof.
  intros Hbr Hint H2w. unfold getBrakeProb.
  pose proof (Argsort_length sc) as Hsc'.
  pose proof (reordered_ok sc br Hbr) as Hb.
  pose proof (reordered_length sc br) as Hlb.
  unfold reordered in *.
  destruct (Argsort sc) as [sc' ii].
  cbn [fst snd] in *. rewrite Hb. cbn [bind].
  set (b := map (fun i => nth (Z.to_nat i) br 0) ii) in *.
  unfold is_int, len in Hint.
  unfold len. rewrite Hlb, Hsc'.
  rewrite (wrap_small (Z.of_nat (length sc) - Z.of_nat w))
    by (unfold is_int; lia).
  unfold for_range.
  replace (Z.to_nat (Z.of_nat (length sc) - Z.of_nat w - Z.of_nat w))
    with (length sc - 2 * w)%nat by lia.
  destruct (brake_loop_spec b w (length sc - 2 * w)) as [z [Hz [Hlz Hnz]]];
    [lia | unfold is_int, len; lia |].
  rewrite Hlb in Hz. rewrite Hz. cbn [bind].
  rewrite length_map, Hlz, Hlb.
  rewrite (wrap_small (Z.of_nat (length sc) - Z.of_nat w))
    by (unfold is_int; lia).
  replace (Z.of_nat (length sc) - Z.of_nat w)%Z
    with (Z.of_nat (length sc - w)) by lia.
  rewrite !slice_ok by (rewrite ?length_map; lia). cbn [bind].
  replace (length sc - w - w)%nat with (length sc - 2 * w)%nat by lia.
  do 4 f_equal.
  apply (nth_ext _ _ 0 0).
  - rewrite !length_map, length_seq. congruence.
  - intros k Hk. rewrite length_map in Hk.
    rewrite (nth_indep _ 0 ((fun x => x / IZR (wrap (2 * Z.of_nat w))) 0))
      by (rewrite length_map; lia).
    rewrite (map_nth (fun x => x / IZR (wrap (2 * Z.of_nat w)))), Hnz.
    rewrite (nth_indep _ 0
               ((fun j => IZR (window_count b w (length sc - 2 * w) j)
                          / IZR (wrap (2 * Z.of_nat w))) 0%nat))
      by (rewrite length_map, length_seq; lia).
    rewrite (map_nth (fun j => IZR (window_count b w (length sc - 2 * w) j)
                               / IZR (wrap (2 * Z.of_nat w)))).
    rewrite seq_nth by lia. reflexivity.
Qed.

Lemma reordered_Forall (P : R -> Prop) (sc br : list R) :
  (length sc <= length br)%nat -> Forall P br -> Forall P (reordered sc br).
Proof.
  intros Hlen HP. unfold reordered. apply Forall_map.
  eapply Forall_impl; [| apply Argsort_inds_range].
  intros k Hk. cbn beta in *. unfold len in Hk.
  apply (proj1 (Forall_nth P br) HP). lia.
Qed.

Lemma count_if_window (f : nat -> bool) (a m n : nat) :
  (forall t, f t = true -> (a <= t < a + m)%nat) ->
  (0 <= count_if f n <= Z.of_nat m)%Z.
Proof.
  intros H. split; [apply count_if_nonneg |].
  assert (Hn : (count_if f n <= Z.of_nat (Nat.min n (a + m) - a))%Z).
  { induction n as [| n IH]; cbn [count_if]; [lia |].
    destruct (f n) eqn:E; [apply H in E |]; lia. }
  lia.
Qed.

Lemma count_if_block (f : nat -> bool) (a m n : nat) :
  (a + m <= n)%nat ->
  (forall t, (t < n)%nat -> f t = Nat.leb a t && Nat.ltb t (a + m)) ->
  count_if f n = Z.of_nat m.
Proof.
  intros Hn H.
  assert (Hk : forall k, (k <= n)%nat ->
            count_if f k = Z.of_nat (Nat.min k (a + m) - Nat.min k a)).
  { induction k as [| k IH]; intros Hk; cbn [count_if]; [reflexivity |].
    rewrite IH, H by lia.
    destruct (Nat.leb_spec a k), (Nat.ltb_spec k (a + m)); cbn [andb]; lia. }
  rewrite (Hk n) by lia. lia.
Qed.

Lemma window_count_range (b : list R) (w n j : nat) :
  (0 <= window_count b w n j <= Z.of_nat (2 * w))%Z.
Proof.
  apply (count_if_window _ (j + 1 - 2 * w)).
  intros t Ht. apply andb_prop in Ht as [_ Ht].
  apply andb_prop in Ht as [H1 H2].
  apply Nat.leb_le in H1. apply Nat.ltb_lt in H2. lia.
Qed.

(** X1: for [1 <= w], [2w <= N] and [br] at least as long as [sc],
    [getBrakeProb] returns two slices of length [N - 2w]; the first is the
    middle of the sorted scores: [sc] is a permutation of [lo ++ s1 ++ hi]
    for two slices [lo] and [hi] of length [w], and [lo ++ s1 ++ hi] is in
    increasing order. *)
Theorem getBrakeProb_returns_trimmed (sc br : list R) (w : nat) :
  (length sc <= length br)%nat -> is_int (len sc) ->
  (1 <= w)%nat -> (2 * w <= length sc)%nat ->
  exists s1 s2,
    snd (getBrakeProb sc br (Z.of_nat w)) = Ok (s1, s2) /\
    length s1 = (length sc - 2 * w)%nat /\
    length s2 = (length sc - 2 * w)%nat /\
    exists lo hi,
      length lo = w /\ length hi = w /\
      Permutation sc (lo ++ s1 ++ hi) /\ Sorted Rle (lo ++ s1 ++ hi).
Proof.
  intros Hbr Hint Hw H2w.
  rewrite (getBrakeProb_spec sc br w Hbr Hint H2w).
  pose proof (Argsort_length sc) as Hl.
  pose proof (Argsort_perm sc) as Hp.
  pose proof (Argsort_sorted sc) as Hs.
  set (S := fst (Argsort sc)) in *.
  eexists. eexists. split; [reflexivity |].
  split; [rewrite length_firstn, length_skipn; lia |].
  split; [rewrite length_firstn, length_skipn, length_map, length_seq; lia |].
  exists (firstn w S), (skipn (length sc - 2 * w) (skipn w S)).
  split; [rewrite length_firstn; lia |].
  split; [rewrite !length_skipn; lia |].
  rewrite (firstn_skipn (length sc - 2 * w) (skipn w S)).
  rewrite (firstn_skipn w S). split; assumption.
Qed.

Lemma getBrakeProb_returns_trimmed_witness :
  exists s1 s2,
    snd (getBrakeProb [1; 5; 2; 4; 3] [0; 1; 0; 1; 0] (Z.of_nat 1))
    = Ok (s1, s2) /\
    length s1 = 3%nat /\ length s2 = 3%nat /\
    exists lo hi,
      length lo = 1%nat /\ length hi = 1%nat /\
      Permutation [1; 5; 2; 4; 3] (lo ++ s1 ++ hi) /\
      Sorted Rle (lo ++ s1 ++ hi).
Proof.
  apply (getBrakeProb_returns_trimmed [1; 5; 2; 4; 3] [0; 1; 0; 1; 0] 1).
  - simpl. lia.
  - vm_compute. split; [discriminate | reflexivity].
  - lia.
  - simpl. lia.
Defined.

(** X2: under the same conditions every entry of the returned accumulator
    slice is [c / 2w] for an integer [0 <= c <= 2w], the number of
    observations with outcome 1 among the rounds whose window holds the
    position; so it lies in [[0, 1]]. *)
Theorem getBrakeProb_entries_in_unit (sc br : list R) (w : nat) :
  (length sc <= length br)%nat -> is_int (len sc) ->
  (1 <= w)%nat -> (2 * w <= length sc)%nat ->
  exists s1 s2,
    snd (getBrakeProb sc br (Z.of_nat w)) = Ok (s1, s2) /\
    forall k, (k < length s2)%nat ->
      exists c, (0 <= c <= 2 * Z.of_nat w)%Z /\
                c = window_count (reordered sc br) w (length sc - 2 * w) (w + k) /\
                nth k s2 0 = IZR c / IZR (2 * Z.of_nat w) /\
                0 <= nth k s2 0 <= 1.
Proof.
  intros Hbr Hint Hw H2w.
  rewrite (getBrakeProb_spec sc br w Hbr Hint H2w).
  eexists. eexists. split; [reflexivity |].
  intros k Hk.
  rewrite length_firstn, length_skipn, length_map, length_seq in Hk.
  pose proof (window_count_range (reordered sc br) w (length sc - 2 * w) (w + k))
    as Hc.
  set (c := window_count (reordered sc br) w (length sc - 2 * w) (w + k)) in *.
  exists c. split; [lia |]. split; [reflexivity |].
  assert (Hv : nth k (firstn (length sc - 2 * w)
                  (skipn w
                     (map (fun j => IZR (window_count (reordered sc br) w
                                           (length sc - 2 * w) j)
                                    / IZR (wrap (2 * Z.of_nat w)))
                        (seq 0 (length sc))))) 0
               = IZR c / IZR (2 * Z.of_nat w)).
  { rewrite nth_firstn.
    destruct (Nat.ltb_spec k (length sc - 2 * w)); [| lia].
    rewrite nth_skipn.
    rewrite (nth_indep _ 0
               ((fun j => IZR (window_count (reordered sc br) w
                                 (length sc - 2 * w) j)
                          / IZR (wrap (2 * Z.of_nat w))) 0%nat))
      by (rewrite length_map, length_seq; lia).
    rewrite (map_nth (fun j => IZR (window_count (reordered sc br) w
                                      (length sc - 2 * w) j)
                               / IZR (wrap (2 * Z.of_nat w)))).
    rewrite seq_nth by lia. cbn [Nat.add].
    unfold is_int, len in Hint.
    rewrite wrap_small by (unfold is_int; lia). reflexivity. }
  split; [exact Hv |]. rewrite Hv.
  assert (H2 : 0 < IZR (2 * Z.of_nat w)) by (apply IZR_lt; lia).
  destruct Hc as [Hc0 Hc1]. apply IZR_le in Hc0, Hc1.
  replace (Z.of_nat (2 * w)) with (2 * Z.of_nat w)%Z in Hc1 by lia.
  split.
  - apply Rmult_le_pos; [assumption | left; now apply Rinv_0_lt_compat].
  - apply (Rmult_le_reg_r (IZR (2 * Z.of_nat w))); [assumption |].
    unfold Rdiv. rewrite Rmult_assoc, Rinv_l by lra. lra.
Qed.

Lemma getBrakeProb_entries_in_unit_witness :
  exists s1 s2,
    snd (getBrakeProb [1; 5; 2; 4; 3] [0; 1; 0; 1; 0] (Z.of_nat 1))
    = Ok (s1, s2) /\
    forall k, (k < length s2)%nat ->
      exists c, (0 <= c <= 2 * Z.of_nat 1)%Z /\
                c = window_count (reordered [1; 5; 2; 4; 3] [0; 1; 0; 1; 0])
                      1 (length [1; 5; 2; 4; 3] - 2 * 1) (1 + k) /\
                nth k s2 0 = IZR c / IZR (2 * Z.of_nat 1) /\
                0 <= nth k s2 0 <= 1.
Proof.
  apply (getBrakeProb_entries_in_unit [1; 5; 2; 4; 3] [0; 1; 0; 1; 0] 1).
  - simpl. lia.
  - vm_compute. split; [discriminate | reflexivity].
  - lia.
  - simpl. lia.
Defined.

(** Entry [k] of the accumulator slice that [getBrakeProb_spec] gives. *)
Lemma trimmed_acc_nth (b : list R) (w N k : nat) :
  is_int (Z.of_nat N) -> (2 * w <= N)%nat -> (k < N - 2 * w)%nat ->
  nth k (firstn (N - 2 * w)
           (skipn w
              (map (fun j => IZR (window_count b w (N - 2 * w) j)
                             / IZR (wrap (2 * Z.of_nat w)))
                 (seq 0 N)))) 0
  = IZR (window_count b w (N - 2 * w) (w + k)) / IZR (2 * Z.of_nat w).
Proof.
  intros Hint H2w Hk. rewrite nth_firstn.
  destruct (Nat.ltb_spec k (N - 2 * w)); [| lia].
  rewrite nth_skipn.
  rewrite (nth_indep _ 0
             ((fun j => IZR (window_count b w (N - 2 * w) j)
                        / IZR (wrap (2 * Z.of_nat w))) 0%nat))
    by (rewrite length_map, length_seq; lia).
  rewrite (map_nth (fun j => IZR (window_count b w (N - 2 * w) j)
                             / IZR (wrap (2 * Z.of_nat w)))).
  rewrite seq_nth by lia. cbn [Nat.add].
  unfold is_int in Hint.
  rewrite wrap_small by (unfold is_int; lia). reflexivity.
Qed.

(** X3: when no outcome is 1, every entry of the returned accumulator slice
    is 0. *)
Theorem getBrakeProb_no_event (sc br : list R) (w : nat) :
  (length sc <= length br)%nat -> is_int (len sc) ->
  (1 <= w)%nat -> (2 * w <= length sc)%nat ->
  Forall (fun x => x <> 1) br ->
  exists s1 s2,
    snd (getBrakeProb sc br (Z.of_nat w)) = Ok (s1, s2) /\
    length s2 = (length sc - 2 * w)%nat /\
    Forall (fun p => p = 0) s2.
Proof.
  intros Hbr Hint Hw H2w Hz.
  rewrite (getBrakeProb_spec sc br w Hbr Hint H2w).
  eexists. eexists. split; [reflexivity |].
  assert (Hlen : length (firstn (length sc - 2 * w)
                   (skipn w
                      (map (fun j => IZR (window_count (reordered sc br) w
                                            (length sc - 2 * w) j)
                                     / IZR (wrap (2 * Z.of_nat w)))
                         (seq 0 (length sc)))))
                 = (length sc - 2 * w)%nat)
    by (rewrite length_firstn, length_skipn, length_map, length_seq; lia).
  split; [exact Hlen |].
  apply Forall_nth. intros k d Hk. rewrite Hlen in Hk.
  rewrite (nth_indep _ d 0) by (rewrite Hlen; exact Hk).
  rewrite trimmed_acc_nth by assumption.
  replace (window_count (reordered sc br) w (length sc - 2 * w) (w + k))
    with 0%Z; [unfold Rdiv; apply Rmult_0_l |].
  symmetry. unfold window_count.
  rewrite (count_if_ext _ (fun _ => false)).
  - clear. induction (length sc - 2 * w)%nat; simpl; lia.
  - intros t Ht.
    pose proof (reordered_Forall _ sc br Hbr Hz) as Hb.
    rewrite feq_false; [reflexivity |].
    destruct (Nat.lt_ge_cases (w + t) (length (reordered sc br))) as [Hin | Hout].
    + apply (proj1 (Forall_nth _ _) Hb). exact Hin.
    + rewrite nth_overflow by assumption. lra.
Qed.

Lemma getBrakeProb_no_event_witness :
  exists s1 s2,
    snd (getBrakeProb [1; 5; 2; 4; 3] [0; 0; 0; 0; 0] (Z.of_nat 1))
    = Ok (s1, s2) /\
    length s2 = 3%nat /\ Forall (fun p => p = 0) s2.
Proof.
  apply (getBrakeProb_no_event [1; 5; 2; 4; 3] [0; 0; 0; 0; 0] 1).
  - simpl. lia.
  - vm_compute. split; [discriminate | reflexivity].
  - lia.
  - simpl. lia.
  - repeat constructor; lra.
Defined.

(** X4: when every outcome is 1, the entries of the returned accumulator
    slice at the positions [k] with [w - 1 <= k] and [k + 3w < N] are 1:
    these are the positions whose [2w] rounds all ran. *)
Theorem getBrakeProb_ones_interior (sc br : list R) (w : nat) :
  length br = length sc -> is_int (len sc) ->
  (1 <= w)%nat -> (2 * w <= length sc)%nat ->
  Forall (fun x => x = 1) br ->
  exists s1 s2,
    snd (getBrakeProb sc br (Z.of_nat w)) = Ok (s1, s2) /\
    length s2 = (length sc - 2 * w)%nat /\
    forall k, (w - 1 <= k)%nat -> (k + 3 * w < length sc)%nat ->
              nth k s2 0 = 1.
Proof.
  intros Hbr Hint Hw H2w Hones.
  assert (Hbr' : (length sc <= length br)%nat) by lia.
  rewrite (getBrakeProb_spec sc br w Hbr' Hint H2w).
  eexists. eexists. split; [reflexivity |].
  split; [rewrite length_firstn, length_skipn, length_map, length_seq; lia |].
  intros k Hk1 Hk2.
  rewrite trimmed_acc_nth by (try assumption; lia).
  replace (window_count (reordered sc br) w (length sc - 2 * w) (w + k))
    with (Z.of_nat (2 * w)).
  - replace (Z.of_nat (2 * w)) with (2 * Z.of_nat w)%Z by lia.
    apply Rinv_r. apply not_0_IZR. lia.
  - symmetry. unfold window_count.
    apply (count_if_block _ (w + k + 1 - 2 * w)); [lia |].
    intros t Ht.
    pose proof (reordered_Forall _ sc br Hbr' Hones) as Hb.
    rewrite feq_true.
    + destruct (Nat.leb_spec t (w + k)), (Nat.ltb_spec (w + k) (t + 2 * w)),
        (Nat.leb_spec (w + k + 1 - 2 * w) t),
        (Nat.ltb_spec t (w + k + 1 - 2 * w + 2 * w)); cbn [andb];
        try reflexivity; lia.
    + apply (proj1 (Forall_nth _ _) Hb). rewrite reordered_length. lia.
Qed.

Lemma getBrakeProb_ones_interior_witness :
  exists s1 s2,
    snd (getBrakeProb [1; 5; 2; 4; 3] [1; 1; 1; 1; 1] (Z.of_nat 1))
    = Ok (s1, s2) /\
    length s2 = 3%nat /\
    forall k, (1 - 1 <= k)%nat -> (k + 3 * 1 < 5)%nat -> nth k s2 0 = 1.
Proof.
  apply (getBrakeProb_ones_interior [1; 5; 2; 4; 3] [1; 1; 1; 1; 1] 1).
  - reflexivity.
  - vm_compute. split; [discriminate | reflexivity].
  - lia.
  - simpl. lia.
  - repeat constructor.
Defined.

Lemma getBrakeProb_ones_last_witness :
  exists s1 s2,
    snd (getBrakeProb [1; 5; 2; 4; 3] [1; 1; 1; 1; 1] (Z.of_nat 1))
    = Ok (s1, s2) /\
    length s2 = (5 - 2 * 1)%nat /\
    nth (length s2 - 1) s2 0 <= 1 / 2.
Proof.
  apply (getBrakeProb_ones_last [1; 5; 2; 4; 3] [1; 1; 1; 1; 1] 1).
  - reflexivity.
  - repeat constructor.
  - vm_compute. split; [discriminate | reflexivity].
  - lia.
  - simpl. lia.
Defined.

(** ** getBrakeProb: when it panics *)

Lemma mapM_index_inv {A : Type} (l : list A) (ii : list Z) (b : list A) :
  mapM (index l) ii = Ok b -> Forall (fun k => (0 <= k < len l)%Z) ii.
Proof.
  revert b. induction ii as [| i t IH]; simpl; intros b H; [constructor |].
  apply bind_Ok in H as [a [Ha H]].
  apply bind_Ok in H as [bs [Hbs _]].
  constructor; [| now apply (IH bs)].
  apply index_nth in Ha as [H0 [Hlt _]]. unfold len. lia.
Qed.

Lemma index_panic {A : Type} (l : list A) (i : Z) (p : panic) :
  index l i = Panic p -> p = IndexOutOfRange.
Proof.
  unfold index. destruct (i <? 0)%Z; [congruence |].
  destruct (nth_error l (Z.to_nat i)); congruence.
Qed.

Lemma store_panic {A : Type} (l : list A) (i : Z) (a : A) (p : panic) :
  store l i a = Panic p -> p = IndexOutOfRange.
Proof.
  unfold store. destruct (i <? 0)%Z; [congruence |].
  destruct (i <? len l)%Z; congruence.
Qed.

Lemma mapM_index_panic {A : Type} (l : list A) (ii : list Z) (p : panic) :
  mapM (index l) ii = Panic p -> p = IndexOutOfRange.
Proof.
  induction ii as [| i t IH]; simpl; [discriminate |].
  destruct (index l i) as [a | e] eqn:Ei; simpl.
  - destruct (mapM (index l) t) as [bs | e]; simpl; [discriminate |].
    intros [= <-]. now apply IH.
  - intros [= <-]. now apply (index_panic l i).
Qed.

Lemma indices_In (n : nat) (i k : Z) :
  (i <= k < i + Z.of_nat n)%Z -> In k (indices n i).
Proof.
  revert i. induction n as [| n IH]; intros i H; [lia |]. simpl.
  destruct (Z.eq_dec i k); [now left | right]. apply IH. lia.
Qed.

Lemma Argsort_inds_perm (dst : list R) :
  Permutation (indices (length dst) 0) (snd (Argsort dst)).
Proof.
  unfold Argsort; simpl.
  rewrite <- (combine_indices_snd dst 0) at 1.
  apply Permutation_map, Permutation_sym, sort_keys_perm.
Qed.

(** X6: [getBrakeProb] panics with an index out of range when [br] is
    shorter than [sc] (at the read of [br[i]]), and when [w] is negative (at
    the read of [b[w]]). *)
Theorem getBrakeProb_panics (sc br : list R) (w : Z) :
  ((length br < length sc)%nat ->
   snd (getBrakeProb sc br w) = Panic IndexOutOfRange) /\
  ((length sc <= length br)%nat -> (w < 0)%Z -> is_int (len sc - w) ->
   snd (getBrakeProb sc br w) = Panic IndexOutOfRange).
Proof.
  split.
  - intros Hlt. unfold getBrakeProb.
    pose proof (Argsort_inds_perm sc) as Hp.
    destruct (Argsort sc) as [sc' ii]. cbn [fst snd] in *.
    destruct (mapM (index br) ii) as [b | p] eqn:Eb; cbn [bind].
    + exfalso. apply mapM_index_inv in Eb.
      assert (Hin : In (Z.of_nat (length sc - 1)) ii).
      { apply (Permutation_in _ Hp), indices_In. lia. }
      apply (proj1 (Forall_forall _ _) Eb) in Hin. unfold len in Hin. lia.
    + now rewrite (mapM_index_panic br ii p Eb).
  - intros Hle Hw Hint. unfold getBrakeProb.
    pose proof (reordered_ok sc br Hle) as Hb.
    pose proof (reordered_length sc br) as Hlb.
    unfold reordered in *.
    destruct (Argsort sc) as [sc' ii]. cbn [fst snd] in *.
    rewrite Hb. cbn [bind].
    unfold len at 1. rewrite Hlb. fold (len sc).
    rewrite wrap_small by assumption.
    unfold for_range.
    assert (Hn : exists n, Z.to_nat (len sc - w - w) = S n).
    { exists (Z.to_nat (len sc - w - w) - 1)%nat. unfold len. lia. }
    destruct Hn as [n ->]. cbn [for_loop]. unfold brake_step at 1.
    unfold index at 1. destruct (Z.ltb_spec w 0); [| lia]. reflexivity.
Qed.

Lemma getBrakeProb_panics_witness :
  snd (getBrakeProb [1; 5; 2] [0; 1] 1) = Panic IndexOutOfRange /\
  snd (getBrakeProb [1; 5; 2] [0; 1; 0] (-1)) = Panic IndexOutOfRange.
Proof.
  split.
  - apply (proj1 (getBrakeProb_panics [1; 5; 2] [0; 1] 1)). simpl. lia.
  - apply (proj2 (getBrakeProb_panics [1; 5; 2] [0; 1; 0] (-1))).
    + simpl. lia.
    + lia.
    + vm_compute. split; [discriminate | reflexivity].
Defined.

(** ** heatMap: sparse data and short arrays *)

Lemma bind_Panic {A B : Type} (r : result A) (k : A -> result B) (p : panic) :
  bind r k = Panic p -> r = Panic p \/ exists a, r = Ok a /\ k a = Panic p.
Proof. destruct r as [a | e]; simpl; [eauto | intros [= <-]; auto]. Qed.

(** A loop panics as one of its rounds does. *)
Lemma for_loop_panic {St : Type} (Q : panic -> Prop)
  (body : Z -> St -> result St) (n : nat) :
  (forall i s p, body i s = Panic p -> Q p) ->
  forall i s p, for_loop n i body s = Panic p -> Q p.
Proof.
  intros Hb. induction n as [| n IH]; intros i s p; simpl; [discriminate |].
  intros H. apply bind_Panic in H as [H | [t [_ H]]]; eauto.
Qed.

Lemma in_bounds_panic (row col : list Z) (i : Z) (p : panic) :
  in_bounds row col i = Panic p -> p = IndexOutOfRange.
Proof.
  unfold in_bounds. intros H.
  apply bind_Panic in H as [H | [r [_ H]]]; [now apply index_panic in H |].
  destruct (0 <=? r)%Z; [| discriminate].
  apply bind_Panic in H as [H | [c [_ H]]]; [now apply index_panic in H |].
  discriminate.
Qed.

Lemma heat_step_panic (row col : list Z) (y : list R) (i : Z) (s : heat)
  (p : panic) :
  heat_step row col y i s = Panic p -> p = IndexOutOfRange.
Proof.
  unfold heat_step. intros H.
  apply bind_Panic in H as [H | [ib [_ H]]]; [now apply in_bounds_panic in H |].
  destruct ib; [| discriminate].
  repeat match type of H with
  | bind _ _ = Panic _ =>
      apply bind_Panic in H as [H | [? [_ H]]];
      [first [ now apply index_panic in H | now apply store_panic in H
             | idtac ] |]
  end; try discriminate.
  destruct (feq _ 1); [| discriminate].
  repeat match type of H with
  | bind _ _ = Panic _ =>
      apply bind_Panic in H as [H | [? [_ H]]];
      [first [ now apply index_panic in H | now apply store_panic in H ] |]
  end.
  now apply store_panic in H.
Qed.

(** X7: on aligned arrays with at most [minCount] in-bounds observations,
    every entry of the [rate] array that [heatMap] returns is the sentinel
    [-1]. *)
Theorem heatMap_sparse_all_sentinel (row col : list Z) (y x0 x1 : list R) :
  aligned row col y x0 ->
  (count_if (obs_in row col) (length x0) <= minCount)%Z ->
  exists pr rat den,
    heatMap row col y x0 x1 = Ok (pr, (rat, den)) /\
    length rat = ncells /\ Forall (fun r => r = -1) rat.
Proof.
  intros Ha Hfew.
  destruct (heatMap_accum_total row col y x0 Ha) as [s Hs].
  destruct (heatMap_accum_inv row col y x0 s Hs)
    as (Hln & Hld & _ & _ & _ & _ & Hd & _).
  exists (missed s, hit s), (rates (num s) (denom s)), (denom s).
  split; [now apply heatMap_returns |].
  split; [rewrite rates_length; congruence |].
  apply Forall_nth. intros q d Hq.
  rewrite rates_length in Hq by congruence.
  rewrite (nth_indep _ d 0) by (rewrite rates_length; congruence).
  rewrite rates_nth by congruence. unfold rate.
  destruct (Z.ltb_spec minCount (nth q (denom s) 0%Z)) as [Hgt | _];
    [exfalso | reflexivity].
  rewrite Hd in Hgt by congruence.
  assert (Hle : (count_if (obs_in_cell row col q) (length x0)
                 <= count_if (obs_in row col) (length x0))%Z).
  { apply count_if_le. intros i Hi. unfold obs_in_cell in Hi.
    now apply andb_prop in Hi as [Hi _]. }
  lia.
Qed.

Lemma heatMap_sparse_all_sentinel_witness :
  exists pr rat den,
    heatMap [3; 120]%Z [4; 7]%Z [1; 0] [0; 0] [0; 0] = Ok (pr, (rat, den)) /\
    length rat = ncells /\ Forall (fun r => r = -1) rat.
Proof.
  apply (heatMap_sparse_all_sentinel [3; 120]%Z [4; 7]%Z [1; 0] [0; 0] [0; 0]).
  - repeat split.
  - vm_compute. discriminate.
Defined.

(** X8: [heatMap] panics with an index out of range when [row] is shorter
    than [x0], the slice its loop ranges over. *)
Theorem heatMap_short_row (row col : list Z) (y x0 x1 : list R) :
  (length row < length x0)%nat ->
  heatMap row col y x0 x1 = Panic IndexOutOfRange.
Proof.
  intros Hlt. unfold heatMap.
  destruct (heatMap_accum row col y x0) as [s | p] eqn:E; cbn [bind].
  - exfalso. unfold heatMap_accum, for_range, len in E.
    rewrite Z.sub_0_r, Nat2Z.id in E.
    assert (H : (0 + length x0 <= length row)%nat); [| lia].
    eapply (for_loop_inv (fun k (_ : heat) => (k <= length row)%nat)
              (heat_step row col y) (length x0) 0);
      [apply Nat.le_0_l | | exact E].
    intros k t t' _ _ Hstep. unfold heat_step in Hstep.
    apply bind_Ok in Hstep as [ib [Hib _]].
    apply in_bounds_spec in Hib as [_ [Hk _]]. lia.
  - f_equal. unfold heatMap_accum, for_range in E.
    apply (for_loop_panic (fun p => p = IndexOutOfRange)
             (heat_step row col y) _ (heat_step_panic row col y) _ _ _ E).
Qed.

Lemma heatMap_short_row_witness :
  heatMap [3]%Z [4; 7]%Z [1; 0] [0; 0] [0; 0] = Panic IndexOutOfRange.
Proof.
  apply (heatMap_short_row [3]%Z [4; 7]%Z [1; 0] [0; 0] [0; 0]).
  simpl. lia.
Defined.

(** ** cormat: shapes, symmetry, idempotence *)

Lemma diag_sqrt_inv (x : list R) (p : nat) (s : list R) :
  diag_sqrt x (Z.of_nat p) = Ok s ->
  length s = p /\ (p * p <= length x)%nat.
Proof.
  unfold diag_sqrt, for_range. rewrite Z.sub_0_r, Nat2Z.id. intros H.
  assert (Hinv : length s = p /\
                 ((0 + p = 0)%nat \/
                  ((0 + p - 1) * p + (0 + p - 1) < length x)%nat)).
  { eapply (for_loop_inv
              (fun k s => length s = p /\
                          (k = 0%nat \/ ((k - 1) * p + (k - 1) < length x)%nat))
              _ p 0); [| | exact H].
    - split; [apply repeat_length | now left].
    - intros k t t' Hk [Hl _] Hstep.
      apply bind_Ok in Hstep as [v [Hv Hst]].
      apply index_nth in Hv as [_ [Hlt _]].
      apply store_Ok in Hst as [_ [_ ->]].
      split; [now rewrite update_length | right].
      replace (S k - 1)%nat with k by lia. lia. }
  destruct Hinv as [Hl [H0 | Hlt]]; split; try assumption; nia.
Qed.

Lemma cormat_loop_inv (x s : list R) (p : nat) (y : list R) :
  length s = p ->
  for_range 0 (len x) (cormat_step x s (Z.of_nat p)) (repeat 0 (length x))
  = Ok y ->
  (length x <= p * p)%nat.
Proof.
  intros Hs. unfold for_range, len. rewrite Z.sub_0_r, Nat2Z.id. intros H.
  assert (Hinv : (0 + length x <= p * p)%nat); [| lia].
  eapply (for_loop_inv (fun k (_ : list R) => (k <= p * p)%nat)
            _ (length x) 0); [lia | | exact H].
  intros k t t' Hk Hle Hstep. unfold cormat_step in Hstep.
  apply bind_Ok in Hstep as [v [_ Hstep]].
  destruct (Z.eqb_spec (Z.of_nat p) 0); [discriminate |].
  apply bind_Ok in Hstep as [s1 [Hs1 _]].
  apply index_nth in Hs1 as [_ [Hlt _]].
  rewrite Z.quot_div_nonneg, <- Nat2Z.inj_div, Nat2Z.id in Hlt by lia.
  rewrite Hs in Hlt.
  pose proof (Nat.div_mod_eq k p).
  pose proof (Nat.mod_upper_bound k p ltac:(lia)). nia.
Qed.

(** X9: [cormat x p] returns exactly when [x] has [p * p] entries ([0 <= p]);
    it panics at [make] when [p] is negative. *)
Theorem cormat_returns_iff (x : list R) :
  (forall p : nat,
     (exists y, cormat x (Z.of_nat p) = Ok y) <-> length x = (p * p)%nat) /\
  (forall p : Z, (p < 0)%Z -> cormat x p = Panic NegativeLen).
Proof.
  split.
  - intros p. split.
    + intros [y Hy]. unfold cormat in Hy.
      destruct (Z.ltb_spec (Z.of_nat p) 0); [lia |].
      apply bind_Ok in Hy as [s [Hs Hy]].
      apply diag_sqrt_inv in Hs as [Hl Hge].
      apply (cormat_loop_inv x s p y Hl) in Hy. lia.
    + intros Hx. destruct (cormat_entries x p Hx) as [y [Hy _]]. eauto.
  - intros p Hp. unfold cormat.
    destruct (Z.ltb_spec p 0); [reflexivity | lia].
Qed.

(** The entries of a flattened [p]-by-[p] matrix are the entries [(i, j)]. *)
Lemma flat_ext (a b : list R) (p : nat) :
  length a = (p * p)%nat -> length b = (p * p)%nat ->
  (forall i j, (i < p)%nat -> (j < p)%nat -> entry a p i j = entry b p i j) ->
  a = b.
Proof.
  intros Ha Hb H. apply (nth_ext _ _ 0 0); [congruence |].
  intros k Hk. rewrite Ha in Hk.
  assert (Hp : (0 < p)%nat) by nia.
  pose proof (Nat.div_mod_eq k p) as Hdm.
  pose proof (Nat.mod_upper_bound k p ltac:(lia)) as Hm.
  assert (Hd : (k / p < p)%nat) by (apply Nat.Div0.div_lt_upper_bound; lia).
  specialize (H (k / p)%nat (k mod p)%nat Hd Hm). unfold entry in H.
  replace (k / p * p + k mod p)%nat with k in H by lia. exact H.
Qed.

(** X10: under exact arithmetic, on a symmetric matrix [cormat] returns a
    symmetric matrix, and on a matrix with positive diagonal a matrix that a
    second call returns as it is. *)
Theorem cormat_symmetric_idempotent (x : list R) (p : nat) :
  length x = (p * p)%nat ->
  exists y, cormat x (Z.of_nat p) = Ok y /\
    (symmetric x p -> symmetric y p) /\
    ((forall i, (i < p)%nat -> 0 < entry x p i i) ->
     cormat y (Z.of_nat p) = Ok y).
Proof.
  intros Hx.
  destruct (cormat_entries x p Hx) as [y [Hy [Hl He]]].
  exists y. split; [exact Hy |]. split.
  - intros Hsym i j Hi Hj.
    rewrite (He i j Hi Hj), (He j i Hj Hi), (Hsym i j Hi Hj).
    f_equal. apply Rmult_comm.
  - intros Hpos.
    assert (Hly : length y = (p * p)%nat) by congruence.
    destruct (cormat_entries y p Hly) as [y' [Hy' [Hl' He']]].
    rewrite Hy'. f_equal.
    apply (flat_ext y' y p); [congruence | assumption |].
    intros i j Hi Hj. rewrite (He' i j Hi Hj).
    assert (Hd : forall k, (k < p)%nat -> entry y p k k = 1).
    { intros k Hk. rewrite (He k k Hk Hk).
      rewrite sqrt_sqrt by (left; auto).
      apply Rinv_r. pose proof (Hpos k Hk). lra. }
    rewrite (Hd i Hi), (Hd j Hj), sqrt_1. field.
Qed.

Lemma cormat_symmetric_idempotent_witness :
  exists y, cormat [4; 2; 2; 9] (Z.of_nat 2) = Ok y /\
    (symmetric [4; 2; 2; 9] 2 -> symmetric y 2) /\
    ((forall i, (i < 2)%nat -> 0 < entry [4; 2; 2; 9] 2 i i) ->
     cormat y (Z.of_nat 2) = Ok y).
Proof.
  apply (cormat_symmetric_idempotent [4; 2; 2; 9] 2). reflexivity.
Defined.

(** ** covheat.Z and cormat *)

Lemma flat_wrap (p r c : nat) :
  is_int (Z.of_nat (p * p)) -> (r < p)%nat -> (c < p)%nat ->
  wrap (wrap (Z.of_nat r * Z.of_nat p) + Z.of_nat c) = Z.of_nat (r * p + c).
Proof.
  intros Hint Hr Hc. unfold is_int in Hint.
  assert (H1 : (r * p + c < p * p)%nat) by (apply flat_index_lt; assumption).
  assert (H2 : (r * p <= r * p + c)%nat) by lia.
  rewrite (wrap_small (Z.of_nat r * Z.of_nat p)) by (unfold is_int; lia).
  rewrite wrap_small by (unfold is_int; lia). lia.
Qed.

(** X11: for a [p]-by-[p] matrix and [r, c < p], the method [Z] of a
    [covheat] without scaling reads entry [(r, c)]; with scaling, and
    positive diagonal entries at [r] and [c], it is, under exact arithmetic,
    entry [(r, c)] of what [cormat] returns; on a symmetric matrix
    [Z(r, c) = Z(c, r)]. *)
Theorem covheat_Z_cormat (d : list R) (p r c : nat) :
  length d = (p * p)%nat -> is_int (len d) -> (r < p)%nat -> (c < p)%nat ->
  covheat_Z (mkCovheat (Z.of_nat p) d false) (Z.of_nat r) (Z.of_nat c)
  = Ok (entry d p r c) /\
  (0 < entry d p r r -> 0 < entry d p c c ->
   exists y, cormat d (Z.of_nat p) = Ok y /\
             covheat_Z (mkCovheat (Z.of_nat p) d true) (Z.of_nat r) (Z.of_nat c)
             = Ok (entry y p r c)) /\
  (symmetric d p ->
   forall b, covheat_Z (mkCovheat (Z.of_nat p) d b) (Z.of_nat r) (Z.of_nat c)
             = covheat_Z (mkCovheat (Z.of_nat p) d b) (Z.of_nat c) (Z.of_nat r)).
Proof.
  intros Hd Hint Hr Hc. unfold len in Hint. rewrite Hd in Hint.
  assert (Hidx : forall i j, (i < p)%nat -> (j < p)%nat ->
            index d (wrap (wrap (Z.of_nat i * Z.of_nat p) + Z.of_nat j))
            = Ok (entry d p i j)).
  { intros i j Hi Hj. rewrite flat_wrap by assumption.
    apply index_of_nat. rewrite Hd. now apply flat_index_lt. }
  assert (Hz : forall i j, (i < p)%nat -> (j < p)%nat ->
            covheat_Z (mkCovheat (Z.of_nat p) d true) (Z.of_nat i) (Z.of_nat j)
            = Ok (entry d p i j / sqrt (entry d p i i * entry d p j j))).
  { intros i j Hi Hj. unfold covheat_Z. cbn [scale data m].
    rewrite !Hidx by assumption. reflexivity. }
  split; [| split].
  - unfold covheat_Z. cbn [scale data m]. now apply Hidx.
  - intros H1 H2. destruct (cormat_entries d p Hd) as [y [Hy [_ He]]].
    exists y. split; [exact Hy |].
    rewrite Hz, (He r c Hr Hc) by assumption.
    rewrite sqrt_mult by (apply Rlt_le; assumption). reflexivity.
  - intros Hsym [|].
    + rewrite !Hz by assumption. rewrite (Hsym r c Hr Hc).
      do 3 f_equal. apply Rmult_comm.
    + unfold covheat_Z. cbn [scale data m].
      rewrite !Hidx by assumption. now rewrite (Hsym r c Hr Hc).
Qed.

Lemma covheat_Z_cormat_witness :
  covheat_Z (mkCovheat (Z.of_nat 2) [4; 2; 2; 9] false) (Z.of_nat 0) (Z.of_nat 1)
  = Ok (entry [4; 2; 2; 9] 2 0 1) /\
  (0 < entry [4; 2; 2; 9] 2 0 0 -> 0 < entry [4; 2; 2; 9] 2 1 1 ->
   exists y, cormat [4; 2; 2; 9] (Z.of_nat 2) = Ok y /\
             covheat_Z (mkCovheat (Z.of_nat 2) [4; 2; 2; 9] true)
               (Z.of_nat 0) (Z.of_nat 1)
             = Ok (entry y 2 0 1)) /\
  (symmetric [4; 2; 2; 9] 2 ->
   forall b, covheat_Z (mkCovheat (Z.of_nat 2) [4; 2; 2; 9] b)
               (Z.of_nat 0) (Z.of_nat 1)
             = covheat_Z (mkCovheat (Z.of_nat 2) [4; 2; 2; 9] b)
                 (Z.of_nat 1) (Z.of_nat 0)).
Proof.
  apply (covheat_Z_cormat [4; 2; 2; 9] 2 0 1).
  - reflexivity.
  - vm_compute. split; [discriminate | reflexivity].
  - lia.
  - lia.
Defined.

(** ** standardize: what it reads, when it returns, scaling *)

(** [quad_row] for a matrix slice with entries to spare. *)
Lemma quad_row_ge (vec mat : list R) (i : nat) (v0 : R) :
  (length vec * length vec <= length mat)%nat -> (i < length vec)%nat ->
  for_range 0 (Z.of_nat i + 1) (quad_step vec mat (len vec) (Z.of_nat i)) v0
  = Ok (v0
        + (sum_to i (fun j => 2 * (nth i vec 0 * nth j vec 0
                                   * entry mat (length vec) i j))
           + nth i vec 0 * nth i vec 0 * entry mat (length vec) i i)).
Proof.
  intros Hm Hi. unfold for_range.
  replace (Z.to_nat (Z.of_nat i + 1 - 0)) with (S i) by lia.
  set (t := fun j => if Nat.eqb j i
                     then nth i vec 0 * nth i vec 0 * entry mat (length vec) i i
                     else 2 * (nth i vec 0 * nth j vec 0
                               * entry mat (length vec) i j)).
  destruct (for_loop_total (fun k v => v = v0 + sum_to k t)
              (quad_step vec mat (len vec) (Z.of_nat i)) (S i) 0 v0)
    as [v [Hv Hsum]].
  - simpl. lra.
  - intros k v Hk ->. unfold quad_step, len.
    rewrite (index_of_nat vec i 0), (index_of_nat vec k 0) by lia.
    cbn [bind].
    replace (Z.of_nat i * Z.of_nat (length vec) + Z.of_nat k)%Z
      with (Z.of_nat (i * length vec + k)) by lia.
    rewrite (index_of_nat mat _ 0)
      by (pose proof (flat_index_lt (length vec) i k); lia).
    cbn [bind]. fold (entry mat (length vec) i k).
    eexists. split; [reflexivity |]. cbn [sum_to]. unfold t.
    destruct (Z.eqb_spec (Z.of_nat k) (Z.of_nat i)) as [E | E];
      destruct (Nat.eqb_spec k i) as [E' | E']; try lia; cbn [negb].
    + subst k. lra.
    + lra.
  - cbn [Z.of_nat] in Hv. rewrite Hv, Hsum. f_equal. f_equal.
    cbn [sum_to Nat.add].
    assert (Et : t i = nth i vec 0 * nth i vec 0 * entry mat (length vec) i i)
      by (unfold t; now rewrite Nat.eqb_refl).
    rewrite Et. f_equal.
    apply sum_to_ext. intros j Hj. unfold t.
    destruct (Nat.eqb_spec j i); [lia | reflexivity].
Qed.

Lemma quad_loop_ge (vec mat : list R) :
  (length vec * length vec <= length mat)%nat ->
  quad_loop vec mat = Ok (lform vec mat).
Proof.
  intros Hm. unfold quad_loop, for_range, len at 1.
  rewrite Z.sub_0_r, Nat2Z.id.
  destruct (for_loop_total
              (fun k v => v = sum_to k (fun i =>
                 sum_to i (fun j => 2 * (nth i vec 0 * nth j vec 0
                                         * entry mat (length vec) i j))
                 + nth i vec 0 * nth i vec 0 * entry mat (length vec) i i))
              (fun i v => for_range 0 (i + 1)
                            (quad_step vec mat (len vec) i) v)
              (length vec) 0 0) as [v [Hv Hsum]].
  - reflexivity.
  - intros k v Hk ->. rewrite quad_row_ge by (try assumption; lia).
    eexists. split; reflexivity.
  - subst v. exact Hv.
Qed.

(** A call that returns has read the last entry of the lower triangle. *)
Lemma quad_loop_inv (vec mat : list R) (v : R) :
  quad_loop vec mat = Ok v ->
  (length vec * length vec <= length mat)%nat.
Proof.
  unfold quad_loop, for_range, len at 1.
  rewrite Z.sub_0_r, Nat2Z.id. intros H.
  set (p := length vec) in *.
  assert (Hinv : (0 + p = 0)%nat \/
                 ((0 + p - 1) * p + (0 + p - 1) < length mat)%nat);
    [| destruct Hinv; nia].
  eapply (for_loop_inv
            (fun k (_ : R) =>
               k = 0%nat \/ ((k - 1) * p + (k - 1) < length mat)%nat)
            _ p 0); [now left | | exact H].
  intros k t t' Hk _ Hstep. right.
  replace (S k - 1)%nat with k by lia.
  unfold for_range in Hstep.
  replace (Z.to_nat (Z.of_nat k + 1 - 0)) with (k + 1)%nat in Hstep by lia.
  rewrite Nat.add_comm in Hstep.
  (* the last round of the inner loop reads mat[k*p+k] *)
  assert (Hlast : forall n j0 s s',
            for_loop (S n) (Z.of_nat j0)
              (quad_step vec mat (len vec) (Z.of_nat k)) s = Ok s' ->
            (k * p + (j0 + n) < length mat)%nat).
  { induction n as [| n IH]; intros j0 s s' Hl.
    - cbn [for_loop] in Hl. apply bind_Ok in Hl as [u [Hu _]].
      unfold quad_step in Hu.
      apply bind_Ok in Hu as [vi [_ Hu]].
      apply bind_Ok in Hu as [vj [_ Hu]].
      apply bind_Ok in Hu as [e [He _]].
      apply index_nth in He as [_ [Hlt _]]. unfold len in Hlt. fold p in Hlt.
      lia.
    - change (for_loop (S (S n)) (Z.of_nat j0)
                (quad_step vec mat (len vec) (Z.of_nat k)) s)
        with (s1 <- quad_step vec mat (len vec) (Z.of_nat k) (Z.of_nat j0) s ;;
              for_loop (S n) (Z.of_nat j0 + 1)
                (quad_step vec mat (len vec) (Z.of_nat k)) s1) in Hl.
      apply bind_Ok in Hl as [u [_ Hl]].
      replace (Z.of_nat j0 + 1)%Z with (Z.of_nat (S j0)) in Hl by lia.
      apply IH in Hl. lia. }
  apply (Hlast k 0%nat t t') in Hstep. lia.
Qed.

Lemma quad_step_panic (vec mat : list R) (p i j : Z) (v : R) (e : panic) :
  quad_step vec mat p i j v = Panic e -> e = IndexOutOfRange.
Proof.
  unfold quad_step. intros H.
  repeat match type of H with
  | bind _ _ = Panic _ =>
      apply bind_Panic in H as [H | [? [_ H]]];
      [now apply index_panic in H |]
  end.
  discriminate.
Qed.

(** X12: [standardize vec mat] returns exactly when [mat] has at least
    [p * p] entries, [p = len(vec)]; otherwise it panics with an index out of
    range. *)
Theorem standardize_returns_iff (vec mat : list R) :
  ((length vec * length vec <= length mat)%nat ->
   exists vec', standardize vec mat = Ok vec' /\ length vec' = length vec) /\
  ((length mat < length vec * length vec)%nat ->
   standardize vec mat = Panic IndexOutOfRange).
Proof.
  split.
  - intros H. unfold standardize. rewrite (quad_loop_ge vec mat H).
    cbn [bind]. eexists. split; [reflexivity | apply Scale_length].
  - intros H. unfold standardize.
    destruct (quad_loop vec mat) as [v | e] eqn:E; cbn [bind].
    + apply quad_loop_inv in E. lia.
    + f_equal. unfold quad_loop, for_range in E.
      apply (for_loop_panic (fun e => e = IndexOutOfRange)) in E; [exact E |].
      intros i s e' He.
      apply (for_loop_panic (fun e => e = IndexOutOfRange)) in He;
        [exact He |].
      intros j s' e''. apply quad_step_panic.
Qed.

Lemma standardize_returns_iff_witness :
  (exists vec', standardize [3; 4] [1; 0; 0; 1; 7] = Ok vec' /\
                length vec' = 2%nat) /\
  standardize [3; 4] [1; 0; 0] = Panic IndexOutOfRange.
Proof.
  split.
  - apply (proj1 (standardize_returns_iff [3; 4] [1; 0; 0; 1; 7])).
    simpl. lia.
  - apply (proj2 (standardize_returns_iff [3; 4] [1; 0; 0])). simpl. lia.
Defined.

(** X13: [standardize] reads the lower triangle of [mat] only: two matrices
    that agree at the entries [(i, j)] with [j <= i < p] give the same
    result, whatever they hold above the diagonal and past [p * p]. *)
Theorem standardize_reads_lower_triangle (vec mat mat' : list R) :
  (length vec * length vec <= length mat)%nat ->
  (length vec * length vec <= length mat')%nat ->
  (forall i j, (j <= i)%nat -> (i < length vec)%nat ->
               entry mat (length vec) i j = entry mat' (length vec) i j) ->
  standardize vec mat = standardize vec mat'.
Proof.
  intros Hm Hm' Hlow. unfold standardize.
  rewrite (quad_loop_ge vec mat Hm), (quad_loop_ge vec mat' Hm').
  cbn [bind]. do 4 f_equal. unfold lform.
  apply sum_to_ext. intros i Hi. f_equal.
  - apply sum_to_ext. intros j Hj. rewrite Hlow by lia. reflexivity.
  - rewrite Hlow by lia. reflexivity.
Qed.

Lemma standardize_reads_lower_triangle_witness :
  standardize [3; 4] [1; 5; 2; 1] = standardize [3; 4] [1; -7; 2; 1; 9].
Proof.
  apply (standardize_reads_lower_triangle [3; 4] [1; 5; 2; 1] [1; -7; 2; 1; 9]).
  - simpl. lia.
  - simpl. lia.
  - intros i j Hji Hi. unfold entry. simpl in Hi.
    destruct i as [| [| i]], j as [| [| j]]; simpl; try lia; reflexivity.
Defined.

(** X14: under exact arithmetic [standardize] does not see a positive factor
    of [vec]: when the sum
    it computes is positive, [c * vec] with [0 < c] is scaled to the same
    vector as [vec]. *)
Theorem standardize_scale_invariant (c : R) (vec mat : list R) :
  0 < c -> (length vec * length vec <= length mat)%nat ->
  0 < lform vec mat ->
  exists vec', standardize vec mat = Ok vec' /\
               standardize (map (fun x => c * x) vec) mat = Ok vec'.
Proof.
  intros Hc Hm Hpos.
  assert (Hmap : map (fun x => c * x) vec = Scale c vec).
  { unfold Scale. apply map_ext. intros x. apply Rmult_comm. }
  rewrite Hmap. unfold standardize.
  rewrite (quad_loop_ge vec mat Hm).
  rewrite quad_loop_ge by now rewrite Scale_length.
  cbn [bind]. eexists. split; [reflexivity |]. f_equal.
  rewrite lform_scale. unfold Sqrt.
  assert (Hs : 0 < sqrt (lform vec mat)) by now apply sqrt_lt_R0.
  rewrite sqrt_mult by nra.
  rewrite sqrt_square by lra.
  unfold Scale. rewrite map_map. apply map_ext. intros x. field. lra.
Qed.

Lemma standardize_scale_invariant_witness :
  exists vec', standardize [3; 4] [1; 0; 0; 1] = Ok vec' /\
               standardize (map (fun x => 2 * x) [3; 4]) [1; 0; 0; 1] = Ok vec'.
Proof.
  apply (standardize_scale_invariant 2 [3; 4] [1; 0; 0; 1]).
  - lra.
  - simpl. lia.
  - unfold lform, entry. simpl. lra.
Defined.

(** ** standardizeCellMeans: shifts and factors *)

Lemma cells_ok_map (g : list R -> list R) (cmn : list (list R)) (cmc : list Z)
  (K : nat) :
  cells_ok cmn cmc K ->
  (forall u, length u = K -> length (g u) = K) ->
  cells_ok (map g cmn) cmc K.
Proof.
  intros (Hne & Hrows & Hlen) Hg.
  split; [destruct cmn; [contradiction | discriminate] |].
  split; [| now rewrite length_map].
  apply Forall_map. eapply Forall_impl; [| exact Hrows]. exact Hg.
Qed.

Lemma cell_map (g : list R -> list R) (cmn : list (list R)) (q k : nat) :
  (q < length cmn)%nat -> cell (map g cmn) q k = nth k (g (nth q cmn [])) 0.
Proof. intros Hq. unfold cell. now rewrite nth_map_row. Qed.

Lemma total_count_pos_IZR (cmc : list Z) (n : nat) :
  (0 < total_count cmc n)%Z -> 0 < IZR (total_count cmc n).
Proof. intros H. now apply IZR_lt. Qed.

(** X15: under exact arithmetic [standardizeCellMeans] does not see a common
    shift of the cell vectors: with at least one populated cell, adding one
    vector [a] to the vector of every cell leaves the result as it is in
    every coordinate whose weighted variance is positive. *)
Theorem standardizeCellMeans_shift_invariant
  (cmn : list (list R)) (cmc : list Z) (K : nat) (a : list R) :
  cells_ok cmn cmc K -> is_int (total_count cmc (length cmn)) ->
  (0 < total_count cmc (length cmn))%Z -> length a = K ->
  exists out out',
    standardizeCellMeans cmn cmc = Ok out /\
    standardizeCellMeans (map (fun u => zipWith Rplus u a) cmn) cmc = Ok out' /\
    length out' = length out /\
    forall q k, (q < length cmn)%nat -> (k < K)%nat ->
                0 < cvar cmn cmc k -> cell out' q k = cell out q k.
Proof.
  intros Hok Hint Hpos Ha.
  set (g := fun u => zipWith Rplus u a).
  assert (Hok' : cells_ok (map g cmn) cmc K).
  { apply cells_ok_map; [assumption |]. intros u Hu. unfold g.
    rewrite zipWith_length; congruence. }
  destruct (standardizeCellMeans_cells cmn cmc K Hok Hint)
    as (out & Hs & Hl & Hout).
  destruct (standardizeCellMeans_cells (map g cmn) cmc K Hok')
    as (out' & Hs' & Hl' & Hout'); [now rewrite length_map |].
  rewrite length_map in Hl', Hout'.
  exists out, out'. split; [exact Hs |]. split; [exact Hs' |].
  split; [congruence |].
  intros q k Hq Hk _.
  assert (Hcell : forall q', (q' < length cmn)%nat ->
            cell (map g cmn) q' k = 1 * cell cmn q' k + nth k a 0).
  { intros q' Hq'. rewrite cell_map by assumption. unfold g.
    rewrite zipWith_nth
      by (rewrite (cells_ok_row cmn cmc K q' Hok Hq'); lia).
    unfold cell. lra. }
  pose proof (total_count_pos_IZR _ _ Hpos) as HW.
  assert (Hmean : wmean (map g cmn) cmc k = wmean cmn cmc k + nth k a 0).
  { unfold wmean. rewrite length_map.
    rewrite (wsum_ext cmc (length cmn) _
               (fun q' => 1 * cell cmn q' k + nth k a 0) Hcell).
    rewrite wsum_affine. field. lra. }
  assert (Hvar : cvar (map g cmn) cmc k = cvar cmn cmc k).
  { unfold cvar. rewrite length_map. f_equal.
    apply wsum_ext. intros q' Hq'. rewrite Hmean, (Hcell q' Hq'). ring. }
  rewrite (Hout' q k Hq Hk), (Hout q k Hq Hk), Hvar, Hmean, (Hcell q Hq).
  f_equal. ring.
Qed.

Lemma standardizeCellMeans_shift_invariant_witness :
  exists out out',
    standardizeCellMeans [[1]; [7]; [3]] [1; 0; 1]%Z = Ok out /\
    standardizeCellMeans
      (map (fun u => zipWith Rplus u [10]) [[1]; [7]; [3]]) [1; 0; 1]%Z
    = Ok out' /\
    length out' = length out /\
    forall q k, (q < 3)%nat -> (k < 1)%nat ->
                0 < cvar [[1]; [7]; [3]] [1; 0; 1]%Z k ->
                cell out' q k = cell out q k.
Proof.
  apply (standardizeCellMeans_shift_invariant
           [[1]; [7]; [3]] [1; 0; 1]%Z 1 [10]).
  - split; [discriminate |]. split; [| reflexivity]. repeat constructor.
  - vm_compute. split; [discriminate | reflexivity].
  - vm_compute. reflexivity.
  - reflexivity.
Defined.

(** X16: under exact arithmetic [standardizeCellMeans] does not see a
    common positive factor of the cell vectors: where the weighted variance of the centered means is
    positive, multiplying every vector by [c > 0] leaves the result as it
    is. *)
Theorem standardizeCellMeans_scale_invariant
  (cmn : list (list R)) (cmc : list Z) (K : nat) (c : R) :
  cells_ok cmn cmc K -> is_int (total_count cmc (length cmn)) -> 0 < c ->
  exists out out',
    standardizeCellMeans cmn cmc = Ok out /\
    standardizeCellMeans (map (map (fun x => c * x)) cmn) cmc = Ok out' /\
    length out' = length out /\
    forall q k, (q < length cmn)%nat -> (k < K)%nat ->
                0 < cvar cmn cmc k -> cell out' q k = cell out q k.
Proof.
  intros Hok Hint Hc.
  set (g := map (fun x => c * x)).
  assert (Hok' : cells_ok (map g cmn) cmc K).
  { apply cells_ok_map; [assumption |]. intros u Hu. unfold g.
    now rewrite length_map. }
  destruct (standardizeCellMeans_cells cmn cmc K Hok Hint)
    as (out & Hs & Hl & Hout).
  destruct (standardizeCellMeans_cells (map g cmn) cmc K Hok')
    as (out' & Hs' & Hl' & Hout'); [now rewrite length_map |].
  rewrite length_map in Hl', Hout'.
  exists out, out'. split; [exact Hs |]. split; [exact Hs' |].
  split; [congruence |].
  intros q k Hq Hk Hvar.
  assert (Hcell : forall q', (q' < length cmn)%nat ->
            cell (map g cmn) q' k = c * cell cmn q' k + 0).
  { intros q' Hq'. rewrite cell_map by assumption. unfold g, cell.
    rewrite (nth_indep _ 0 ((fun x => c * x) 0))
      by (rewrite length_map, (cells_ok_row cmn cmc K q' Hok Hq'); lia).
    rewrite (map_nth (fun x => c * x)). lra. }
  assert (Hmean : wmean (map g cmn) cmc k = c * wmean cmn cmc k).
  { unfold wmean. rewrite length_map.
    rewrite (wsum_ext cmc (length cmn) _
               (fun q' => c * cell cmn q' k + 0) Hcell).
    rewrite wsum_affine. unfold Rdiv. ring. }
  assert (Hv : cvar (map g cmn) cmc k = c * c * cvar cmn cmc k).
  { unfold cvar. rewrite length_map.
    rewrite (wsum_ext cmc (length cmn) _
               (fun q' => c * c * ((cell cmn q' k - wmean cmn cmc k)
                                   * (cell cmn q' k - wmean cmn cmc k)) + 0)).
    - rewrite wsum_affine. unfold Rdiv. ring.
    - intros q' Hq'. rewrite Hmean, (Hcell q' Hq'). ring. }
  pose proof (sqrt_lt_R0 _ Hvar) as Hsd.
  rewrite (Hout' q k Hq Hk), (Hout q k Hq Hk), Hv, Hmean, (Hcell q Hq).
  rewrite sqrt_mult by nra. rewrite sqrt_square by lra.
  field. lra.
Qed.

Lemma standardizeCellMeans_scale_invariant_witness :
  exists out out',
    standardizeCellMeans [[1]; [7]; [3]] [1; 0; 1]%Z = Ok out /\
    standardizeCellMeans
      (map (map (fun x => 2 * x)) [[1]; [7]; [3]]) [1; 0; 1]%Z = Ok out' /\
    length out' = length out /\
    forall q k, (q < 3)%nat -> (k < 1)%nat ->
                0 < cvar [[1]; [7]; [3]] [1; 0; 1]%Z k ->
                cell out' q k = cell out q k.
Proof.
  apply (standardizeCellMeans_scale_invariant [[1]; [7]; [3]] [1; 0; 1]%Z 1 2).
  - split; [discriminate |]. split; [| reflexivity]. repeat constructor.
  - vm_compute. split; [discriminate | reflexivity].
  - lra.
Defined.

(** ** selectEq, selectGt *)

Lemma update_app {A : Type} (pre t : list A) (b a : A) :
  update (pre ++ b :: t) (length pre) a = pre ++ a :: t.
Proof. induction pre as [| h pre IH]; simpl; [reflexivity | now rewrite IH]. Qed.

Lemma masked_length (keep : R -> bool) (z : list R) (ma : list bool) :
  length (masked keep z ma) = length ma.
Proof.
  revert ma. induction z as [| v z IH]; intros [| b ma]; simpl; auto.
Qed.

Lemma masked_nth (keep : R -> bool) (z : list R) (ma : list bool) (i : nat) :
  (length z <= length ma)%nat ->
  nth i (masked keep z ma) true
  = nth i ma true && (Nat.leb (length z) i || keep (nth i z 0)).
Proof.
  revert ma i. induction z as [| v z IH]; intros [| b ma] i H; simpl in *;
    try lia.
  - destruct i; reflexivity.
  - now rewrite andb_true_r.
  - destruct i as [| i]; [reflexivity |]. apply IH. lia.
Qed.

(** The loop of a filter function, from any position of the mask. *)
Lemma select_loop (drop : R -> bool) (z : list R) :
  forall (pre ma : list bool) (any : bool),
    (length z <= length ma)%nat ->
    for_each z (len pre) (select_step drop) (pre ++ ma, any)
    = Ok (pre ++ masked (fun v => negb (drop v)) z ma,
          any || existsb drop z).
Proof.
  induction z as [| v z IH]; intros pre ma any H.
  - simpl. now rewrite orb_false_r.
  - destruct ma as [| b ma]; [simpl in H; lia |].
    assert (E : (len pre + 1)%Z = len (pre ++ [false])).
    { unfold len. rewrite length_app. simpl. lia. }
    assert (E' : (len pre + 1)%Z = len (pre ++ [b])).
    { unfold len. rewrite length_app. simpl. lia. }
    cbn [for_each masked existsb]. unfold select_step at 1. cbn [fst snd].
    destruct (drop v) eqn:D.
    + rewrite store_in_range
        by (unfold len; rewrite length_app; simpl; lia).
      unfold len at 1. rewrite Nat2Z.id, update_app. cbn [bind].
      rewrite E.
      replace (pre ++ false :: ma) with ((pre ++ [false]) ++ ma)
        by now rewrite <- app_assoc.
      rewrite IH by (simpl in H; lia).
      rewrite <- app_assoc. cbn [app negb]. rewrite andb_false_r.
      now rewrite orb_true_r.
    + cbn [bind]. rewrite E'.
      replace (pre ++ b :: ma) with ((pre ++ [b]) ++ ma)
        by now rewrite <- app_assoc.
      rewrite IH by (simpl in H; lia).
      rewrite <- app_assoc. cbn [app negb]. rewrite andb_true_r.
      now rewrite orb_false_l.
Qed.

Lemma select_spec (drop : R -> bool) (z : list R) (ma : list bool) :
  (length z <= length ma)%nat ->
  for_each z 0 (select_step drop) (ma, false)
  = Ok (masked (fun v => negb (drop v)) z ma, existsb drop z).
Proof.
  intros H. apply (select_loop drop z [] ma false H).
Qed.

(** A dropped value at an index that the mask does not have stops the
    loop. *)
Lemma select_loop_panic (drop : R -> bool) (z : list R) :
  forall (j : nat) (ma : list bool) (any : bool) (i : nat),
    (i < length z)%nat -> (length ma <= j + i)%nat ->
    drop (nth i z 0) = true ->
    for_each z (Z.of_nat j) (select_step drop) (ma, any)
    = Panic IndexOutOfRange.
Proof.
  induction z as [| v z IH]; intros j ma any i Hi Hj Hd;
    [simpl in Hi; lia |].
  cbn [for_each]. unfold select_step at 1. cbn [fst snd].
  replace (Z.of_nat j + 1)%Z with (Z.of_nat (S j)) by lia.
  destruct (drop v) eqn:D.
  - unfold store, len.
    destruct (Z.ltb_spec (Z.of_nat j) 0); [reflexivity |].
    destruct (Z.ltb_spec (Z.of_nat j) (Z.of_nat (length ma)));
      [| reflexivity].
    cbn [bind]. destruct i as [| i]; [lia |].
    apply (IH (S j) _ true i); [simpl in Hi; lia | | exact Hd].
    rewrite update_length. lia.
  - cbn [bind]. destruct i as [| i]; [simpl in Hd; congruence |].
    apply (IH (S j) ma any i); [simpl in Hi; lia | lia | exact Hd].
Qed.

Lemma existsb_index (drop : R -> bool) (z : list R) :
  existsb drop z = true <->
  exists i, (i < length z)%nat /\ drop (nth i z 0) = true.
Proof.
  rewrite existsb_exists. split.
  - intros [v [Hin Hv]]. destruct (In_nth z v 0 Hin) as [i [Hi E]].
    exists i. split; [assumption | now rewrite E].
  - intros [i [Hi Hv]]. exists (nth i z 0). split; [now apply nth_In | assumption].
Qed.

Lemma flt_true (a b : R) : a < b -> flt a b = true.
Proof. intros H. unfold flt. destruct (Rlt_dec a b); [reflexivity | contradiction]. Qed.

Lemma flt_false (a b : R) : b <= a -> flt a b = false.
Proof. intros H. unfold flt. destruct (Rlt_dec a b); [lra | reflexivity]. Qed.

Lemma masked_ext (k1 k2 : R -> bool) (z : list R) (ma : list bool) :
  (forall v, k1 v = k2 v) -> masked k1 z ma = masked k2 z ma.
Proof.
  intros H. revert ma. induction z as [| v z IH]; intros [| b ma]; simpl;
    try reflexivity. now rewrite H, IH.
Qed.

Lemma masked_comm (k1 k2 : R -> bool) (z1 z2 : list R) (ma : list bool) :
  masked k1 z1 (masked k2 z2 ma) = masked k2 z2 (masked k1 z1 ma).
Proof.
  revert z2 ma. induction z1 as [| v1 z1 IH]; intros [| v2 z2] [| b ma];
    simpl; try reflexivity.
  rewrite IH. f_equal. destruct b, (k1 v1), (k2 v2); reflexivity.
Qed.

Lemma masked_idem (k : R -> bool) (z : list R) (ma : list bool) :
  masked k z (masked k z ma) = masked k z ma.
Proof.
  revert ma. induction z as [| v z IH]; intros [| b ma]; simpl;
    try reflexivity.
  rewrite IH. f_equal. destruct b, (k v); reflexivity.
Qed.

(** X17: with a mask at least as long as the values, the function that
    [selectEq w] returns leaves the length of the mask, clears entry [i]
    exactly where [z[i] != w] (an entry that is false stays false), leaves
    the entries past the values, and returns true exactly when some value
    differs from [w]. *)
Theorem selectEq_mask (w : R) (z : list R) (ma : list bool) :
  (length z <= length ma)%nat ->
  exists ma' any,
    selectEq w z ma = Ok (ma', any) /\
    length ma' = length ma /\
    (forall i, (i < length z)%nat ->
       nth i ma' true = nth i ma true && feq (nth i z 0) w) /\
    (forall i, (length z <= i)%nat -> nth i ma' true = nth i ma true) /\
    (any = true <-> exists i, (i < length z)%nat /\ nth i z 0 <> w).
Proof.
  intros H. unfold selectEq. rewrite (select_spec _ z ma H).
  eexists. eexists. split; [reflexivity |].
  split; [apply masked_length |].
  split; [| split].
  - intros i Hi. rewrite masked_nth by assumption.
    destruct (Nat.leb_spec (length z) i); [lia |].
    cbn [orb]. now rewrite negb_involutive.
  - intros i Hi. rewrite masked_nth by assumption.
    destruct (Nat.leb_spec (length z) i); [| lia].
    cbn [orb]. now rewrite andb_true_r.
  - rewrite existsb_index. split; intros [i [Hi Hd]]; exists i;
      (split; [assumption |]).
    + intros E. rewrite (feq_true _ _ E) in Hd. discriminate.
    + now rewrite (feq_false _ _ Hd).
Qed.

Lemma selectEq_mask_witness :
  exists ma' any,
    selectEq 1 [1; 2; 1] [true; true; false; true] = Ok (ma', any) /\
    length ma' = length [true; true; false; true] /\
    (forall i, (i < length [1; 2; 1])%nat ->
       nth i ma' true
       = nth i [true; true; false; true] true && feq (nth i [1; 2; 1] 0) 1) /\
    (forall i, (length [1; 2; 1] <= i)%nat ->
       nth i ma' true = nth i [true; true; false; true] true) /\
    (any = true <->
     exists i, (i < length [1; 2; 1])%nat /\ nth i [1; 2; 1] 0 <> 1).
Proof.
  apply (selectEq_mask 1 [1; 2; 1] [true; true; false; true]).
  simpl. lia.
Defined.

(** X18: with a mask at least as long as the values, the function that
    [selectGt w] returns leaves the length of the mask, clears entry [i]
    exactly where [z[i] < w], leaves every other entry, so that a value
    with [w <= z[i]], one equal to [w] among them, is retained, and returns
    true exactly when some value is below [w]. *)
Theorem selectGt_mask (w : R) (z : list R) (ma : list bool) :
  (length z <= length ma)%nat ->
  exists ma' any,
    selectGt w z ma = Ok (ma', any) /\
    length ma' = length ma /\
    (forall i, (i < length z)%nat ->
       nth i ma' true = nth i ma true && negb (flt (nth i z 0) w)) /\
    (forall i, (i < length z)%nat -> w <= nth i z 0 ->
       nth i ma' true = nth i ma true) /\
    (forall i, (length z <= i)%nat -> nth i ma' true = nth i ma true) /\
    (any = true <-> exists i, (i < length z)%nat /\ nth i z 0 < w).
Proof.
  intros H. unfold selectGt. rewrite (select_spec _ z ma H).
  eexists. eexists. split; [reflexivity |].
  split; [apply masked_length |].
  assert (Hm : forall i, (i < length z)%nat ->
            nth i (masked (fun v => negb (flt v w)) z ma) true
            = nth i ma true && negb (flt (nth i z 0) w)).
  { intros i Hi. rewrite masked_nth by assumption.
    destruct (Nat.leb_spec (length z) i); [lia | reflexivity]. }
  split; [exact Hm |]. split; [| split].
  - intros i Hi Hle. rewrite (Hm i Hi), flt_false by assumption.
    apply andb_true_r.
  - intros i Hi. rewrite masked_nth by assumption.
    destruct (Nat.leb_spec (length z) i); [| lia].
    cbn [orb]. now rewrite andb_true_r.
  - rewrite existsb_index. split; intros [i [Hi Hd]]; exists i;
      (split; [assumption |]).
    + destruct (Rlt_dec (nth i z 0) w) as [L | L]; [assumption |].
      rewrite flt_false in Hd by lra. discriminate.
    + now apply flt_true.
Qed.

Lemma selectGt_mask_witness :
  exists ma' any,
    selectGt 7 [7; 3; 9] [true; true; true] = Ok (ma', any) /\
    length ma' = length [true; true; true] /\
    (forall i, (i < length [7; 3; 9])%nat ->
       nth i ma' true
       = nth i [true; true; true] true
         && negb (flt (nth i [7; 3; 9] 0) 7)) /\
    (forall i, (i < length [7; 3; 9])%nat -> 7 <= nth i [7; 3; 9] 0 ->
       nth i ma' true = nth i [true; true; true] true) /\
    (forall i, (length [7; 3; 9] <= i)%nat ->
       nth i ma' true = nth i [true; true; true] true) /\
    (any = true <->
     exists i, (i < length [7; 3; 9])%nat /\ nth i [7; 3; 9] 0 < 7).
Proof.
  apply (selectGt_mask 7 [7; 3; 9] [true; true; true]).
  simpl. lia.
Defined.

(** X19: a filter function panics with an index out of range when a value
    that it drops stands at an index that the mask does not have. *)
Theorem select_short_mask_panics (w : R) (z : list R) (ma : list bool)
  (i : nat) :
  (length ma <= i < length z)%nat ->
  (nth i z 0 <> w -> selectEq w z ma = Panic IndexOutOfRange) /\
  (nth i z 0 < w -> selectGt w z ma = Panic IndexOutOfRange).
Proof.
  intros H. split; intros Hd.
  - apply (select_loop_panic _ z 0 ma false i); [lia | simpl; lia |].
    now rewrite (feq_false _ _ Hd).
  - apply (select_loop_panic _ z 0 ma false i); [lia | simpl; lia |].
    now apply flt_true.
Qed.

Lemma select_short_mask_panics_witness :
  (nth 1 [1; 2] 0 <> 1 -> selectEq 1 [1; 2] [true] = Panic IndexOutOfRange) /\
  (nth 1 [1; 2] 0 < 1 -> selectGt 1 [1; 2] [true] = Panic IndexOutOfRange).
Proof.
  apply (select_short_mask_panics 1 [1; 2] [true] 1). simpl. lia.
Defined.

(** X20: two filter functions applied one after the other to one mask give
    the same mask in either order, each returning the flag it returns on
    the first mask; a filter applied a second time changes nothing. *)
Theorem select_filters_commute (w1 w2 : R) (z1 z2 : list R)
  (ma : list bool) :
  (length z1 <= length ma)%nat -> (length z2 <= length ma)%nat ->
  exists ma1 a1 ma2 a2 out,
    selectEq w1 z1 ma = Ok (ma1, a1) /\ selectGt w2 z2 ma1 = Ok (out, a2) /\
    selectGt w2 z2 ma = Ok (ma2, a2) /\ selectEq w1 z1 ma2 = Ok (out, a1) /\
    selectEq w1 z1 ma1 = Ok (ma1, a1).
Proof.
  intros H1 H2. unfold selectEq, selectGt.
  rewrite (select_spec _ z1 ma H1), (select_spec _ z2 ma H2).
  do 5 eexists. split; [reflexivity |].
  split; [now rewrite select_spec by (rewrite masked_length; assumption) |].
  split; [reflexivity |].
  split; rewrite select_spec by (rewrite masked_length; assumption).
  - now rewrite masked_comm.
  - now rewrite masked_idem.
Qed.

Lemma select_filters_commute_witness :
  exists ma1 a1 ma2 a2 out,
    selectEq 1 [1; 0] [true; true] = Ok (ma1, a1) /\
    selectGt 7 [3; 9] ma1 = Ok (out, a2) /\
    selectGt 7 [3; 9] [true; true] = Ok (ma2, a2) /\
    selectEq 1 [1; 0] ma2 = Ok (out, a1) /\
    selectEq 1 [1; 0] ma1 = Ok (ma1, a1).
Proof.
  apply (select_filters_commute 1 7 [1; 0] [3; 9] [true; true]);
    simpl; lia.
Defined.

(** ** fbrake *)

(** One round of the loop of [fbrake]. *)
Lemma fbrake_step_spec (b t : list R) (k : nat) :
  (1 <= k < length t)%nat -> (k < length b)%nat ->
  exists t', fbrake_step b (Z.of_nat k) t = Ok t' /\
    length t' = length t /\
    nth k t' 0 = (if brake_repeat b k then 1 else 0) /\
    forall i, i <> k -> nth i t' 0 = nth i t 0.
Proof.
  intros Hk Hb. unfold fbrake_step.
  rewrite store_in_range by (unfold len; lia). rewrite Nat2Z.id.
  cbn [bind]. rewrite (index_of_nat b k 0 Hb). cbn [bind].
  replace (Z.of_nat k - 1)%Z with (Z.of_nat (k - 1)) by lia.
  rewrite (index_of_nat b (k - 1) 0) by lia.
  unfold brake_repeat. destruct (Nat.ltb_spec 0 k); [| lia]. cbn [andb].
  assert (Hl : (k < length (update t k 0%R))%nat)
    by (rewrite update_length; lia).
  destruct (feq (nth k b 0) 1) eqn:E1; cbn [bind andb].
  - destruct (feq (nth (k - 1) b 0) 1) eqn:E2.
    + rewrite store_in_range by (unfold len; lia). rewrite Nat2Z.id.
      eexists. split; [reflexivity |]. rewrite !update_length.
      split; [reflexivity |]. split; [now apply nth_update_same |].
      intros i Hi. now rewrite !nth_update_other by congruence.
    + rewrite store_in_range by (unfold len; lia). rewrite Nat2Z.id.
      eexists. split; [reflexivity |]. rewrite !update_length.
      split; [reflexivity |]. split; [now apply nth_update_same |].
      intros i Hi. now rewrite !nth_update_other by congruence.
  - eexists. split; [reflexivity |]. rewrite update_length.
    split; [reflexivity |]. split; [apply nth_update_same; lia |].
    intros i Hi. now rewrite nth_update_other by congruence.
Qed.

Lemma fbrake_step_panic (b t : list R) (i : Z) (p : panic) :
  fbrake_step b i t = Panic p -> p = IndexOutOfRange.
Proof.
  unfold fbrake_step. intros H.
  apply bind_Panic in H as [H | [t1 [_ H]]]; [now apply store_panic in H |].
  apply bind_Panic in H as [H | [bi [Hbi H]]]; [now apply index_panic in H |].
  apply bind_Panic in H as [H | [both [_ H]]].
  - destruct (feq bi 1); [| discriminate].
    apply bind_Panic in H as [H | [bp [_ H]]];
      [now apply index_panic in H | discriminate].
  - destruct both; [now apply store_panic in H |].
    rewrite Hbi in H. cbn [bind] in H.
    destruct (feq bi 1); [now apply store_panic in H | discriminate].
Qed.

(** A loop with a round that panics in every state panics. *)
Lemma for_loop_round_panics {St : Type} (body : Z -> St -> result St)
  (p : panic) (n : nat) :
  (forall i s q, body i s = Panic q -> q = p) ->
  forall (i : Z) (k : nat) (s : St),
    (k < n)%nat ->
    (forall t, exists q, body (i + Z.of_nat k)%Z t = Panic q) ->
    for_loop n i body s = Panic p.
Proof.
  intros Hq. induction n as [| n IH]; intros i k s Hk Hp; [lia |].
  cbn [for_loop]. destruct (body i s) as [t | q] eqn:E; cbn [bind].
  - destruct k as [| k].
    + destruct (Hp s) as [q Hq']. rewrite Z.add_0_r in Hq'. congruence.
    + apply (IH (i + 1)%Z k t); [lia |].
      intros u. replace (i + 1 + Z.of_nat k)%Z with (i + Z.of_nat (S k))%Z
        by lia. apply Hp.
  - now rewrite (Hq i s q E).
Qed.

(** The loop of [fbrake] writes every entry of [z]. *)
Lemma fbrake_loop (b y : list R) :
  (1 <= length y <= length b)%nat ->
  exists y', for_loop (length y - 1) 1 (fbrake_step b) (update y 0 0) = Ok y' /\
    length y' = length y /\
    forall i, (i < length y)%nat ->
      nth i y' 0 = if brake_repeat b i then 1 else 0.
Proof.
  intros H.
  destruct (for_loop_total
              (fun k t => length t = length y /\
                 forall i, (i < k)%nat ->
                   nth i t 0 = if brake_repeat b i then 1 else 0)
              (fbrake_step b) (length y - 1) 1 (update y 0 0))
    as [y' [Hy' [Hl Hn]]].
  - split; [apply update_length |]. intros i Hi.
    assert (i = 0)%nat as -> by lia.
    rewrite nth_update_same by lia. reflexivity.
  - intros k t Hk [Hl Hn].
    destruct (fbrake_step_spec b t k) as [t' [Ht' [Hl' [Hk' Ho]]]];
      [lia | lia |].
    exists t'. split; [assumption |]. split; [congruence |].
    intros i Hi. destruct (Nat.eq_dec i k) as [-> | Hne]; [assumption |].
    rewrite Ho by assumption. apply Hn. lia.
  - exists y'. split; [exact Hy' |]. split; [assumption |].
    intros i Hi. apply Hn. lia.
Qed.

(** [fbrake] on a non-empty [z] is the store of [z[0]] and the loop. *)
Lemma fbrake_unfold (v : string -> list R) (y : list R) :
  (1 <= length y)%nat ->
  fbrake v y
  = for_loop (length y - 1) 1 (fbrake_step (v "Brake"%string))
      (update y 0 0).
Proof.
  intros H. unfold fbrake.
  rewrite store_in_range by (unfold len; lia). cbn [bind].
  change (Z.to_nat 0) with 0%nat. unfold for_range.
  replace (Z.to_nat (len (update y 0 0) - 1)) with (length y - 1)%nat
    by (unfold len; rewrite update_length; lia).
  reflexivity.
Qed.

(** X21: for a non-empty [z] no longer than the brake signal, [fbrake]
    returns with the length of [z] unchanged and [z[i]] equal to 1 where
    [i >= 1], [Brake[i] == 1] and [Brake[i-1] == 1], and to 0 elsewhere,
    whatever [z] held before. *)
Theorem fbrake_marks_repeats (v : string -> list R) (y : list R) :
  (1 <= length y <= length (v "Brake"%string))%nat ->
  exists y', fbrake v y = Ok y' /\ length y' = length y /\
    forall i, (i < length y)%nat ->
      nth i y' 0 = if brake_repeat (v "Brake"%string) i then 1 else 0.
Proof.
  intros H. rewrite fbrake_unfold by lia.
  destruct (fbrake_loop (v "Brake"%string) y H) as [y' [Hy' [Hl Hn]]].
  exists y'. split; [exact Hy' |]. split; [exact Hl | exact Hn].
Qed.

Lemma fbrake_marks_repeats_witness :
  exists y', fbrake (fun _ => [0; 1; 1; 1; 0; 1]) [5; 5; 5; 5; 5; 5] = Ok y' /\
    length y' = length [5; 5; 5; 5; 5; 5] /\
    forall i, (i < length [5; 5; 5; 5; 5; 5])%nat ->
      nth i y' 0 = if brake_repeat [0; 1; 1; 1; 0; 1] i then 1 else 0.
Proof.
  apply (fbrake_marks_repeats (fun _ => [0; 1; 1; 1; 0; 1]) [5; 5; 5; 5; 5; 5]).
  simpl. lia.
Defined.

(** X22: [fbrake] panics with an index out of range on an empty [z], and on
    a [z] of two or more entries that is longer than the brake signal. *)
Theorem fbrake_panics (v : string -> list R) (y : list R) :
  y = [] \/ (2 <= length y /\ length (v "Brake"%string) < length y)%nat ->
  fbrake v y = Panic IndexOutOfRange.
Proof.
  intros [-> | [H2 Hb]]; [reflexivity |].
  unfold fbrake. set (b := v "Brake"%string) in *.
  rewrite store_in_range by (unfold len; lia). cbn [bind].
  unfold for_range.
  apply (for_loop_round_panics (fbrake_step b) IndexOutOfRange _
           (fun i s q => fbrake_step_panic b s i q)
           1 (Nat.max 1 (length b) - 1)).
  - unfold len. rewrite update_length. lia.
  - intros t.
    replace (1 + Z.of_nat (Nat.max 1 (length b) - 1))%Z
      with (Z.of_nat (Nat.max 1 (length b))) by lia.
    unfold fbrake_step.
    destruct (store t (Z.of_nat (Nat.max 1 (length b))) 0) as [t1 | q];
      cbn [bind]; [| eauto].
    assert (E : index b (Z.of_nat (Nat.max 1 (length b)))
                = Panic IndexOutOfRange).
    { unfold index.
      destruct (Z.ltb_spec (Z.of_nat (Nat.max 1 (length b))) 0);
        [reflexivity |].
      rewrite Nat2Z.id.
      destruct (nth_error b (Nat.max 1 (length b))) eqn:E; [| reflexivity].
      assert (nth_error b (Nat.max 1 (length b)) <> None) as Hn
        by congruence.
      apply nth_error_Some in Hn. lia. }
    rewrite E. cbn [bind]. eauto.
Qed.

Lemma fbrake_panics_witness :
  fbrake (fun _ => [1; 1]) [0; 0; 0] = Panic IndexOutOfRange.
Proof.
  apply (fbrake_panics (fun _ => [1; 1]) [0; 0; 0]).
  right. simpl. lia.
Defined.

(** X23: [fbrake] followed by the filter [selectEq 0] on its output, as
    [main] composes them, clears the mask exactly at the samples that brake
    and whose predecessor brakes: of a run of braking samples only the first
    is retained, and a sample that does not brake is retained. *)
Theorem fbrake_then_selectEq (v : string -> list R) (y : list R)
  (ma : list bool) :
  (1 <= length y <= length (v "Brake"%string))%nat ->
  (length y <= length ma)%nat ->
  exists y' ma' any,
    fbrake v y = Ok y' /\ selectEq 0 y' ma = Ok (ma', any) /\
    length ma' = length ma /\
    (forall i, (i < length y)%nat ->
       nth i ma' true
       = nth i ma true && negb (brake_repeat (v "Brake"%string) i)) /\
    (forall i, (i < length y)%nat -> nth i (v "Brake"%string) 0 <> 1 ->
       nth i ma' true = nth i ma true).
Proof.
  intros Hy Hma. rewrite fbrake_unfold by lia.
  destruct (fbrake_loop (v "Brake"%string) y Hy) as [y' [Hy' [Hl Hn]]].
  assert (Hl' : (length y' <= length ma)%nat) by lia.
  exists y'. unfold selectEq. rewrite (select_spec _ y' ma Hl').
  eexists. eexists. split; [exact Hy' |]. split; [reflexivity |].
  split; [apply masked_length |].
  assert (Hm : forall i, (i < length y)%nat ->
            nth i (masked (fun x => negb (negb (feq x 0))) y' ma) true
            = nth i ma true && negb (brake_repeat (v "Brake"%string) i)).
  { intros i Hi. rewrite masked_nth by assumption.
    destruct (Nat.leb_spec (length y') i); [lia |]. cbn [orb].
    rewrite negb_involutive, (Hn i Hi).
    destruct (brake_repeat (v "Brake"%string) i).
    - rewrite feq_false by lra. reflexivity.
    - rewrite feq_true by reflexivity. reflexivity. }
  split; [exact Hm |].
  intros i Hi Hb. rewrite (Hm i Hi). unfold brake_repeat.
  rewrite (feq_false _ _ Hb), andb_false_r. cbn [andb negb].
  now rewrite andb_true_r.
Qed.

Lemma fbrake_then_selectEq_witness :
  exists y' ma' any,
    fbrake (fun _ => [0; 1; 1; 1; 0; 1]) [5; 5; 5; 5; 5; 5] = Ok y' /\
    selectEq 0 y' [true; true; true; true; true; true] = Ok (ma', any) /\
    length ma' = length [true; true; true; true; true; true] /\
    (forall i, (i < length [5; 5; 5; 5; 5; 5])%nat ->
       nth i ma' true
       = nth i [true; true; true; true; true; true] true
         && negb (brake_repeat [0; 1; 1; 1; 0; 1] i)) /\
    (forall i, (i < length [5; 5; 5; 5; 5; 5])%nat ->
       nth i [0; 1; 1; 1; 0; 1] 0 <> 1 ->
       nth i ma' true = nth i [true; true; true; true; true; true] true).
Proof.
  apply (fbrake_then_selectEq (fun _ => [0; 1; 1; 1; 0; 1])
           [5; 5; 5; 5; 5; 5] [true; true; true; true; true; true]);
    simpl; lia.
Defined.

(** ** getPos *)

Lemma getPos_from_spec (names : list string) (name : string) :
  forall k : Z,
    match getPos_from names k name with
    | inr r =>
        exists j, r = (k + Z.of_nat j)%Z /\ (j < length names)%nat /\
          nth j names EmptyString = name /\
          forall i, (i < j)%nat -> nth i names EmptyString <> name
    | inl msg =>
        ~ In name names /\ msg = ("cannot find " ++ name)%string
    end.
Proof.
  induction names as [| v t IH]; intros k; cbn [getPos_from].
  - split; [intros [] | reflexivity].
  - destruct (String.eqb_spec v name) as [E | E].
    + exists 0%nat. repeat split; [lia | simpl; lia | exact E |].
      intros i Hi. lia.
    + specialize (IH (k + 1)%Z).
      destruct (getPos_from t (k + 1) name) as [msg | r].
      * destruct IH as [Hn Hm]. split; [| exact Hm].
        intros [H | H]; [contradiction | now apply Hn].
      * destruct IH as [j [Hr [Hj [Hnth Hfirst]]]].
        exists (S j). repeat split; [lia | simpl; lia | exact Hnth |].
        intros [| i] Hi; [exact E | apply Hfirst; lia].
Qed.

(** X24: [getPos] returns [k] exactly when [k] is the first position of
    [name] among the names, and panics, with the message "cannot find "
    followed by the name, exactly when the name is not among them. *)
Theorem getPos_first_match (names : list string) (name : string) :
  (forall k, getPos names name = inr k <->
     (0 <= k < len names)%Z /\
     nth (Z.to_nat k) names EmptyString = name /\
     forall j, (j < Z.to_nat k)%nat -> nth j names EmptyString <> name) /\
  (forall msg, getPos names name = inl msg <->
     ~ In name names /\ msg = ("cannot find " ++ name)%string).
Proof.
  pose proof (getPos_from_spec names name 0) as H. fold (getPos names name) in H.
  split.
  - intros k. split.
    + intros E. rewrite E in H. destruct H as [j [-> [Hj [Hn Hf]]]].
      rewrite Z.add_0_l, Nat2Z.id. unfold len.
      repeat split; [lia | lia | exact Hn | exact Hf].
    + intros [Hk [Hn Hf]]. unfold len in Hk.
      destruct (getPos names name) as [msg | r].
      * destruct H as [Hnot _]. exfalso. apply Hnot. rewrite <- Hn.
        apply nth_In. lia.
      * destruct H as [j [-> [Hj [Hn' Hf']]]]. f_equal.
        destruct (Nat.lt_trichotomy j (Z.to_nat k)) as [L | [L | L]].
        -- exfalso. now apply (Hf j L).
        -- lia.
        -- exfalso. now apply (Hf' (Z.to_nat k) L).
  - intros msg. split.
    + intros E. rewrite E in H. exact H.
    + intros [Hnot ->]. destruct (getPos names name) as [msg | r].
      * destruct H as [_ ->]. reflexivity.
      * destruct H as [j [_ [Hj [Hn _]]]]. exfalso. apply Hnot.
        rewrite <- Hn. now apply nth_In.
Qed.

(** ** getCells *)

Lemma Int_part_IZR (z : Z) : Int_part (IZR z) = z.
Proof. symmetry. apply Int_part_spec. lra. Qed.

Lemma to_int_Floor (r : R) :
  is_int (Int_part r) -> to_int (Floor r) = Int_part r.
Proof.
  intros H. unfold to_int, Floor.
  destruct (Rle_dec 0 (IZR (Int_part r))).
  - rewrite Int_part_IZR. now apply wrap_small.
  - rewrite <- opp_IZR, Int_part_IZR, Z.opp_involutive. now apply wrap_small.
Qed.

Lemma Int_part_fits (r : R) : fits_int r -> is_int (Int_part r).
Proof.
  intros [Hlo Hhi]. destruct (base_Int_part r) as [H1 H2]. split.
  - apply Z.lt_succ_r, lt_IZR. rewrite succ_IZR. lra.
  - apply lt_IZR. lra.
Qed.

(** The integer that a coordinate is sent to is the floor of the
    coordinate. *)
Lemma to_int_Floor_bounds (r : R) :
  fits_int r -> IZR (to_int (Floor r)) <= r < IZR (to_int (Floor r)) + 1.
Proof.
  intros H. rewrite to_int_Floor by now apply Int_part_fits.
  destruct (base_Int_part r) as [H1 H2]. lra.
Qed.

Lemma to_int_Floor_grid (r : R) :
  fits_int r -> ((0 <= to_int (Floor r) < 100)%Z <-> 0 <= r < 100).
Proof.
  intros H. pose proof (to_int_Floor_bounds r H) as [H1 H2].
  split.
  - intros [Ha Hb]. apply IZR_le in Ha.
    assert (Hc : (to_int (Floor r) <= 99)%Z) by lia.
    apply IZR_le in Hc. lra.
  - intros [Ha Hb]. split.
    + apply Z.lt_succ_r, lt_IZR. rewrite succ_IZR. lra.
    + apply lt_IZR. lra.
Qed.

Lemma cells_step_spec (x0 x1 : list R) (k : nat) (rc : list Z * list Z) :
  (k < length x0)%nat -> (k < length x1)%nat ->
  length (fst rc) = length x0 -> length (snd rc) = length x1 ->
  cells_step x0 x1 (Z.of_nat k) rc
  = Ok (update (fst rc) k (to_int (Floor (70 * nth k x0 0 + 50))),
        update (snd rc) k (to_int (Floor (15 * nth k x1 0 + 50)))).
Proof.
  intros H0 H1 Hr Hc. unfold cells_step.
  rewrite (index_of_nat x0 k 0 H0). cbn [bind].
  rewrite store_in_range by (unfold len; lia). cbn [bind].
  rewrite (index_of_nat x1 k 0 H1). cbn [bind].
  rewrite store_in_range by (unfold len; lia). cbn [bind].
  now rewrite Nat2Z.id.
Qed.

Lemma cells_step_panic (x0 x1 : list R) (i : Z) (rc : list Z * list Z)
  (p : panic) :
  cells_step x0 x1 i rc = Panic p -> p = IndexOutOfRange.
Proof.
  unfold cells_step. intros H.
  apply bind_Panic in H as [H | [a [_ H]]]; [now apply index_panic in H |].
  apply bind_Panic in H as [H | [row [_ H]]]; [now apply store_panic in H |].
  apply bind_Panic in H as [H | [b [_ H]]]; [now apply index_panic in H |].
  apply bind_Panic in H as [H | [col [_ H]]]; [now apply store_panic in H |].
  discriminate.
Qed.

(** What [getCells] returns. *)
Lemma getCells_spec (x0 x1 : list R) :
  (length x0 <= length x1)%nat ->
  exists row col, getCells x0 x1 = Ok (row, col) /\
    length row = length x0 /\ length col = length x1 /\
    (forall i, (i < length x0)%nat ->
       nth i row 0%Z = to_int (Floor (70 * nth i x0 0 + 50)) /\
       nth i col 0%Z = to_int (Floor (15 * nth i x1 0 + 50))) /\
    (forall i, (length x0 <= i)%nat -> nth i col 0%Z = 0%Z).
Proof.
  intros H. unfold getCells, for_range, len.
  rewrite Z.sub_0_r, Nat2Z.id.
  destruct (for_loop_total
              (fun k rc =>
                 length (fst rc) = length x0 /\
                 length (snd rc) = length x1 /\
                 (forall i, (i < k)%nat ->
                    nth i (fst rc) 0%Z
                    = to_int (Floor (70 * nth i x0 0 + 50)) /\
                    nth i (snd rc) 0%Z
                    = to_int (Floor (15 * nth i x1 0 + 50))) /\
                 (forall i, (k <= i)%nat -> nth i (snd rc) 0%Z = 0%Z))
              (cells_step x0 x1) (length x0) 0
              (repeat 0%Z (length x0), repeat 0%Z (length x1)))
    as [[row col] [Hrc [Hr [Hc [Hn Hz]]]]].
  - cbn [fst snd]. rewrite !repeat_length.
    repeat split; try lia. intros i _. apply nth_repeat_0.
  - intros k [row col] Hk [Hr [Hc [Hn Hz]]]. cbn [fst snd] in *.
    rewrite cells_step_spec by (cbn [fst snd]; lia). cbn [fst snd].
    eexists. split; [reflexivity |]. cbn [fst snd].
    rewrite !update_length. repeat split; try assumption.
    + destruct (Nat.eq_dec i k) as [-> | Hne].
      * apply nth_update_same. lia.
      * rewrite nth_update_other by congruence. apply Hn. lia.
    + destruct (Nat.eq_dec i k) as [-> | Hne].
      * apply nth_update_same. lia.
      * rewrite nth_update_other by congruence. apply Hn. lia.
    + intros i Hi. rewrite nth_update_other by lia. apply Hz. lia.
  - cbn [fst snd] in *. exists row, col.
    split; [exact Hrc |]. repeat split; try assumption.
    + apply Hn. lia.
    + apply Hn. lia.
Qed.

(** X25: when [x1] is at least as long as [x0], [getCells] returns [row]
    with the length of [x0] and [col] with the length of [x1]; under exact
    arithmetic (the scaled coordinates computed without rounding), where
    the scaled coordinate is in the range of [int], [row[i]] is the floor of
    [70*x0[i] + 50] and lies in the grid exactly when
    [-5/7 <= x0[i] < 5/7], [col[i]] is the floor of [15*x1[i] + 50] and lies
    in the grid exactly when [-10/3 <= x1[i] < 10/3]; the entries of [col]
    past the length of [x0] are 0. *)
Theorem getCells_grid (x0 x1 : list R) :
  (length x0 <= length x1)%nat ->
  exists row col, getCells x0 x1 = Ok (row, col) /\
    length row = length x0 /\ length col = length x1 /\
    (forall i, (i < length x0)%nat -> fits_int (70 * nth i x0 0 + 50) ->
       IZR (nth i row 0%Z) <= 70 * nth i x0 0 + 50
         < IZR (nth i row 0%Z) + 1 /\
       ((0 <= nth i row 0 < nrow)%Z <-> -5 / 7 <= nth i x0 0 < 5 / 7)) /\
    (forall i, (i < length x0)%nat -> fits_int (15 * nth i x1 0 + 50) ->
       IZR (nth i col 0%Z) <= 15 * nth i x1 0 + 50
         < IZR (nth i col 0%Z) + 1 /\
       ((0 <= nth i col 0 < ncol)%Z <-> -10 / 3 <= nth i x1 0 < 10 / 3)) /\
    (forall i, (length x0 <= i)%nat -> nth i col 0%Z = 0%Z).
Proof.
  intros H.
  destruct (getCells_spec x0 x1 H) as [row [col [Hrc [Hr [Hc [Hn Hz]]]]]].
  exists row, col. split; [exact Hrc |].
  split; [exact Hr |]. split; [exact Hc |].
  split; [| split; [| exact Hz]].
  - intros i Hi Hf. destruct (Hn i Hi) as [-> _].
    split; [now apply to_int_Floor_bounds |].
    unfold nrow. rewrite (to_int_Floor_grid _ Hf). lra.
  - intros i Hi Hf. destruct (Hn i Hi) as [_ ->].
    split; [now apply to_int_Floor_bounds |].
    unfold ncol. rewrite (to_int_Floor_grid _ Hf). lra.
Qed.

Lemma getCells_grid_witness :
  exists row col, getCells [0; 1] [0; -4; 2] = Ok (row, col) /\
    length row = length [0; 1] /\ length col = length [0; -4; 2] /\
    (forall i, (i < length [0; 1])%nat ->
       fits_int (70 * nth i [0; 1] 0 + 50) ->
       IZR (nth i row 0%Z) <= 70 * nth i [0; 1] 0 + 50
         < IZR (nth i row 0%Z) + 1 /\
       ((0 <= nth i row 0 < nrow)%Z <-> -5 / 7 <= nth i [0; 1] 0 < 5 / 7)) /\
    (forall i, (i < length [0; 1])%nat ->
       fits_int (15 * nth i [0; -4; 2] 0 + 50) ->
       IZR (nth i col 0%Z) <= 15 * nth i [0; -4; 2] 0 + 50
         < IZR (nth i col 0%Z) + 1 /\
       ((0 <= nth i col 0 < ncol)%Z
        <-> -10 / 3 <= nth i [0; -4; 2] 0 < 10 / 3)) /\
    (forall i, (length [0; 1] <= i)%nat -> nth i col 0%Z = 0%Z).
Proof.
  apply (getCells_grid [0; 1] [0; -4; 2]). simpl. lia.
Defined.

(** X26: [getCells] panics with an index out of range when [x1] is shorter
    than [x0]. *)
Theorem getCells_short_x1 (x0 x1 : list R) :
  (length x1 < length x0)%nat -> getCells x0 x1 = Panic IndexOutOfRange.
Proof.
  intros H. unfold getCells, for_range.
  apply (for_loop_round_panics (cells_step x0 x1) IndexOutOfRange _
           (fun i s q => cells_step_panic x0 x1 i s q) 0 (length x1)).
  - unfold len. lia.
  - intros t. rewrite Z.add_0_l. unfold cells_step.
    destruct (index x0 (Z.of_nat (length x1))) as [a | q]; cbn [bind];
      [| eauto].
    destruct (store (fst t) (Z.of_nat (length x1)) _) as [row | q];
      cbn [bind]; [| eauto].
    assert (E : index x1 (Z.of_nat (length x1)) = Panic IndexOutOfRange).
    { unfold index.
      destruct (Z.ltb_spec (Z.of_nat (length x1)) 0); [reflexivity |].
      rewrite Nat2Z.id.
      destruct (nth_error x1 (length x1)) eqn:E; [| reflexivity].
      assert (nth_error x1 (length x1) <> None) as Hn by congruence.
      apply nth_error_Some in Hn. lia. }
    rewrite E. cbn [bind]. eauto.
Qed.

Lemma getCells_short_x1_witness :
  getCells [0; 1] [0] = Panic IndexOutOfRange.
Proof.
  apply (getCells_short_x1 [0; 1] [0]). simpl. lia.
Defined.

Lemma fle_iff (a b : R) : fle a b = true <-> a <= b.
Proof.
  unfold fle. destruct (Rle_dec a b); split; intros H;
    [assumption | reflexivity | discriminate | contradiction].
Qed.

Lemma flt_iff (a b : R) : flt a b = true <-> a < b.
Proof.
  unfold flt. destruct (Rlt_dec a b); split; intros H;
    [assumption | reflexivity | discriminate | contradiction].
Qed.

Lemma in_box_in_grid (a b : R) :
  fits_int (70 * a + 50) -> fits_int (15 * b + 50) ->
  in_grid (to_int (Floor (70 * a + 50))) (to_int (Floor (15 * b + 50)))
  = in_box a b.
Proof.
  intros Ha Hb.
  pose proof (to_int_Floor_grid _ Ha) as Ga.
  pose proof (to_int_Floor_grid _ Hb) as Gb.
  apply eq_iff_eq_true. unfold in_grid, in_box, nrow, ncol.
  rewrite !andb_true_iff, !Z.leb_le, !Z.ltb_lt, !fle_iff, !flt_iff.
  split.
  - intros [[[H1 H2] H3] H4].
    assert (G1 : 0 <= 70 * a + 50 < 100) by (apply Ga; lia).
    assert (G2 : 0 <= 15 * b + 50 < 100) by (apply Gb; lia).
    repeat split; lra.
  - intros [[[H1 H2] H3] H4].
    assert (G1 : (0 <= to_int (Floor (70 * a + 50)) < 100)%Z)
      by (apply Ga; lra).
    assert (G2 : (0 <= to_int (Floor (15 * b + 50)) < 100)%Z)
      by (apply Gb; lra).
    repeat split; lia.
Qed.

(** X27: [heatMap] on the cells that [getCells] computes from [x0] and
    [x1], for arrays of one length whose scaled coordinates are in the
    range of [int]: both return, hits and misses add up to the number of
    observations and, under exact arithmetic (the scaled coordinates
    computed without rounding), the number of hits is the number of
    observations with [-5/7 <= x0[i] < 5/7] and [-10/3 <= x1[i] < 10/3]. *)
Theorem getCells_heatMap_hits (y x0 x1 : list R) :
  length x1 = length x0 -> length y = length x0 ->
  (forall i, (i < length x0)%nat ->
     fits_int (70 * nth i x0 0 + 50) /\ fits_int (15 * nth i x1 0 + 50)) ->
  exists row col nmiss nhit rat den,
    getCells x0 x1 = Ok (row, col) /\
    heatMap row col y x0 x1 = Ok ((nmiss, nhit), (rat, den)) /\
    nhit = count_if (fun i => in_box (nth i x0 0) (nth i x1 0)) (length x0) /\
    (nhit + nmiss = len x0)%Z.
Proof.
  intros H1 Hy Hf.
  destruct (getCells_spec x0 x1) as [row [col [Hrc [Hr [Hc [Hn _]]]]]];
    [lia |].
  assert (Ha : aligned row col y x0) by (unfold aligned; repeat split; lia).
  destruct (heatMap_accum_total row col y x0 Ha) as [s Hs].
  pose proof (heatMap_accum_inv row col y x0 s Hs)
    as (_ & _ & Hhit & Hsum & _).
  exists row, col, (missed s), (hit s), (rates (num s) (denom s)), (denom s).
  split; [exact Hrc |].
  split; [now apply heatMap_returns |].
  split; [| exact Hsum].
  rewrite Hhit. apply count_if_ext. intros i Hi. unfold obs_in.
  destruct (Hn i Hi) as [-> ->]. destruct (Hf i Hi) as [F0 F1].
  now apply in_box_in_grid.
Qed.

Lemma getCells_heatMap_hits_witness :
  exists row col nmiss nhit rat den,
    getCells [0; 1] [0; 2] = Ok (row, col) /\
    heatMap row col [1; 0] [0; 1] [0; 2] = Ok ((nmiss, nhit), (rat, den)) /\
    nhit = count_if (fun i => in_box (nth i [0; 1] 0) (nth i [0; 2] 0))
             (length [0; 1]) /\
    (nhit + nmiss = len [0; 1])%Z.
Proof.
  apply (getCells_heatMap_hits [1; 0] [0; 1] [0; 2]).
  - reflexivity.
  - reflexivity.
  - intros [| [| i]] Hi; simpl in *; try lia; unfold fits_int; split; lra.
Defined.

(** ** plotlines: the points of a line *)

Lemma fold_left_squares (x : list R) (a : R) :
  fold_left (fun s v => s + v * v) x a = a + sumR (map (fun v => v * v) x).
Proof.
  revert a. induction x as [| v x IH]; intros a; simpl; [lra |].
  rewrite IH. lra.
Qed.

Lemma sumR_squares_nonneg (x : list R) : 0 <= sumR (map (fun v => v * v) x).
Proof. induction x as [| v x IH]; simpl; [lra | nra]. Qed.

Lemma sumR_squares_pos (x : list R) :
  (exists v, In v x /\ v <> 0) -> 0 < sumR (map (fun v => v * v) x).
Proof.
  intros [v [Hin Hv]]. induction x as [| u x IH]; [destruct Hin |].
  simpl. pose proof (sumR_squares_nonneg x) as Hx.
  destruct Hin as [-> | Hin]; [nra |]. specialize (IH Hin). nra.
Qed.

Lemma gxy_points (s : R) (x : list R) (k : Z) :
  let pts := map (fun iy : Z * R => (IZR (fst iy), snd iy / s))
                 (combine (indices (length x) k) x) in
  map fst pts = map IZR (indices (length x) k) /\
  map snd pts = map (fun v => v / s) x.
Proof.
  revert k. induction x as [| v x IH]; intros k; simpl; [auto |].
  destruct (IH (k + 1)%Z) as [H1 H2]. simpl in H1, H2.
  now rewrite H1, H2.
Qed.

Lemma sumR_squares_scaled (s : R) (x : list R) :
  s <> 0 ->
  sumR (map (fun v => v * v) (map (fun v => v / s) x))
  = sumR (map (fun v => v * v) x) / (s * s).
Proof.
  intros Hs. induction x as [| v x IH]; simpl; [field; assumption |].
  rewrite IH. field. assumption.
Qed.

(** X28: the points that [gxy] makes of a line have the positions
    [0, 1, ...] as abscissas; without [scale] the ordinates are the values;
    with [scale], for a line with a non-zero value, the squares of the
    ordinates add up to 1 under exact arithmetic. *)
Theorem gxy_unit_norm (x : list R) :
  (exists v, In v x /\ v <> 0) ->
  map fst (gxy true x) = map IZR (indices (length x) 0) /\
  map fst (gxy false x) = map IZR (indices (length x) 0) /\
  map snd (gxy false x) = x /\
  sumR (map (fun v => v * v) (map snd (gxy true x))) = 1.
Proof.
  intros H. unfold gxy.
  split; [apply gxy_points |]. split; [apply gxy_points |]. split.
  - rewrite (proj2 (gxy_points 1 x 0)).
    rewrite <- (map_id x) at 2. apply map_ext. intros v. field.
  - rewrite (proj2 (gxy_points _ x 0)).
    rewrite fold_left_squares, Rplus_0_l. unfold Sqrt.
    pose proof (sumR_squares_pos x H) as Hp.
    rewrite sumR_squares_scaled
      by (apply Rgt_not_eq, sqrt_lt_R0; exact Hp).
    rewrite sqrt_sqrt by lra. field. lra.
Qed.

Lemma gxy_unit_norm_witness :
  map fst (gxy true [3; 0; 4]) = map IZR (indices (length [3; 0; 4]) 0) /\
  map fst (gxy false [3; 0; 4]) = map IZR (indices (length [3; 0; 4]) 0) /\
  map snd (gxy false [3; 0; 4]) = [3; 0; 4] /\
  sumR (map (fun v => v * v) (map snd (gxy true [3; 0; 4]))) = 1.
Proof.
  apply (gxy_unit_norm [3; 0; 4]).
  exists 3. split; [now left | lra].
Defined.

(** ** getBrakeProb: the caller's memory *)

Lemma view_length (mem : list R) (s : span) :
  in_mem mem s -> length (view mem s) = sp_len s.
Proof.
  unfold in_mem, view. intros H. rewrite length_firstn, length_skipn. lia.
Qed.








(** The memory when the call ends. *)
Lemma getBrakeProb_mem_fst (mem : list R) (sc br : span) (w : Z) :
  fst (getBrakeProb_mem mem sc br w)
  = write mem sc (fst (Argsort (view mem sc))).
Proof.
  unfold getBrakeProb_mem. now destruct (Argsort (view mem sc)).
Qed.

(** What the call returns is what the call on separate arrays returns for
    the values that [br] holds after the sort. *)
Lemma getBrakeProb_mem_snd (mem : list R) (sc br : span) (w : Z) :
  in_mem mem sc ->
  snd (getBrakeProb_mem mem sc br w)
  = match snd (getBrakeProb (view mem sc)
                 (view (fst (getBrakeProb_mem mem sc br w)) br) w) with
    | Ok (l1, s2) => Ok (mkSpan (sp_base sc + Z.to_nat w) (length l1), s2)
    | Panic p => Panic p
    end.
Proof.
  intros Hsc. rewrite getBrakeProb_mem_fst.
  unfold getBrakeProb_mem, getBrakeProb.
  pose proof (Argsort_length (view mem sc)) as Hl.
  rewrite (view_length mem sc Hsc) in Hl.
  destruct (Argsort (view mem sc)) as [sc' ii]. cbn [fst snd] in *.
  rewrite (view_length mem sc Hsc).
  destruct (mapM _ ii) as [b | p]; cbn [bind]; [| reflexivity].
  destruct (for_range w _ _ _) as [z | p]; cbn [bind]; [| reflexivity].
  assert (Es : slice sc' w (wrap (len sc' - w))
               = if (0 <=? w)%Z && (w <=? wrap (Z.of_nat (sp_len sc) - w))%Z
                    && (wrap (Z.of_nat (sp_len sc) - w)
                        <=? Z.of_nat (sp_len sc))%Z
                 then Ok (firstn (Z.to_nat (wrap (Z.of_nat (sp_len sc) - w) - w))
                            (skipn (Z.to_nat w) sc'))
                 else Panic SliceBounds).
  { unfold slice, len. now rewrite Hl. }
  rewrite Es. clear Es. unfold subslice.
  destruct ((0 <=? w)%Z && (w <=? wrap (Z.of_nat (sp_len sc) - w))%Z
            && (wrap (Z.of_nat (sp_len sc) - w) <=? Z.of_nat (sp_len sc))%Z)
    eqn:E; cbn [bind]; [| reflexivity].
  destruct (slice _ w _) as [s2 | p]; cbn [bind]; [| reflexivity].
  apply andb_prop in E as [E E3]. apply andb_prop in E as [E1 E2].
  apply Z.leb_le in E1, E2, E3.
  rewrite length_firstn, length_skipn, Hl. do 3 f_equal. lia.
Qed.

(** One slice passed as [sc] and as [br]: the outcomes are read from the
    sorted cells, here [b = [1, 0, 2]], and the call returns [[0]], where
    the call on separate arrays with these values returns [[1/2]]. *)
Lemma getBrakeProb_mem_same_slice :
  getBrakeProb_mem [1; 0; 2] (mkSpan 0 3) (mkSpan 0 3) 1
  = ([0; 1; 2], Ok (mkSpan 1 1, [0])) /\
  snd (getBrakeProb [1; 0; 2] [1; 0; 2] 1) = Ok ([1], [1 / 2]).
Proof.
  split.
  - unfold getBrakeProb_mem, Argsort, view, write, subslice.
    cbn [sp_base sp_len]. run_go. repeat f_equal. lra.
  - unfold getBrakeProb, Argsort. run_go. repeat f_equal. lra.
Qed.



(** The call on separate arrays is the call on the memory that holds [sc]
    and, after it, [br]. *)
Lemma getBrakeProb_mem_separate (sc br : list R) (w : Z) :
  let out := getBrakeProb_mem (sc ++ br) (mkSpan 0 (length sc))
               (mkSpan (length sc) (length br)) w in
  fst out = fst (fst (getBrakeProb sc br w)) ++ snd (fst (getBrakeProb sc br w))
  /\ snd out
     = match snd (getBrakeProb sc br w) with
       | Ok (l1, s2) => Ok (mkSpan (Z.to_nat w) (length l1), s2)
       | Panic p => Panic p
       end.
Proof.
  cbv zeta.
  assert (Hsc : in_mem (sc ++ br) (mkSpan 0 (length sc))).
  { unfold in_mem. cbn [sp_base sp_len]. rewrite length_app. lia. }
  assert (Hv : view (sc ++ br) (mkSpan 0 (length sc)) = sc).
  { unfold view. cbn [sp_base sp_len skipn].
    rewrite firstn_app, Nat.sub_diag, firstn_all. cbn [firstn].
    apply app_nil_r. }
  assert (Hf : fst (getBrakeProb_mem (sc ++ br) (mkSpan 0 (length sc))
                      (mkSpan (length sc) (length br)) w)
               = fst (Argsort sc) ++ br).
  { rewrite getBrakeProb_mem_fst, Hv. unfold write. cbn [sp_base sp_len firstn].
    rewrite Nat.add_0_l, skipn_app, Nat.sub_diag, skipn_all.
    reflexivity. }
  assert (Hb : view (fst (Argsort sc) ++ br) (mkSpan (length sc) (length br))
               = br).
  { unfold view. cbn [sp_base sp_len].
    rewrite <- (Argsort_length sc) at 1.
    rewrite skipn_app, Nat.sub_diag, skipn_all. cbn [skipn app].
    apply firstn_all. }
  split.
  - rewrite Hf. unfold getBrakeProb. now destruct (Argsort sc).
  - rewrite (getBrakeProb_mem_snd _ _ _ _ Hsc), Hf, Hv, Hb. reflexivity.
Qed.
